(** * A jigsaw puzzle generator: grid solver, edge geometry, session engine

    Shallow embedding of the TypeScript sources
    - [src/puzzle/grid.ts]            (divisors, findBestGrid)
    - [src/puzzle/generatePieces.ts]  (clamp, buildEdges, pieceEdges,
                                       buildJigsawPath, generatePieces,
                                       shuffleInPlace)
    - [src/puzzle/hints.ts]           (helpRadius, clamp, hintRectForPiece)
    - [src/puzzle/wikimedia.ts]       (fetchFileTitlesBySearchMulti,
                                       fetchImageInfos)
    - [src/App.tsx]                   (the placement session, the tray,
                                       the zoomed view, the quality
                                       estimate)

    Numbers.  JavaScript numbers are IEEE-754 doubles.  A finite double
    is the real number it denotes, and [Double.round] is rounding to the
    nearest double, ties to even.  Three computations are on doubles,
    every division, product and logarithm rounded as the program rounds
    it, because their results are compared or floored: the scores of
    [findBestGrid], the quality estimate of [App], and the tile sizes
    and the pad of [generatePieces].  For [grid.ts] and its caller the
    three non-finite values are kept as well, because [findBestGrid]
    starts from [Number.POSITIVE_INFINITY] and relies on how they
    compare; negative zero is not distinguished from zero.  [Math.log],
    which ECMAScript leaves to the engine up to an approximation, is
    the correctly rounded logarithm.  Everything else is over the
    reals, without rounding: the coordinates that [generatePieces.ts]
    hands to the canvas (path points, source and destination
    rectangles), the percentages of [hints.ts], the pointer positions
    that [App] turns into cells, and the draws of [Math.random].
    Numbers that the code only uses as integers (counts, indices,
    divisors) are in [Z] or [nat]. *)

From Stdlib Require Import ZArith List Reals Lra Lia.
From stdpp Require Import base list strings gmap.
Import ListNotations.

(** ** Doubles

    Rounding of a real number to the nearest IEEE-754 binary64 value,
    ties to even, with gradual underflow and without an upper limit
    (the overflow to an infinity is in [Js.double]). *)

Module Double.
Local Open Scope R_scope.

(** The integer nearest to [y]; halfway between two, the even one. *)
Definition nearestEven (y : R) : Z :=
  let f := Zfloor y in
  if Rlt_dec (y - IZR f) (/ 2) then f
  else if Rlt_dec (/ 2) (y - IZR f) then (f + 1)%Z
  else if Z.even f then f else (f + 1)%Z.

(** The binade of [x <> 0]: the [e] with [2^e <= |x| < 2^(e+1)]. *)
Definition binade (x : R) : Z := Zfloor (ln (Rabs x) / ln 2).

(** The exponent of the unit in the last place of the doubles around
    [x]: 52 below the binade for the 53-bit significand, and never
    below -1074, the exponent of the smallest subnormal. *)
Definition lastPlace (x : R) : Z := Z.max (binade x - 52) (-1074).

Definition round (x : R) : R :=
  if Req_dec_T x 0 then 0
  else IZR (nearestEven (x * powerRZ 2 (- lastPlace x)))
       * powerRZ 2 (lastPlace x).

(** Half a unit in the last place of 1, and half the smallest
    subnormal. *)
Definition eps : R := powerRZ 2 (-53).
Definition tiny : R := powerRZ 2 (-1075).

End Double.

(** ** JavaScript numbers *)

Module Js.

Inductive num : Type :=
| NaN
| PInf
| NInf
| Fin (x : R).

Definition ofZ (z : Z) : num := Fin (IZR z).

(** The double that an operation with the exact result [x] returns:
    [x] rounded to the nearest double, or an infinity when that is
    beyond the largest finite double. *)
Definition double (x : R) : num :=
  let r := Double.round x in
  if Rle_dec (powerRZ 2 1024) (Rabs r) then
    if Rlt_dec r 0 then NInf else PInf
  else Fin r.

(** [a / b] *)
Definition div (a b : num) : num :=
  match a, b with
  | NaN, _ | _, NaN => NaN
  | (PInf | NInf), (PInf | NInf) => NaN
  | PInf, Fin y => if Rlt_dec y 0 then NInf else PInf
  | NInf, Fin y => if Rlt_dec y 0 then PInf else NInf
  | Fin _, (PInf | NInf) => Fin 0
  | Fin x, Fin y =>
      if Req_dec_T y 0 then
        if Req_dec_T x 0 then NaN
        else if Rlt_dec x 0 then NInf else PInf
      else double (x / y)
  end.

(** [Math.log] *)
Definition Math_log (a : num) : num :=
  match a with
  | NaN | NInf => NaN
  | PInf => PInf
  | Fin x =>
      if Rlt_dec x 0 then NaN
      else if Req_dec_T x 0 then NInf
      else double (ln x)
  end.

(** [Math.abs] *)
Definition Math_abs (a : num) : num :=
  match a with
  | NaN => NaN
  | PInf | NInf => PInf
  | Fin x => Fin (Rabs x)
  end.

(** [a < b]; every comparison with [NaN] is false. *)
Definition lt (a b : num) : bool :=
  match a, b with
  | NaN, _ | _, NaN => false
  | PInf, _ => false
  | _, NInf => false
  | NInf, _ => true
  | Fin _, PInf => true
  | Fin x, Fin y => if Rlt_dec x y then true else false
  end.

(** [a > b] *)
Definition gt (a b : num) : bool := lt b a.

(** [a >= b] *)
Definition ge (a b : num) : bool :=
  match a, b with
  | NaN, _ | _, NaN => false
  | PInf, _ => true
  | _, NInf => true
  | NInf, _ => false
  | Fin _, PInf => false
  | Fin x, Fin y => if Rle_dec y x then true else false
  end.

(** [a * b] *)
Definition mul (a b : num) : num :=
  match a, b with
  | NaN, _ | _, NaN => NaN
  | PInf, PInf | NInf, NInf => PInf
  | PInf, NInf | NInf, PInf => NInf
  | PInf, Fin y | Fin y, PInf =>
      if Req_dec_T y 0 then NaN else if Rlt_dec y 0 then NInf else PInf
  | NInf, Fin y | Fin y, NInf =>
      if Req_dec_T y 0 then NaN else if Rlt_dec y 0 then PInf else NInf
  | Fin x, Fin y => double (x * y)
  end.

(** [Math.floor] *)
Definition Math_floor (a : num) : num :=
  match a with
  | Fin x => Fin (IZR (Zfloor x))
  | _ => a
  end.

(** [Math.min] and [Math.max] of two numbers *)
Definition Math_min (a b : num) : num :=
  match a, b with
  | NaN, _ | _, NaN => NaN
  | NInf, _ | _, NInf => NInf
  | PInf, c | c, PInf => c
  | Fin x, Fin y => Fin (Rmin x y)
  end.

Definition Math_max (a b : num) : num :=
  match a, b with
  | NaN, _ | _, NaN => NaN
  | PInf, _ | _, PInf => PInf
  | NInf, c | c, NInf => c
  | Fin x, Fin y => Fin (Rmax x y)
  end.

End Js.

(** ** The canvas

    What the code hands to a [CanvasRenderingContext2D]: path commands
    and the nine-argument [drawImage].  A generated image (a PNG data
    URL) is represented by the canvas operations that produced it. *)

Inductive PathCmd : Type :=
| MoveTo (x y : R)
| LineTo (x y : R)
| BezierCurveTo (c1x c1y c2x c2y x y : R)
| ClosePath.

(** [ctx.drawImage(image, sx, sy, sw, sh, dx, dy, dw, dh)] *)
Record DrawImage : Type := mkDrawImage {
  sx : R; sy : R; sw : R; sh : R;
  dx : R; dy : R; dw : R; dh : R
}.

(** The outlined piece image: the clip path, then the image drawn
    behind it. *)
Record Outlined : Type := mkOutlined {
  clipPath : list PathCmd;
  drawn : DrawImage
}.

(** ** types.ts *)

Module Types.

Inductive PieceRotation : Type := R0 | R90 | R180 | R270.

Record Piece : Type := mkPiece {
  id : nat;
  row : nat;
  col : nat;
  imgUrl : Outlined;
  rectUrl : DrawImage;
  outW : R;
  outH : R;
  tileW : R;
  tileH : R;
  pad : R;
  rotation : PieceRotation;
  placed : bool
}.

Record Grid : Type := mkGrid { rows : Z; cols : Z; count : Z }.

End Types.

Import Types.

(** ** grid.ts *)

Module GridSolver.
Import Js.
Local Open Scope Z_scope.

(** [out.sort((a, b) => a - b)]: ascending numeric order. *)
Fixpoint insert_asc (x : Z) (l : list Z) : list Z :=
  match l with
  | [] => [x]
  | y :: l' => if x <=? y then x :: l else y :: insert_asc x l'
  end.

Definition sort_asc (l : list Z) : list Z := fold_right insert_asc [] l.

(** The body of [for (let i = 1; i * i <= n; i++)], started at [i] with
    the array [out].  [n % i] is [Z.rem]; [n / i] is only evaluated when
    that remainder is zero, where the quotient of doubles is the integer
    quotient.  The recursion is on a step budget; [divisors] gives it
    [n] steps, which the loop never uses up. *)
Fixpoint divisors_loop (fuel : nat) (n i : Z) (out : list Z) : list Z :=
  match fuel with
  | O => out
  | S fuel' =>
      if i * i <=? n then
        let out' :=
          if Z.rem n i =? 0 then
            let o := out ++ [i] in
            if negb (i =? n ÷ i) then o ++ [n ÷ i] else o
          else out in
        divisors_loop fuel' n (i + 1) out'
      else out
  end.

Definition divisors (n : Z) : list Z :=
  sort_asc (divisors_loop (Z.to_nat n) n 1 []).

Record Best : Type := mkBest { b_rows : Z; b_cols : Z; b_score : num }.

(** [Math.abs(Math.log((cols / rows) / imageAspect))] *)
Definition score (rows cols : Z) (imageAspect : num) : num :=
  Math_abs (Math_log (div (div (ofZ cols) (ofZ rows)) imageAspect)).

(** One iteration of [for (const d of ds)].  [pieceCount / d] is exact:
    every [d] in [ds] divides [pieceCount]. *)
Definition consider (pieceCount : Z) (imageAspect : num)
    (best : Best) (d : Z) : Best :=
  let rows := d in
  let cols := pieceCount ÷ d in
  let score := score rows cols imageAspect in
  if lt score (b_score best) then mkBest rows cols score else best.

Definition findBestGrid (pieceCount : Z) (imageAspect : num) : Grid :=
  let ds := divisors pieceCount in
  let best :=
    fold_left (consider pieceCount imageAspect) ds
      (mkBest 1 pieceCount PInf) in
  if gt (score (b_rows best) (b_cols best) imageAspect)
        (score (b_cols best) (b_rows best) imageAspect)
  then mkGrid (b_cols best) (b_rows best) pieceCount
  else mkGrid (b_rows best) (b_cols best) pieceCount.

End GridSolver.

(** ** generatePieces.ts *)

Module Geometry.
Local Open Scope R_scope.

(** [EdgeType = -1 | 0 | 1]: -1 blank, +1 tab, 0 flat. *)
Definition EdgeType : Type := Z.

Definition clamp (n min max : R) : R := Rmax min (Rmin max n).

Record EdgeSpec : Type := mkEdgeSpec {
  sign : EdgeType;
  widthF : R;
  neckF : R;
  skewF : R
}.

Record Edges : Type := mkEdges {
  vEdges : list (list EdgeSpec);
  hEdges : list (list EdgeSpec)
}.

(** *** pieceEdges *)

Record PieceEdges : Type := mkPieceEdges {
  top : EdgeSpec;
  right : EdgeSpec;
  bottom : EdgeSpec;
  left : EdgeSpec
}.

(** [m[r]![c]!] on an array of arrays; [None] is [undefined]. *)
Definition at2 (m : list (list EdgeSpec)) (r c : Z) : option EdgeSpec :=
  if (r <? 0)%Z || (c <? 0)%Z then None
  else match nth_error m (Z.to_nat r) with
       | Some row => nth_error row (Z.to_nat c)
       | None => None
       end.

Definition flat : EdgeSpec := mkEdgeSpec 0%Z 1 1 0.

(** [{ ...e, sign: -e.sign }] *)
Definition inverted (e : EdgeSpec) : EdgeSpec :=
  mkEdgeSpec (- sign e)%Z (widthF e) (neckF e) (skewF e).

(** [None] stands for the TypeError that an absent matrix entry leads
    to, in [pieceEdges] itself or where [buildJigsawPath] first reads
    the entry. *)
Definition pieceEdges (grid : Grid) (edges : Edges) (r c : Z)
  : option PieceEdges :=
  top ← (if (r =? 0)%Z then Some flat
         else inverted <$> at2 (hEdges edges) (r - 1) c);
  bottom ← (if (r =? rows grid - 1)%Z then Some flat
            else at2 (hEdges edges) r c);
  left ← (if (c =? 0)%Z then Some flat
          else inverted <$> at2 (vEdges edges) r (c - 1));
  right ← (if (c =? cols grid - 1)%Z then Some flat
           else at2 (vEdges edges) r c);
  Some (mkPieceEdges top right bottom left).

(** *** buildJigsawPath

    The result is the list of the path commands issued on [ctx], in
    order, from [beginPath] to [closePath]. *)

Definition EDGE_A : R := 0.28.
Definition EDGE_B : R := 0.72.

(** Locals shared by [hEdgeAbs] and [vEdgeAbs]. *)
Definition dirOf (start stop : R) : R :=
  if Rle_dec start stop then 1 else -1.

Definition skewOf (dir : R) (spec : EdgeSpec) : R :=
  if Req_dec_T dir 1 then skewF spec else - skewF spec.

Definition centerU (L skew : R) : R := L * (0.5 + clamp skew (-1) 1 * 0.06).

Definition widthU (L : R) (spec : EdgeSpec) : R :=
  clamp (L * 0.42 * widthF spec) (L * 0.34) (L * 0.50).

Definition neckU (widthU : R) (spec : EdgeSpec) : R :=
  clamp (widthU * 0.34 * neckF spec) (widthU * 0.26) (widthU * 0.42).

Definition amp (tab : R) : R := clamp (tab * 0.92) (tab * 0.78) (tab * 1.05).

(** [spec.sign === 0 || L <= 0.0001] *)
Definition isFlat (spec : EdgeSpec) (L : R) : bool :=
  (sign spec =? 0)%Z || (if Rle_dec L 0.0001 then true else false).

Definition hEdgeAbs (tab startX endX y : R) (normalY : Z) (spec : EdgeSpec)
  : list PathCmd :=
  let dir := dirOf startX endX in
  let L := Rabs (endX - startX) in
  let xAt := fun u : R => startX + dir * u in
  if isFlat spec L then
    [LineTo endX y]
  else
    let skew := skewOf dir spec in
    let centerU := centerU L skew in
    let widthU := widthU L spec in
    let neckU := neckU widthU spec in
    let amp := amp tab in
    let disp := IZR normalY * IZR (sign spec) * amp in
    let shoulder := disp * 0.18 in
    let aU := clamp (centerU - widthU / 2) (L * 0.14) (L * 0.86) in
    let dU := clamp (centerU + widthU / 2) (L * 0.14) (L * 0.86) in
    let bU := centerU - neckU / 2 in
    let cU := centerU + neckU / 2 in
    [ LineTo (xAt (L * EDGE_A)) y;
      LineTo (xAt aU) y;
      BezierCurveTo (xAt (aU + widthU * 0.10)) y
                    (xAt (bU - widthU * 0.10)) y
                    (xAt bU) (y + shoulder);
      BezierCurveTo (xAt (bU + neckU * 0.06)) (y + shoulder)
                    (xAt (centerU - neckU * 0.62)) (y + disp * 0.92)
                    (xAt centerU) (y + disp);
      BezierCurveTo (xAt (centerU + neckU * 0.62)) (y + disp * 0.92)
                    (xAt (cU - neckU * 0.06)) (y + shoulder)
                    (xAt cU) (y + shoulder);
      BezierCurveTo (xAt (cU + widthU * 0.10)) y
                    (xAt (dU - widthU * 0.10)) y
                    (xAt dU) y;
      LineTo (xAt (L * EDGE_B)) y;
      LineTo endX y ].

Definition vEdgeAbs (tab x startY endY : R) (normalX : Z) (spec : EdgeSpec)
  : list PathCmd :=
  let dir := dirOf startY endY in
  let L := Rabs (endY - startY) in
  let yAt := fun u : R => startY + dir * u in
  if isFlat spec L then
    [LineTo x endY]
  else
    let skew := skewOf dir spec in
    let centerU := centerU L skew in
    let widthU := widthU L spec in
    let neckU := neckU widthU spec in
    let amp := amp tab in
    let disp := IZR normalX * IZR (sign spec) * amp in
    let shoulder := disp * 0.18 in
    let aU := clamp (centerU - widthU / 2) (L * 0.14) (L * 0.86) in
    let dU := clamp (centerU + widthU / 2) (L * 0.14) (L * 0.86) in
    let bU := centerU - neckU / 2 in
    let cU := centerU + neckU / 2 in
    [ LineTo x (yAt (L * EDGE_A));
      LineTo x (yAt aU);
      BezierCurveTo x (yAt (aU + widthU * 0.10))
                    x (yAt (bU - widthU * 0.10))
                    (x + shoulder) (yAt bU);
      BezierCurveTo (x + shoulder) (yAt (bU + neckU * 0.06))
                    (x + disp * 0.92) (yAt (centerU - neckU * 0.62))
                    (x + disp) (yAt centerU);
      BezierCurveTo (x + disp * 0.92) (yAt (centerU + neckU * 0.62))
                    (x + shoulder) (yAt (cU - neckU * 0.06))
                    (x + shoulder) (yAt cU);
      BezierCurveTo x (yAt (cU + widthU * 0.10))
                    x (yAt (dU - widthU * 0.10))
                    x (yAt dU);
      LineTo x (yAt (L * EDGE_B));
      LineTo x endY ].

(** The four sides as [buildJigsawPath] traces them: top left to right
    (outward is -Y), right top to bottom (outward is +X), bottom right
    to left (outward is +Y), left bottom to top (outward is -X). *)
Definition topPath (tileW tileH tab : R) (e : PieceEdges) : list PathCmd :=
  hEdgeAbs tab 0 tileW 0 (-1) (top e).
Definition rightPath (tileW tileH tab : R) (e : PieceEdges) : list PathCmd :=
  vEdgeAbs tab tileW 0 tileH 1 (right e).
Definition bottomPath (tileW tileH tab : R) (e : PieceEdges) : list PathCmd :=
  hEdgeAbs tab tileW 0 tileH 1 (bottom e).
Definition leftPath (tileW tileH tab : R) (e : PieceEdges) : list PathCmd :=
  vEdgeAbs tab 0 tileH 0 (-1) (left e).

Definition buildJigsawPath (tileW tileH tab : R) (e : PieceEdges)
  : list PathCmd :=
  [MoveTo 0 0]
  ++ topPath tileW tileH tab e
  ++ rightPath tileW tileH tab e
  ++ bottomPath tileW tileH tab e
  ++ leftPath tileW tileH tab e
  ++ [ClosePath].

(** *** generatePieces: sizes

    The arithmetic follows the code wherever no division by zero
    occurs and no double overflows, that is for an image with positive
    dimensions of ordinary size and a grid with at least one row and
    column.  The tile sizes and the pad are integers that the code
    gets by flooring a double: they are computed on the doubles
    ([tileW64], [scale64], the rounded products).  The source and
    destination rectangles are computed over the reals, from the exact
    quotients [tileW], [tileH] and [scale]. *)

Record Image : Type := mkImage {
  naturalWidth : R;
  width : R;
  naturalHeight : R;
  height : R
}.

(** [a || b] on numbers *)
Definition orElse (a b : R) : R := if Req_dec_T a 0 then b else a.

Definition Math_floor (x : R) : R := IZR (Zfloor x).

Definition maxBoardPx : R := 900.

Section Sizes.
Variable image : Image.
Variable grid : Grid.

Definition naturalW : R := orElse (naturalWidth image) (width image).
Definition naturalH : R := orElse (naturalHeight image) (height image).

Definition tileW : R := naturalW / IZR (cols grid).
Definition tileH : R := naturalH / IZR (rows grid).

Definition scale : R := Rmin 1 (maxBoardPx / Rmax naturalW naturalH).

(** [tileW], [tileH] and [scale] as the doubles the code holds. *)
Definition tileW64 : R := Double.round (naturalW / IZR (cols grid)).
Definition tileH64 : R := Double.round (naturalH / IZR (rows grid)).
Definition scale64 : R :=
  Rmin 1 (Double.round (maxBoardPx / Rmax naturalW naturalH)).

Definition outTileW : R :=
  Rmax 10 (Math_floor (Double.round (tileW64 * scale64))).
Definition outTileH : R :=
  Rmax 10 (Math_floor (Double.round (tileH64 * scale64))).

Definition pad : R :=
  Rmax 6 (Math_floor
            (Double.round (Rmin outTileW outTileH * Double.round 0.18))).
Definition outW : R := outTileW + pad * 2.
Definition outH : R := outTileH + pad * 2.

(** Per tile [(r, c)] *)
Variables r c : nat.

(** The rectangular underlay, drawn on [rectCtx]. *)
Definition rectDraw : DrawImage :=
  mkDrawImage (INR c * tileW) (INR r * tileH) tileW tileH
              0 0 outTileW outTileH.

Definition padSrcX : R := pad / scale.
Definition padSrcY : R := pad / scale.
Definition srcX : R := INR c * tileW - padSrcX.
Definition srcY : R := INR r * tileH - padSrcY.
Definition srcW : R := tileW + padSrcX * 2.
Definition srcH : R := tileH + padSrcY * 2.

Definition clampX0 : R := clamp srcX 0 naturalW.
Definition clampY0 : R := clamp srcY 0 naturalH.
Definition clampX1 : R := clamp (srcX + srcW) 0 naturalW.
Definition clampY1 : R := clamp (srcY + srcH) 0 naturalH.
Definition realW : R := Rmax 1 (clampX1 - clampX0).
Definition realH : R := Rmax 1 (clampY1 - clampY0).

Definition destX : R := (clampX0 - srcX) * scale.
Definition destY : R := (clampY0 - srcY) * scale.
Definition destW : R := realW * scale.
Definition destH : R := realH * scale.

(** The image drawn behind the clip path, on [ctx]. *)
Definition clipDraw : DrawImage :=
  mkDrawImage clampX0 clampY0 realW realH
              (- pad + destX) (- pad + destY) destW destH.

End Sizes.

(** The options object of [generatePieces]:
    [{ randomRotation: boolean; onProgress?: ... }].  The progress
    callback has no part in what is generated and is left out. *)
Record Options : Type := mkOptions {
  randomRotation : bool
}.

(** *** Random draws

    [Math.random] is the ambient generator of the JavaScript realm: a
    hidden state that every call reads and advances.  The state is made
    explicit and threaded through the draws in evaluation order. *)
Section Random.
Variable rng : Type.
Variable Math_random : rng -> R * rng.

Definition Rand (A : Type) : Type := rng -> A * rng.

Definition ret {A} (a : A) : Rand A := fun g => (a, g).

Definition bind {A B} (m : Rand A) (k : A -> Rand B) : Rand B :=
  fun g => let (a, g') := m g in k a g'.

Local Notation "'draw' x ':=' m 'in' k" := (bind m (fun x => k))
  (at level 10, x name, m at level 100, k at level 200).

(** [vals[Math.floor(Math.random() * vals.length)]!]; a draw outside
    [0, 1), which [Math.random] never makes, would give [undefined]
    and is mapped to 0 degrees here. *)
Definition randomRotation90 : Rand PieceRotation :=
  draw u := Math_random in
  ret (match Zfloor (u * 4) with
       | 0%Z => R0
       | 1%Z => R90
       | 2%Z => R180
       | 3%Z => R270
       | _ => R0
       end).

Definition rand (min max : R) : Rand R :=
  draw u := Math_random in ret (min + u * (max - min)).

(** The object literal of [buildEdges]; its four properties are
    evaluated in source order. *)
Definition randomSpec : Rand EdgeSpec :=
  draw u := Math_random in
  draw w := rand 0.92 1.06 in
  draw n := rand 0.90 1.12 in
  draw s := rand (-1) 1 in
  ret (mkEdgeSpec (if Rlt_dec u 0.5 then 1%Z else (-1)%Z) w n s).

(** [Array.from({ length }, () => f())] *)
Fixpoint arrayFrom {A} (length : nat) (f : Rand A) : Rand (list A) :=
  match length with
  | O => ret []
  | S k => draw a := f in draw l := arrayFrom k f in ret (a :: l)
  end.

Definition buildEdges (grid : Grid) : Rand Edges :=
  draw v := arrayFrom (Z.to_nat (rows grid))
              (arrayFrom (Z.to_nat (Z.max 0 (cols grid - 1))) randomSpec) in
  draw h := arrayFrom (Z.to_nat (Z.max 0 (rows grid - 1)))
              (arrayFrom (Z.to_nat (cols grid)) randomSpec) in
  ret (mkEdges v h).

(** The body of the two nested [for] loops of [generatePieces] for
    the tile [(r, c)]. *)
Definition generatePiece (image : Image) (grid : Grid) (opts : Options)
    (edges : Edges) (rc : nat * nat) : Rand (option Piece) :=
  let (r, c) := rc in
  match pieceEdges grid edges (Z.of_nat r) (Z.of_nat c) with
  | None => ret None
  | Some e =>
      draw rot := (if randomRotation opts then randomRotation90
                   else ret R0) in
      ret (Some
        {| Types.id := r * Z.to_nat (cols grid) + c;
           Types.row := r;
           Types.col := c;
           Types.imgUrl :=
             mkOutlined
               (buildJigsawPath (outTileW image grid) (outTileH image grid)
                  (pad image grid) e)
               (clipDraw image grid r c);
           Types.rectUrl := rectDraw image grid r c;
           Types.outW := outW image grid;
           Types.outH := outH image grid;
           Types.tileW := outTileW image grid;
           Types.tileH := outTileH image grid;
           Types.pad := pad image grid;
           Types.rotation := rot;
           Types.placed := false |})
  end.

(** Run [f] on the elements in order, stopping at the first error. *)
Fixpoint forEach {A B} (l : list A) (f : A -> Rand (option B))
  : Rand (option (list B)) :=
  match l with
  | [] => ret (Some [])
  | a :: l' =>
      draw b := f a in
      match b with
      | None => ret None
      | Some b =>
          draw bs := forEach l' f in
          ret (match bs with Some bs => Some (b :: bs) | None => None end)
      end
  end.

(** [for (r = 0; r < grid.rows; r++) for (c = 0; c < grid.cols; c++)] *)
Definition tiles (grid : Grid) : list (nat * nat) :=
  r ← seq 0 (Z.to_nat (rows grid));
  c ← seq 0 (Z.to_nat (cols grid));
  [(r, c)].

(** The edge specs that [generatePieces(image, grid, opts)] cuts the
    pieces with: [const edges = buildEdges(grid)]. *)
Definition generatePieces_edges (grid : Grid) (opts : Options)
  : Rand Edges :=
  buildEdges grid.

(** [generatePieces]: the pieces pushed, or [None] when a TypeError
    interrupts the generation.  The progress callback and the yields
    to the event loop are left out. *)
Definition generatePieces (image : Image) (grid : Grid) (opts : Options)
  : Rand (option (list Piece)) :=
  draw edges := generatePieces_edges grid opts in
  forEach (tiles grid) (generatePiece image grid opts edges).

(** [shuffleInPlace]: one iteration [i] of the loop, then the loop
    from [i] down to 1.  An index [j] outside the array, which a draw
    in [0, 1) never gives, leaves the array as it is here. *)
Definition swap {A} (arr : list A) (i j : nat) : list A :=
  match arr !! i, arr !! j with
  | Some a, Some b => <[i := b]> (<[j := a]> arr)
  | _, _ => arr
  end.

Fixpoint shuffleFrom {A} (i : nat) (arr : list A) : Rand (list A) :=
  match i with
  | O => ret arr
  | S i' =>
      draw u := Math_random in
      let j := Z.to_nat (Zfloor (u * INR (i + 1))) in
      shuffleFrom i' (swap arr i j)
  end.

Definition shuffleInPlace {A} (arr : list A) : Rand (list A) :=
  shuffleFrom (length arr - 1) arr.

End Random.

Arguments ret {rng A} a g.
Arguments bind {rng A B} m k g.

(** A generator that replays a recorded sequence of draws (and gives 0
    once the record is used up). *)
Definition tape : Type := list R.

Definition replay (t : tape) : R * tape :=
  match t with
  | [] => (0, [])
  | u :: t' => (u, t')
  end.

End Geometry.

(** ** App.tsx

    [part_001] holds two revisions of [App.tsx].  The embedding follows
    the later one (with [isPieceCorrect] and the "warn" feedback).  The
    session is the React state of [App] that the placement logic reads
    and writes; one event handler is one state transition.  Piece ids
    and cell indices are array indices, in [nat]. *)

Module Session.
Import Geometry.

Definition PIECE_COUNTS : list Z := [50; 100; 200; 500; 1000]%Z.

(** [estimateQualityForCount(size, count)], the only caller of
    [findBestGrid] besides [restartSamePuzzle] and [qualityByCount]. *)
Record Size : Type := mkSize { w : Js.num; h : Js.num }.

Record Quality : Type := mkQuality {
  ok : bool;
  tilePx : Js.num;
  q_grid : Grid
}.

Definition estimateQualityForCount (size : Size) (count : Z) : Quality :=
  let maxBoardPx := Js.Fin 900 in
  let scale :=
    Js.Math_min (Js.Fin 1)
      (Js.div maxBoardPx (Js.Math_max (w size) (h size))) in
  let g := GridSolver.findBestGrid count (Js.div (w size) (h size)) in
  let tileW :=
    Js.Math_floor (Js.mul (Js.div (w size) (Js.ofZ (cols g))) scale) in
  let tileH :=
    Js.Math_floor (Js.mul (Js.div (h size) (Js.ofZ (rows g))) scale) in
  let tilePx := Js.Math_min tileW tileH in
  mkQuality (Js.ge tilePx (Js.Fin 28)) tilePx g.

Inductive Flash : Type := good | bad | warn.

Record State : Type := mkState {
  grid : option Grid;
  rotationEnabled : bool;
  piecesById : list Piece;
  trayOrder : list nat;
  placements : list (option nat);
  selectedPieceId : option nat;
  boardFlash : option Flash
}.

(** The [useState] setters. *)
Definition setPiecesById (f : list Piece -> list Piece) (s : State) : State :=
  mkState (grid s) (rotationEnabled s) (f (piecesById s)) (trayOrder s)
          (placements s) (selectedPieceId s) (boardFlash s).
Definition setTrayOrder (f : list nat -> list nat) (s : State) : State :=
  mkState (grid s) (rotationEnabled s) (piecesById s) (f (trayOrder s))
          (placements s) (selectedPieceId s) (boardFlash s).
Definition setPlacements (f : list (option nat) -> list (option nat))
    (s : State) : State :=
  mkState (grid s) (rotationEnabled s) (piecesById s) (trayOrder s)
          (f (placements s)) (selectedPieceId s) (boardFlash s).
Definition setSelectedPieceId (v : option nat) (s : State) : State :=
  mkState (grid s) (rotationEnabled s) (piecesById s) (trayOrder s)
          (placements s) v (boardFlash s).
Definition setRotationEnabled (b : bool) (s : State) : State :=
  mkState (grid s) b (piecesById s) (trayOrder s)
          (placements s) (selectedPieceId s) (boardFlash s).
Definition flash (t : Flash) (s : State) : State :=
  mkState (grid s) (rotationEnabled s) (piecesById s) (trayOrder s)
          (placements s) (selectedPieceId s) (Some t).

Definition withRotation (p : Piece) (r : PieceRotation) : Piece :=
  mkPiece (id p) (row p) (col p) (imgUrl p) (rectUrl p) (Types.outW p)
          (Types.outH p) (Types.tileW p) (Types.tileH p) (Types.pad p)
          r (placed p).
Definition withPlaced (p : Piece) (b : bool) : Piece :=
  mkPiece (id p) (row p) (col p) (imgUrl p) (rectUrl p) (Types.outW p)
          (Types.outH p) (Types.tileW p) (Types.tileH p) (Types.pad p)
          (rotation p) b.

Definition rotate90 (r : PieceRotation) : PieceRotation :=
  match r with
  | R0 => R90
  | R90 => R180
  | R180 => R270
  | R270 => R0
  end.

Definition isR0 (r : PieceRotation) : bool :=
  match r with R0 => true | _ => false end.

(** [arr.indexOf(id)], [None] for -1 *)
Definition indexOf (arr : list nat) (i : nat) : option nat :=
  fst <$> list_find (λ x, x = i) arr.

(** [const idx = arr.indexOf(id); if (idx >= 0) arr.splice(idx, 1)] *)
Definition removeFromArray (arr : list nat) (i : nat) : list nat :=
  match indexOf arr i with
  | Some idx => delete idx arr
  | None => arr
  end.

(** [out[i] = x] on a copy of a JavaScript array: past the end, the
    array grows and the cells in between are holes, which read as
    [undefined] and satisfy [== null]. *)
Definition arraySet (arr : list (option nat)) (i : nat) (x : option nat)
  : list (option nat) :=
  if decide (i < length arr) then <[i := x]> arr
  else arr ++ replicate (i - length arr) None ++ [x].

(** [placements[i] === v] for a number [v] *)
Definition holds (placements : list (option nat)) (i v : nat) : bool :=
  bool_decide (placements !! i = Some (Some v)).

(** [placements[i] == null] *)
Definition isNull (placements : list (option nat)) (i : nat) : bool :=
  match placements !! i with
  | Some (Some _) => false
  | _ => true
  end.

Definition isPieceCorrect (piece : Piece) (placements : list (option nat))
    (rotationEnabled : bool) : bool :=
  let onCorrectCell := holds placements (id piece) (id piece) in
  let rotationOk := negb rotationEnabled || isR0 (rotation piece) in
  placed piece && onCorrectCell && rotationOk.

Definition setPieceRotation (pieceId : nat) (next : PieceRotation)
  : State -> State :=
  setPiecesById (λ prev,
    match prev !! pieceId with
    | None => prev
    | Some p => <[pieceId := withRotation p next]> prev
    end).

Definition rotatePiece90 (pieceId : nat) (s : State) : State :=
  match piecesById s !! pieceId with
  | None => s
  | Some p => setPieceRotation pieceId (rotate90 (rotation p)) s
  end.

Definition unplacePiece (pieceId : nat) (s : State) : State :=
  let s1 := setPiecesById (λ prev,
    match prev !! pieceId with
    | None => prev
    | Some p =>
        if placed p then <[pieceId := withPlaced p false]> prev else prev
    end) s in
  let s2 := setPlacements (λ prev,
    match list_find (λ x, x = Some pieceId) prev with
    | None => prev
    | Some (idx, _) => <[idx := None]> prev
    end) s1 in
  setTrayOrder (λ prev,
    if bool_decide (pieceId ∈ prev) then prev else pieceId :: prev) s2.

Definition solvePuzzle (s : State) : State :=
  match grid s with
  | None => s
  | Some g =>
      let s1 := setPiecesById
        (map (λ p, withPlaced (withRotation p R0) true)) s in
      let s2 := setPlacements
        (λ _, Some <$> seq 0 (Z.to_nat (count g))) s1 in
      let s3 := setTrayOrder (λ _, []) s2 in
      flash good (setSelectedPieceId None s3)
  end.

Definition placePiece (pieceId cellIndex : nat) (s : State) : State :=
  let s1 := setPiecesById (λ prev,
    match prev !! pieceId with
    | None => prev
    | Some p => <[pieceId := withPlaced p true]> prev
    end) s in
  let s2 := setPlacements (λ prev, arraySet prev cellIndex (Some pieceId)) s1 in
  setTrayOrder (λ prev, removeFromArray prev pieceId) s2.

Definition tryPlaceSelectedAtCell (cellIdx : nat) (s : State) : State :=
  match grid s with
  | None => s
  | Some _ =>
      match selectedPieceId s with
      | None => s
      | Some sel =>
          match piecesById s !! sel with
          | None => s
          | Some piece =>
              let isCorrectCell := bool_decide (id piece = cellIdx) in
              let isSameAlreadyThere :=
                holds (placements s) cellIdx (id piece) in
              let cellEmpty := isNull (placements s) cellIdx in
              let rotationOk :=
                negb (rotationEnabled s) || isR0 (rotation piece) in
              if isCorrectCell && (cellEmpty || isSameAlreadyThere) then
                let s1 := if isSameAlreadyThere then s
                          else placePiece (id piece) cellIdx s in
                if rotationEnabled s && negb rotationOk then
                  flash warn s1
                else
                  setSelectedPieceId None (flash good s1)
              else flash bad s
          end
      end
  end.

(** [tryPlaceSelectedAtCell] as the earlier revision of [App] in
    [part_001] has it: a piece that is not upright is refused. *)
Definition tryPlaceSelectedAtCell_earlier (cellIdx : nat) (s : State)
  : State :=
  match grid s with
  | None => s
  | Some _ =>
      match selectedPieceId s with
      | None => s
      | Some sel =>
          match piecesById s !! sel with
          | None => s
          | Some piece =>
              let rotationOk :=
                negb (rotationEnabled s) || isR0 (rotation piece) in
              let cellEmpty := isNull (placements s) cellIdx in
              let ok :=
                bool_decide (id piece = cellIdx) && rotationOk && cellEmpty in
              if ok then
                setSelectedPieceId None
                  (flash good (placePiece (id piece) cellIdx s))
              else flash bad s
          end
      end
  end.

(** The handlers that select a piece: a click on a piece of the tray
    or of the board (ignored when the piece is locked). *)
Definition selectPiece (pieceId : nat) (s : State) : State :=
  match piecesById s !! pieceId with
  | None => s
  | Some p =>
      if isPieceCorrect p (placements s) (rotationEnabled s) then s
      else setSelectedPieceId (Some (id p)) s
  end.

(** [onClick] of the board, at the cell [cellIdx]. *)
Definition boardClick (cellIdx : nat) (s : State) : State :=
  match grid s with
  | None => s
  | Some _ =>
      match selectedPieceId s with
      | None =>
          match placements s !! cellIdx with
          | Some (Some pid) =>
              match piecesById s !! pid with
              | Some p =>
                  if isPieceCorrect p (placements s) (rotationEnabled s)
                  then s else setSelectedPieceId (Some pid) s
              | None => s
              end
          | _ => s
          end
      | Some _ => tryPlaceSelectedAtCell cellIdx s
      end
  end.

(** The effect that releases the selection once the selected piece is
    on its cell and upright. *)
Definition releaseSelection (s : State) : State :=
  if negb (rotationEnabled s) then s else
  match selectedPieceId s, grid s with
  | Some sel, Some _ =>
      match piecesById s !! sel with
      | Some p =>
          if placed p && holds (placements s) (id p) (id p)
             && isR0 (rotation p)
          then setSelectedPieceId None s else s
      | None => s
      end
  | _, _ => s
  end.

(** The effect that puts every piece upright while rotation is off. *)
Definition uprightAll (s : State) : State :=
  if rotationEnabled s then s
  else setPiecesById (map (λ p, withRotation p R0)) s.

(** The state right after [useState]: no puzzle loaded. *)
Definition empty : State := mkState None true [] [] [] None None.

(** [[...generated].sort((a, b) => a.id - b.id)] *)
Fixpoint insertById (p : Piece) (l : list Piece) : list Piece :=
  match l with
  | [] => [p]
  | q :: l' => if (id p <=? id q)%nat then p :: l else q :: insertById p l'
  end.

Definition sortById (l : list Piece) : list Piece :=
  fold_right insertById [] l.

Section WithRandom.
Variable rng : Type.
Variable Math_random : rng -> R * rng.

(** The "Mélanger" button. *)
Definition reshuffle (g : rng) : State -> State :=
  setTrayOrder (λ prev, fst (shuffleInPlace rng Math_random prev g)).

(** The state that [loadPuzzleFromModal] and [restartSamePuzzle]
    install once [generatePieces] has returned [generated]. *)
Definition loaded (g : Grid) (rotationEnabled : bool)
    (generated : list Piece) (gen : rng) : State :=
  let byId := sortById generated in
  let order := fst (shuffleInPlace rng Math_random (map id byId) gen) in
  mkState (Some g) rotationEnabled byId order
          (replicate (Z.to_nat (count g)) None) None None.

(** One event. *)
Inductive Action : Type :=
| Select (pieceId : nat)
| Rotate (pieceId : nat)
| BoardClick (cellIdx : nat)
| AttemptPlace (cellIdx : nat)
| Unplace (pieceId : nat)
| SolveAll
| Reshuffle (g : rng)
| ToggleRotation (b : bool)
| ReleaseSelection
| UprightAll.

Definition step (a : Action) (s : State) : State :=
  match a with
  | Select pieceId => selectPiece pieceId s
  | Rotate pieceId => rotatePiece90 pieceId s
  | BoardClick cellIdx => boardClick cellIdx s
  | AttemptPlace cellIdx => tryPlaceSelectedAtCell cellIdx s
  | Unplace pieceId => unplacePiece pieceId s
  | SolveAll => solvePuzzle s
  | Reshuffle g => reshuffle g s
  | ToggleRotation b => setRotationEnabled b s
  | ReleaseSelection => releaseSelection s
  | UprightAll => uprightAll s
  end.

(** The states of a session: the empty state, the state installed
    by loading a puzzle (the grid chosen by [findBestGrid] for one of
    the offered piece counts, the pieces generated for it), and what
    the events lead to from there. *)
Inductive reachable : State -> Prop :=
| reach_empty : reachable empty
| reach_loaded pieceCount imageAspect image opts rot generated g1 g1' g2 :
    In pieceCount PIECE_COUNTS ->
    generatePieces rng Math_random image
      (GridSolver.findBestGrid pieceCount imageAspect) opts g1
      = (Some generated, g1') ->
    reachable
      (loaded (GridSolver.findBestGrid pieceCount imageAspect) rot
              generated g2)
| reach_step a s : reachable s -> reachable (step a s).

End WithRandom.

Arguments Select {rng} pieceId.
Arguments Rotate {rng} pieceId.
Arguments BoardClick {rng} cellIdx.
Arguments AttemptPlace {rng} cellIdx.
Arguments Unplace {rng} pieceId.
Arguments SolveAll {rng}.
Arguments Reshuffle {rng} g.
Arguments ToggleRotation {rng} b.
Arguments ReleaseSelection {rng}.
Arguments UprightAll {rng}.

(** The number of pieces of the session. *)
Definition pieceCount (s : State) : nat := length (piecesById s).

(** The ids on the board, cell by cell. *)
Definition onBoard (s : State) : list nat := omap (λ x, x) (placements s).

(** How often [i] occurs in [l]. *)
Definition occurrences (i : nat) (l : list nat) : nat :=
  length (filter (λ x, x = i) l).

End Session.

(** ** hints.ts *)

Module Hints.
Local Open Scope Z_scope.

(** [HelpLevel], from types.ts *)
Inductive HelpLevel : Type := simple | medium | advanced.

Definition helpRadius (level : HelpLevel) : Z :=
  match level with
  | simple => 0
  | medium => 1
  | advanced => 2
  end.

Definition clamp (n min max : Z) : Z := Z.max min (Z.min max n).

Record Rect : Type := mkRect { r0 : Z; c0 : Z; r1 : Z; c1 : Z }.

Definition hintRectForPiece (grid : Grid) (pieceRow pieceCol : Z)
    (level : HelpLevel) : Rect :=
  let rad := helpRadius level in
  mkRect (clamp (pieceRow - rad) 0 (rows grid - 1))
         (clamp (pieceCol - rad) 0 (cols grid - 1))
         (clamp (pieceRow + rad) 0 (rows grid - 1))
         (clamp (pieceCol + rad) 0 (cols grid - 1)).

End Hints.

(** ** App.tsx: the tray, the zoomed view, clicks on the board *)

Module Board.
Import Session.

(** [placedCount]: [piecesById.reduce((acc, p) => acc + (p.placed ? 1 : 0), 0)] *)
Definition placedCount (s : State) : nat :=
  fold_left (fun acc p => (acc + (if placed p then 1 else 0))%nat)
            (piecesById s) 0%nat.

(** The zone of the board in focus: [zoomCells]. *)
Definition Zone : Type := Hints.Rect.

(** [p.row >= z.r0 && p.row <= z.r1 && p.col >= z.c0 && p.col <= z.c1] *)
Definition inZone (z : Zone) (p : Piece) : bool :=
  (Hints.r0 z <=? Z.of_nat (row p))%Z && (Z.of_nat (row p) <=? Hints.r1 z)%Z
  && (Hints.c0 z <=? Z.of_nat (col p))%Z && (Z.of_nat (col p) <=? Hints.c1 z)%Z.

(** [p.row === 0 || p.row === grid.rows - 1 || p.col === 0 ||
    p.col === grid.cols - 1] *)
Definition onEdge (g : Grid) (p : Piece) : bool :=
  (Z.of_nat (row p) =? 0)%Z || (Z.of_nat (row p) =? rows g - 1)%Z
  || (Z.of_nat (col p) =? 0)%Z || (Z.of_nat (col p) =? cols g - 1)%Z.

(** A callback of [filter] or [some] on ids that starts with
    [const p = piecesById[id]; if (!p) return false]. *)
Definition onPiece (s : State) (f : Piece -> bool) (i : nat) : bool :=
  match piecesById s !! i with
  | None => false
  | Some p => f p
  end.

Record Candidates : Type := mkCandidates {
  ids : list nat;
  edgesAvailable : bool
}.

(** [trayCandidates], for the filter settings [zoomCells], [filterByZoom]
    and [filterEdgesOnly]. *)
Definition trayCandidates (s : State) (zoomCells : option Zone)
    (filterByZoom filterEdgesOnly : bool) : Candidates :=
  let base :=
    List.filter
      (onPiece s (fun p =>
         negb (isPieceCorrect p (placements s) (rotationEnabled s))))
      (trayOrder s) in
  let baseInZone :=
    match zoomCells, grid s with
    | Some z, Some _ => List.filter (onPiece s (inZone z)) base
    | _, _ => base
    end in
  let zoneFiltered :=
    match zoomCells with
    | Some z =>
        if filterByZoom then
          List.filter
            (onPiece s (fun p =>
               match grid s with None => false | Some _ => inZone z p end))
            base
        else base
    | None => base
    end in
  let edgesAvailable :=
    match grid s with
    | None => false
    | Some g =>
        existsb (onPiece s (onEdge g))
          (match zoomCells with Some _ => baseInZone | None => zoneFiltered end)
    end in
  let edgesFiltered :=
    match grid s with
    | Some g =>
        if filterEdgesOnly && edgesAvailable
        then List.filter (onPiece s (onEdge g)) zoneFiltered
        else zoneFiltered
    | None => zoneFiltered
    end in
  mkCandidates edgesFiltered edgesAvailable.

(** [trayVisibleIds]: [trayCandidates.ids.slice(0, 96)] *)
Definition trayVisibleIds (c : Candidates) : list nat := take 96 (ids c).

(** The effect on [filterEdgesOnly]:
    [if (filterEdgesOnly && !edgePiecesAvailable) setFilterEdgesOnly(false)] *)
Definition edgeFilterAfterEffect (filterEdgesOnly : bool) (c : Candidates)
  : bool :=
  if filterEdgesOnly && negb (edgesAvailable c) then false
  else filterEdgesOnly.

(** [view]: the part of the grid on display. *)
Record View : Type := mkView {
  v_rows : Z; v_cols : Z; rOff : Z; cOff : Z
}.

Definition view (s : State) (zoomCells : option Zone) : option View :=
  match grid s with
  | None => None
  | Some g =>
      match zoomCells with
      | None => Some (mkView (rows g) (cols g) 0 0)
      | Some z =>
          Some (mkView (Hints.r1 z - Hints.r0 z + 1)
                       (Hints.c1 z - Hints.c0 z + 1)
                       (Hints.r0 z) (Hints.c0 z))
      end
  end.




(** [onPointerUp] in zone-selection mode, for the drag
    [{x0, y0, x1, y1}] (fractions of the board, clamped to [0, 1] when
    they were stored): the zone it sets, if any. *)
Definition zoneOfDrag (g : Grid) (dx0 dy0 dx1 dy1 : R) : option Zone :=
  let x0 := Rmin dx0 dx1 in
  let y0 := Rmin dy0 dy1 in
  let x1 := Rmax dx0 dx1 in
  let y1 := Rmax dy0 dy1 in
  let c0 := Z.max 0 (Z.min (cols g - 1) (Zfloor (x0 * IZR (cols g)))) in
  let r0 := Z.max 0 (Z.min (rows g - 1) (Zfloor (y0 * IZR (rows g)))) in
  let c1 := Z.max 0 (Z.min (cols g - 1) (Zfloor (x1 * IZR (cols g)) - 1)) in
  let r1 := Z.max 0 (Z.min (rows g - 1) (Zfloor (y1 * IZR (rows g)) - 1)) in
  if (c1 <? c0)%Z || (r1 <? r0)%Z then None
  else if (c1 - c0 + 1 <? 2)%Z || (r1 - r0 + 1 <? 2)%Z then None
  else Some (Hints.mkRect r0 c0 r1 c1).

(** [hintRectStyle]: the hint rectangle of the selected piece, in
    percent of the board on display; the strings [left], [top],
    [width] and [height] are given by the numbers before the percent
    sign.  [helpEnabled] and [helpLevel] are the two settings of the
    help. *)
Record Style : Type := mkStyle {
  st_left : R; st_top : R; st_width : R; st_height : R
}.

Definition hintRectStyle (s : State) (zoomCells : option Zone)
    (helpEnabled : bool) (helpLevel : Hints.HelpLevel) : option Style :=
  if negb helpEnabled then None else
  match grid s, view s zoomCells with
  | Some g, Some v =>
      match selectedPieceId s with
      | None => None
      | Some sel =>
          match piecesById s !! sel with
          | None => None
          | Some p =>
              let h := Hints.hintRectForPiece g (Z.of_nat (row p))
                         (Z.of_nat (col p)) helpLevel in
              let vr0 := Z.max (Hints.r0 h) (rOff v) in
              let vc0 := Z.max (Hints.c0 h) (cOff v) in
              let vr1 := Z.min (Hints.r1 h) (rOff v + v_rows v - 1) in
              let vc1 := Z.min (Hints.c1 h) (cOff v + v_cols v - 1) in
              if (vr1 <? vr0)%Z || (vc1 <? vc0)%Z then None
              else
                Some (mkStyle
                  (IZR (vc0 - cOff v) / IZR (v_cols v) * 100)%R
                  (IZR (vr0 - rOff v) / IZR (v_rows v) * 100)%R
                  (IZR (vc1 - vc0 + 1) / IZR (v_cols v) * 100)%R
                  (IZR (vr1 - vr0 + 1) / IZR (v_rows v) * 100)%R)
          end
      end
  | _, _ => None
  end.

(** The effect on the selection when the tray is restricted to the
    zone in focus: a selected piece that does not belong to the zone is
    deselected.  (The same effect closes the preview of such a piece;
    the preview is not part of the state modelled here.) *)
Definition zoneFilterEffect (filterByZoom : bool) (zoomCells : option Zone)
    (s : State) : State :=
  if negb filterByZoom then s else
  match zoomCells with
  | None => s
  | Some z =>
      match selectedPieceId s with
      | None => s
      | Some sel =>
          if onPiece s (inZone z) sel then s
          else setSelectedPieceId None s
      end
  end.

End Board.

(** ** wikimedia.ts

    The requests to the Wikimedia API go through [fetch]; what the
    network answers is not the program's.  The network is a state that
    every request reads and advances, and an awaited call either
    resolves to a value or is rejected ([None]). *)

Module Wikimedia.
Local Open Scope Z_scope.

Record WikimediaImage : Type := mkWikimediaImage {
  title : string;
  url : string;
  thumbUrl : string;
  w : R;
  h : R
}.

(** One entry of [json.query.pages], as far as [fetchImageInfos] reads
    it: [p.title], and [url], [thumburl], [width] and [height] of
    [p.imageinfo[0]]; [None] where the property is absent or not of the
    type tested with [typeof]. *)
Record Page : Type := mkPage {
  p_title : option string;
  ii_url : option string;
  ii_thumburl : option string;
  ii_width : option R;
  ii_height : option R
}.

(** The body of [for (const p of pages)]: the image pushed, if any. *)
Definition imageOf (p : Page) : option WikimediaImage :=
  match p_title p, ii_url p, ii_thumburl p, ii_width p, ii_height p with
  | Some title, Some urlFull, Some urlThumb, Some w, Some h =>
      Some (mkWikimediaImage title urlFull urlThumb w h)
  | _, _, _, _, _ => None
  end.

(** [Math.ceil(a / b)] for an integer [a] and an integer [b >= 1] *)
Definition Math_ceil_div (a b : Z) : Z := - ((- a) / b).

(** [titles.slice(i, i + 50)] for [i = 0, 50, 100, ...] while
    [i < titles.length].  The recursion is on a budget of steps;
    [batches] gives it one step per title. *)
Fixpoint batchesFrom (fuel : nat) (i : nat) (titles : list string)
  : list (list string) :=
  match fuel with
  | O => []
  | S fuel' =>
      if (i <? length titles)%nat
      then take 50 (drop i titles) :: batchesFrom fuel' (i + 50) titles
      else []
  end.

Definition batches (titles : list string) : list (list string) :=
  batchesFrom (length titles) 0 titles.

(** The inner loop of [fetchFileTitlesBySearchMulti]:
    [for (const t of titles) { if (seen.has(t)) continue; seen.add(t);
    out.push(t); if (out.length >= limit) break; }] *)
Fixpoint collect (limit : Z) (titles : list string) (out : list string)
    (seen : gset string) : list string * gset string :=
  match titles with
  | [] => (out, seen)
  | t :: titles' =>
      if decide (t ∈ seen) then collect limit titles' out seen
      else
        let seen' := {[ t ]} ∪ seen in
        let out' := out ++ [t] in
        if limit <=? Z.of_nat (length out') then (out', seen')
        else collect limit titles' out' seen'
  end.

Section Network.
Variable net : Type.

(** [await fetchFileTitlesBySearch(searchQuery, limit)] *)
Variable fetchFileTitlesBySearch :
  string -> Z -> net -> option (list string) * net.

(** [for (const q of queries)] of [fetchFileTitlesBySearchMulti] *)
Fixpoint searchEach (limit perQuery : Z) (queries : list string)
    (out : list string) (seen : gset string) (n : net)
  : option (list string) * net :=
  match queries with
  | [] => (Some out, n)
  | q :: queries' =>
      if limit <=? Z.of_nat (length out) then (Some out, n)
      else
        match fetchFileTitlesBySearch q
                (Z.min perQuery (limit - Z.of_nat (length out))) n with
        | (None, n') => (None, n')
        | (Some titles, n') =>
            let '(out', seen') := collect limit titles out seen in
            searchEach limit perQuery queries' out' seen' n'
        end
  end.

Definition fetchFileTitlesBySearchMulti (queries : list string) (limit : Z)
  : net -> option (list string) * net :=
  let perQuery :=
    Z.max 10 (Math_ceil_div limit (Z.max 1 (Z.of_nat (length queries)))) in
  searchEach limit perQuery queries [] ∅.

(** The request of [fetchImageInfos] for one batch, awaited and
    decoded: the entries of [json.query.pages]. *)
Variable queryImageInfo :
  list string -> R -> net -> option (list Page) * net.

Fixpoint infosEach (thumbWidth : R) (bs : list (list string))
    (out : list WikimediaImage) (n : net)
  : option (list WikimediaImage) * net :=
  match bs with
  | [] => (Some out, n)
  | batch :: bs' =>
      match queryImageInfo batch thumbWidth n with
      | (None, n') => (None, n')
      | (Some pages, n') =>
          infosEach thumbWidth bs' (out ++ omap imageOf pages) n'
      end
  end.

Definition fetchImageInfos (titles : list string) (thumbWidth : R)
  : net -> option (list WikimediaImage) * net :=
  infosEach thumbWidth (batches titles) [].

End Network.

End Wikimedia.

(** * Vocabulary of the properties *)

(** A divisor pair as the loop of [findBestGrid] uses it. *)
Definition splits (n d : Z) : Prop := (1 <= d /\ d * (n ÷ d) = n)%Z.

(** What the loop of [findBestGrid] keeps true of [best]. *)
Definition exact (n : Z) (b : GridSolver.Best) : Prop :=
  (GridSolver.b_rows b * GridSolver.b_cols b = n
   /\ (1 <= n -> 1 <= GridSolver.b_rows b /\ 1 <= GridSolver.b_cols b))%Z.


(** The shape of the matrices that [buildEdges] returns for a grid:
    [rows] rows of [cols - 1] vertical boundaries, [rows - 1] rows of
    [cols] horizontal boundaries. *)
Definition edgesFit (grid : Grid) (edges : Geometry.Edges) : Prop :=
  length (Geometry.vEdges edges) = Z.to_nat (rows grid)
  /\ Forall (fun row => length row = Z.to_nat (Z.max 0 (cols grid - 1)))
            (Geometry.vEdges edges)
  /\ length (Geometry.hEdges edges) = Z.to_nat (Z.max 0 (rows grid - 1))
  /\ Forall (fun row => length row = Z.to_nat (cols grid))
            (Geometry.hEdges edges).

(** The curve that a run of path commands draws: straight and cubic
    segments, each from the current point. *)
Inductive Segment : Type :=
| Line (p q : R * R)
| Cubic (p c1 c2 q : R * R).

(** The segments drawn from the current point [p].  The sides of a piece
    hold no [closePath]; tracing stops there. *)
Fixpoint trace (p : R * R) (path : list PathCmd) : list Segment :=
  match path with
  | [] => []
  | MoveTo x y :: path' => trace (x, y) path'
  | LineTo x y :: path' => Line p (x, y) :: trace (x, y) path'
  | BezierCurveTo c1x c1y c2x c2y x y :: path' =>
      Cubic p (c1x, c1y) (c2x, c2y) (x, y) :: trace (x, y) path'
  | ClosePath :: _ => []
  end.

(** A segment and a curve run through from the other end. *)
Definition flip (s : Segment) : Segment :=
  match s with
  | Line p q => Line q p
  | Cubic p c1 c2 q => Cubic q c2 c1 p
  end.

Definition backwards (curve : list Segment) : list Segment :=
  rev (map flip curve).

(** A segment moved by [(dx, dy)]: from the coordinates of one piece to
    those of its neighbour. *)
Definition shift (dx dy : R) (p : R * R) : R * R :=
  (fst p + dx, snd p + dy)%R.

Definition shiftSegment (dx dy : R) (s : Segment) : Segment :=
  match s with
  | Line p q => Line (shift dx dy p) (shift dx dy q)
  | Cubic p c1 c2 q =>
      Cubic (shift dx dy p) (shift dx dy c1) (shift dx dy c2) (shift dx dy q)
  end.

(** The point of a segment at the parameter [t], from 0 to 1. *)
Definition blend (t a b : R) : R := ((1 - t) * a + t * b)%R.

Definition bezier (t a b c d : R) : R :=
  ((1 - t) ^ 3 * a + 3 * (1 - t) ^ 2 * t * b
   + 3 * (1 - t) * t ^ 2 * c + t ^ 3 * d)%R.

Definition pointAt (s : Segment) (t : R) : R * R :=
  match s with
  | Line p q => (blend t (fst p) (fst q), blend t (snd p) (snd q))
  | Cubic p c1 c2 q =>
      (bezier t (fst p) (fst c1) (fst c2) (fst q),
       bezier t (snd p) (snd c1) (snd c2) (snd q))
  end.

(** An interior edge bears a tab on one side: its sign is +1 or -1. *)
Definition tabbed (e : Geometry.EdgeSpec) : Prop :=
  Geometry.sign e = 1%Z \/ Geometry.sign e = (-1)%Z.

(** What [generatePieces] pushes for the tile [(r, c)]. *)
Definition pieceOf (image : Geometry.Image) (grid : Grid)
    (edges : Geometry.Edges) (rc : nat * nat) (p : Piece) : Prop :=
  id p = (fst rc * Z.to_nat (cols grid) + snd rc)%nat
  /\ row p = fst rc
  /\ col p = snd rc
  /\ (exists e,
        Geometry.pieceEdges grid edges (Z.of_nat (fst rc)) (Z.of_nat (snd rc))
          = Some e
        /\ clipPath (imgUrl p)
           = Geometry.buildJigsawPath (Geometry.outTileW image grid)
               (Geometry.outTileH image grid) (Geometry.pad image grid) e)
  /\ drawn (imgUrl p) = Geometry.clipDraw image grid (fst rc) (snd rc)
  /\ rectUrl p = Geometry.rectDraw image grid (fst rc) (snd rc)
  /\ Types.outW p = Geometry.outW image grid
  /\ Types.outH p = Geometry.outH image grid
  /\ Types.tileW p = Geometry.outTileW image grid
  /\ Types.tileH p = Geometry.outTileH image grid
  /\ Types.pad p = Geometry.pad image grid
  /\ placed p = false.

(** Every occupied cell of the board holds its own piece. *)
Definition ownCells (s : Session.State) : Prop :=
  forall i j : nat, Session.placements s !! i = Some (Some j) -> j = i.

(** Every piece id is exactly once in the tray or on the board. *)
Definition partitioned (s : Session.State) : Prop :=
  forall i : nat, (i < Session.pieceCount s)%nat ->
    Session.occurrences i (Session.trayOrder s ++ Session.onBoard s) = 1%nat.

(** The pieces sit in [piecesById] at the index of their id. *)
Definition indexedById (pieces : list Piece) : Prop :=
  forall (i : nat) (p : Piece), pieces !! i = Some p -> id p = i.

(** A tray and a board of [n] cells that share the ids below [n]: a
    cell is empty or holds its own id, and an id is on its cell and not
    in the tray, or off the board and once in the tray. *)
Definition shared (n : nat) (tray : list nat) (cells : list (option nat))
  : Prop :=
  length cells = n
  /\ (forall i j : nat, cells !! i = Some (Some j) -> j = i)
  /\ (forall i : nat, (i < n)%nat ->
        (cells !! i = Some (Some i) /\ Session.occurrences i tray = 0%nat)
        \/ (cells !! i = Some None /\ Session.occurrences i tray = 1%nat)).

(** What every state of a session satisfies. *)
Definition sound (s : Session.State) : Prop :=
  indexedById (Session.piecesById s)
  /\ shared (Session.pieceCount s) (Session.trayOrder s) (Session.placements s)
  /\ (forall g, Session.grid s = Some g ->
        Z.to_nat (count g) = Session.pieceCount s).

(** ** Classes of JavaScript numbers *)

(** Not NaN and not below zero: what [Math.abs] returns on a number. *)
Definition nonNegative (x : Js.num) : Prop :=
  x = Js.PInf \/ exists r, x = Js.Fin r /\ (0 <= r)%R.

(** NaN, or at most zero. *)
Definition notPositive (x : Js.num) : Prop :=
  x = Js.NaN \/ x = Js.NInf \/ exists r, x = Js.Fin r /\ (r <= 0)%R.


(** ** The draws of [Math.random] *)

(** The first [n] values that [Math.random] returns from the state
    [g]. *)
Fixpoint draws {rng : Type} (Math_random : rng -> R * rng) (n : nat)
    (g : rng) : list R :=
  match n with
  | O => []
  | S k => let (u, g') := Math_random g in u :: draws Math_random k g'
  end.

(** The interior edges of a grid: [cols - 1] vertical boundaries in
    each row, [cols] horizontal ones between two rows. *)
Definition interiorEdges (grid : Grid) : nat :=
  Z.to_nat (rows grid) * Z.to_nat (Z.max 0 (cols grid - 1))
  + Z.to_nat (Z.max 0 (rows grid - 1)) * Z.to_nat (cols grid).

(** The computation [m], run on [Math.random], makes [k] draws: run
    on the replay of the draws to come, [m'] returns the same value
    and leaves the draws after the first [k]. *)
Definition replays {rng A : Type} (Math_random : rng -> R * rng) (k : nat)
    (m : Geometry.Rand rng A) (m' : Geometry.Rand Geometry.tape A) : Prop :=
  forall g n,
    fst (m g) = fst (m' (draws Math_random (k + n) g))
    /\ draws Math_random n (snd (m g))
       = snd (m' (draws Math_random (k + n) g)).

(** ** Pieces put down *)

(** [q'] is the piece [q] with the [placed] flag [b]: every other
    field is as it was. *)
Definition putDown (q q' : Piece) (b : bool) : Prop :=
  placed q' = b
  /\ id q' = id q /\ row q' = row q /\ col q' = col q
  /\ imgUrl q' = imgUrl q /\ rectUrl q' = rectUrl q
  /\ Types.outW q' = Types.outW q /\ Types.outH q' = Types.outH q
  /\ Types.tileW q' = Types.tileW q /\ Types.tileH q' = Types.tileH q
  /\ Types.pad q' = Types.pad q /\ rotation q' = rotation q.

(** ** Sample inputs *)

(** A panorama of 3000 by 300 pixels, and the grid of 10 rows of 100
    that [findBestGrid] picks for it when 1000 pieces are asked for. *)
Definition panorama : Geometry.Image := Geometry.mkImage 3000 3000 300 300.
Definition strips : Grid := mkGrid 10 100 1000.

(** A photo of 1200 by 800 pixels. *)
Definition photo : Geometry.Image := Geometry.mkImage 1200 1200 800 800.

(** A poster of 1800 by 900 pixels. *)
Definition poster : Geometry.Image := Geometry.mkImage 1800 1800 900 900.

(** A screen capture of 1366 by 768 pixels. *)
Definition capture : Geometry.Image := Geometry.mkImage 1366 1366 768 768.

(** A piece with no picture, for sessions written out by hand. *)
Definition blank : DrawImage := mkDrawImage 0 0 0 0 0 0 0 0.

Definition plainPiece (cols : nat) (rot : PieceRotation) (i : nat) : Piece :=
  mkPiece i (i / cols) (i mod cols) (mkOutlined [] blank) blank
          0 0 0 0 0 rot false.

(** A session on a 2 by 3 grid, all six pieces in the tray, piece 4
    selected; upright, and with piece 4 turned by 90 degrees. *)
Definition sixPieces (rot4 : PieceRotation) : Session.State :=
  Session.mkState (Some (mkGrid 2 3 6)) true
    [plainPiece 3 R0 0; plainPiece 3 R0 1; plainPiece 3 R0 2;
     plainPiece 3 R0 3; plainPiece 3 rot4 4; plainPiece 3 R0 5]
    [3; 1; 4; 0; 5; 2]%nat
    [None; None; None; None; None; None]
    (Some 4%nat) None.

(** The pieces generated for the photo cut in 50, the draws replayed
    from an empty record, and the session loaded with them. *)
Definition fifty : Grid := GridSolver.findBestGrid 50 (Js.Fin 2).

Definition fiftyPieces : list Piece :=
  match fst (Geometry.generatePieces Geometry.tape Geometry.replay photo fifty
               (Geometry.mkOptions true) []) with
  | Some pieces => pieces
  | None => []
  end.

Definition fiftyLoaded : Session.State :=
  Session.loaded Geometry.tape Geometry.replay fifty true fiftyPieces [].

Definition fiftyPlayed : Session.State :=
  Session.step Geometry.tape Geometry.replay (Session.AttemptPlace 12)
    (Session.step Geometry.tape Geometry.replay (Session.Select 12)
       fiftyLoaded).



(** ** Vocabulary of the further properties *)

(** Strictly ascending. *)
Fixpoint ascending (l : list Z) : Prop :=
  match l with
  | [] => True
  | x :: l' => Forall (fun y => (x < y)%Z) l' /\ ascending l'
  end.

(** What the loop of [divisors] has collected when it reaches [i]: the
    divisors below [i] whose square is at most [n], and the cofactors of
    those. *)
Definition collected (n i x : Z) : Prop :=
  splits n x
  /\ ((x * x <= n /\ x < i) \/ (n < x * x /\ n ÷ x < i))%Z.

(** The score that the loop of [findBestGrid] computes for the divisor
    [d] of [n]: the double
    [Math.abs(Math.log((n / d) / d / imageAspect))]. *)
Definition scoreOf (n : Z) (a : Js.num) (d : Z) : Js.num :=
  GridSolver.score d (n ÷ d) a.

(** What the loop of [findBestGrid] knows of [best] once it has gone
    through the divisors [seen]: no score seen is below the score of
    [best]; and [best] is still the initial candidate, or it is the
    first among the divisors seen to have the least score. *)
Definition closest (n : Z) (a : Js.num) (seen : list Z)
    (b : GridSolver.Best) : Prop :=
  nonNegative (GridSolver.b_score b)
  /\ (forall d, In d seen ->
        Js.lt (scoreOf n a d) (GridSolver.b_score b) = false)
  /\ (b = GridSolver.mkBest 1 n Js.PInf
      \/ (In (GridSolver.b_rows b) seen
          /\ GridSolver.b_cols b = (n ÷ GridSolver.b_rows b)%Z
          /\ GridSolver.b_score b = scoreOf n a (GridSolver.b_rows b)
          /\ forall d, In d seen -> (d < GridSolver.b_rows b)%Z ->
               Js.lt (GridSolver.b_score b) (scoreOf n a d) = true)).


(** A zone of the grid [g]: cells [r0..r1] by [c0..c1], not empty. *)
Definition zoneOf (g : Grid) (z : Hints.Rect) : Prop :=
  (0 <= Hints.r0 z <= Hints.r1 z /\ Hints.r1 z < rows g
   /\ 0 <= Hints.c0 z <= Hints.c1 z /\ Hints.c1 z < cols g)%Z.

(** The cell [(r, c)] lies in the rectangle. *)
Definition covers (z : Hints.Rect) (r c : Z) : Prop :=
  (Hints.r0 z <= r <= Hints.r1 z /\ Hints.c0 z <= c <= Hints.c1 z)%Z.



(** The piece [i] exists and is not locked on its cell. *)
Definition movable (s : Session.State) (i : nat) : Prop :=
  exists p, Session.piecesById s !! i = Some p
    /\ Session.isPieceCorrect p (Session.placements s)
         (Session.rotationEnabled s) = false.


(** The [placed] flag of a piece tells whether the piece is on its
    cell. *)
Definition flagged (s : Session.State) : Prop :=
  forall (i : nat) (p : Piece), Session.piecesById s !! i = Some p ->
    (placed p = true <-> Session.placements s !! i = Some (Some i)).

(** [sound], and the flags agree with the board. *)
Definition tidy (s : Session.State) : Prop := sound s /\ flagged s.


(** [Math.random] returns a number in [0, 1). *)
Definition drawsInUnit {rng : Type} (Math_random : rng -> R * rng) : Prop :=
  forall g, (0 <= fst (Math_random g) < 1)%R.

(** A generator for running examples: its draws are 1/2, 1/3, 1/4,
    ... *)
Definition harmonic (n : nat) : R * nat := ((/ INR (n + 2))%R, S n).


(** An edge spec as [buildEdges] draws it: a tab on one side, and the
    three factors in the ranges of their draws. *)
Definition regular (e : Geometry.EdgeSpec) : Prop :=
  tabbed e
  /\ (0.92 <= Geometry.widthF e < 1.06)%R
  /\ (0.90 <= Geometry.neckF e < 1.12)%R
  /\ (-1 <= Geometry.skewF e < 1)%R.

(** The sign of an edge is one of -1, 0 and 1. *)
Definition signed (e : Geometry.EdgeSpec) : Prop :=
  (-1 <= Geometry.sign e <= 1)%Z.

(** The points a path command names: its end point and, for a curve,
    its two control points. *)
Definition targets (c : PathCmd) : list (R * R) :=
  match c with
  | MoveTo x y | LineTo x y => [(x, y)]
  | BezierCurveTo c1x c1y c2x c2y x y => [(c1x, c1y); (c2x, c2y); (x, y)]
  | ClosePath => []
  end.

(** The points that span a segment. *)
Definition hull (s : Segment) : list (R * R) :=
  match s with
  | Line p q => [p; q]
  | Cubic p c1 c2 q => [p; c1; c2; q]
  end.

Definition inBox (x0 x1 y0 y1 : R) (pt : R * R) : Prop :=
  (x0 <= fst pt <= x1 /\ y0 <= snd pt <= y1)%R.


(** The point [pt] of the outline of the piece [p], drawn after
    [ctx.translate(pad, pad)], falls on the canvas of [outW] by
    [outH]. *)
Definition onCanvas (p : Piece) (pt : R * R) : Prop :=
  (0 <= fst pt + Types.pad p <= Types.outW p
   /\ 0 <= snd pt + Types.pad p <= Types.outH p)%R.

(** What [generatePieces] pushes for a tile, with the rotation. *)
Definition pieceAt (image : Geometry.Image) (grid : Grid)
    (opts : Geometry.Options) (edges : Geometry.Edges)
    (rc : nat * nat) (p : Piece) : Prop :=
  pieceOf image grid edges rc p
  /\ (Geometry.randomRotation opts = false -> rotation p = R0).


(** The title [t] was among the answers to a search for one of the
    [queries], asked for between 1 and [limit] titles. *)
Definition answered {net : Type}
    (search : string -> Z -> net -> option (list string) * net)
    (queries : list string) (limit : Z) (t : string) : Prop :=
  exists q lim n titles,
    q ∈ queries /\ (1 <= lim <= limit)%Z
    /\ fst (search q lim n) = Some titles /\ t ∈ titles.

(** * Properties *)

(** ** Doubles: rounding to nearest *)

Section DoubleFacts.
Import Double.
Local Open Scope R_scope.

Lemma Rabs_le_bounds a b : Rabs a <= b -> - b <= a <= b.
Proof. unfold Rabs. destruct (Rcase_abs a); lra. Qed.

Lemma Rabs_lt_bounds a b : Rabs a < b -> - b < a < b.
Proof. unfold Rabs. destruct (Rcase_abs a); lra. Qed.

Lemma nearestEven_near y : Rabs (IZR (nearestEven y) - y) <= / 2.
Proof.
  unfold nearestEven. pose proof (Zfloor_bound y) as [Hlo Hhi].
  destruct (Rlt_dec (y - IZR (Zfloor y)) (/ 2)) as [H1|H1].
  - rewrite Rabs_left1 by lra. lra.
  - destruct (Rlt_dec (/ 2) (y - IZR (Zfloor y))) as [H2|H2].
    + rewrite plus_IZR. rewrite Rabs_right by lra. lra.
    + destruct (Z.even (Zfloor y)).
      * rewrite Rabs_left1 by lra. lra.
      * rewrite plus_IZR. rewrite Rabs_right by lra. lra.
Qed.

Lemma nearestEven_cert y n : Rabs (IZR n - y) < / 2 -> nearestEven y = n.
Proof.
  intros H. apply Rabs_lt_bounds in H as [Hlo Hhi].
  pose proof (nearestEven_near y) as Hn. apply Rabs_le_bounds in Hn as [Hn1 Hn2].
  assert (Hlt : (nearestEven y - n < 1)%Z).
  { apply lt_IZR. rewrite minus_IZR. lra. }
  assert (Hgt : (-1 < nearestEven y - n)%Z).
  { apply lt_IZR. rewrite minus_IZR. lra. }
  lia.
Qed.

Lemma nearestEven_int z : nearestEven (IZR z) = z.
Proof. apply nearestEven_cert. rewrite Rminus_diag, Rabs_R0. lra. Qed.

Lemma nearestEven_sign y :
  (0 <= y -> (0 <= nearestEven y)%Z) /\ (y <= 0 -> (nearestEven y <= 0)%Z).
Proof.
  pose proof (nearestEven_near y) as Hn. apply Rabs_le_bounds in Hn as [Hn1 Hn2].
  split; intros Hy.
  - assert (-1 < nearestEven y)%Z; [|lia]. apply lt_IZR. lra.
  - assert (nearestEven y < 1)%Z; [|lia]. apply lt_IZR. lra.
Qed.

Lemma ln_2_pos : 0 < ln 2.
Proof. pose proof ln_lt_2. lra. Qed.

Lemma powerRZ_2_exp k : powerRZ 2 k = exp (IZR k * ln 2).
Proof. rewrite powerRZ_Rpower by lra. reflexivity. Qed.

Lemma powerRZ_2_pos k : 0 < powerRZ 2 k.
Proof. apply powerRZ_lt. lra. Qed.

Lemma powerRZ_2_le a b : (a <= b)%Z -> powerRZ 2 a <= powerRZ 2 b.
Proof.
  intros H. rewrite !powerRZ_2_exp.
  destruct (Z.eq_dec a b) as [->|Hne]; [lra|].
  apply Rlt_le, exp_increasing. pose proof ln_2_pos.
  assert (IZR a < IZR b) by (apply IZR_lt; lia). nra.
Qed.

Lemma powerRZ_2_lt a b : (a < b)%Z -> powerRZ 2 a < powerRZ 2 b.
Proof.
  intros H. rewrite !powerRZ_2_exp.
  apply exp_increasing. pose proof ln_2_pos.
  assert (IZR a < IZR b) by (apply IZR_lt; lia). nra.
Qed.

Lemma powerRZ_2_IZR n : (0 <= n)%Z -> powerRZ 2 n = IZR (2 ^ n).
Proof.
  intros Hn. destruct n as [|p|p]; [reflexivity| |lia].
  change (2 ^ Z.pos p)%Z with (Z.pow_pos 2 p).
  now rewrite Zpower_pos_powerRZ.
Qed.

Lemma powerRZ_2_split a b : powerRZ 2 (a + b) = powerRZ 2 a * powerRZ 2 b.
Proof. apply powerRZ_add. lra. Qed.

Lemma powerRZ_2_cancel a : powerRZ 2 (- a) * powerRZ 2 a = 1.
Proof. rewrite <- powerRZ_2_split. replace (- a + a)%Z with 0%Z by lia. reflexivity. Qed.

Lemma binade_spec x :
  x <> 0 -> powerRZ 2 (binade x) <= Rabs x < powerRZ 2 (binade x + 1).
Proof.
  intros Hx. assert (Hpos : 0 < Rabs x) by now apply Rabs_pos_lt.
  unfold binade. pose proof (Zfloor_bound (ln (Rabs x) / ln 2)) as [Hlo Hhi].
  set (k := Zfloor _) in *. pose proof ln_2_pos as H2.
  assert (Hq : ln (Rabs x) / ln 2 * ln 2 = ln (Rabs x)) by (field; lra).
  rewrite !powerRZ_2_exp, plus_IZR. pose proof (exp_ln (Rabs x) Hpos) as He.
  split.
  - destruct (Req_dec (IZR k * ln 2) (ln (Rabs x))) as [->|Hne]; [lra|].
    rewrite <- He. apply Rlt_le, exp_increasing. nra.
  - rewrite <- He at 1. apply exp_increasing. nra.
Qed.

Lemma binade_unique x k :
  powerRZ 2 k <= Rabs x < powerRZ 2 (k + 1) -> binade x = k.
Proof.
  intros [Hlo Hhi]. pose proof (powerRZ_2_pos k) as Hk.
  assert (Hpos : 0 < Rabs x) by lra.
  unfold binade. apply Zfloor_eq. pose proof ln_2_pos as H2.
  rewrite !powerRZ_2_exp, plus_IZR in *.
  assert (H1 : IZR k * ln 2 <= ln (Rabs x)).
  { destruct (Rle_lt_dec (IZR k * ln 2) (ln (Rabs x))) as [|Hc]; [assumption|].
    apply exp_increasing in Hc. rewrite exp_ln in Hc by assumption. lra. }
  assert (H3 : ln (Rabs x) < (IZR k + 1) * ln 2).
  { destruct (Rle_lt_dec ((IZR k + 1) * ln 2) (ln (Rabs x))) as [Hc|]; [|assumption].
    destruct (Req_dec ((IZR k + 1) * ln 2) (ln (Rabs x))) as [E|Hne].
    - rewrite E, exp_ln in Hhi by assumption. lra.
    - assert (Hc' : (IZR k + 1) * ln 2 < ln (Rabs x)) by lra.
      apply exp_increasing in Hc'. rewrite exp_ln in Hc' by assumption. lra. }
  assert (Hq : ln (Rabs x) / ln 2 * ln 2 = ln (Rabs x)) by (field; lra).
  split.
  - apply (Rmult_le_reg_r (ln 2)); [assumption|]. lra.
  - apply (Rmult_lt_reg_r (ln 2)); [assumption|]. lra.
Qed.

Lemma round_0 : round 0 = 0.
Proof. unfold round. destruct (Req_dec_T 0 0); [reflexivity|lra]. Qed.

Lemma round_cert x k n :
  powerRZ 2 k <= Rabs x < powerRZ 2 (k + 1) ->
  Rabs (IZR n - x * powerRZ 2 (- Z.max (k - 52) (-1074))) < / 2 ->
  round x = IZR n * powerRZ 2 (Z.max (k - 52) (-1074)).
Proof.
  intros Hk Hn. pose proof (powerRZ_2_pos k).
  assert (Hx : x <> 0) by (intros ->; rewrite Rabs_R0 in Hk; lra).
  unfold round. destruct (Req_dec_T x 0); [contradiction|].
  unfold lastPlace. rewrite (binade_unique x k Hk).
  now rewrite (nearestEven_cert _ n Hn).
Qed.

Lemma round_exact m e :
  (Z.abs m < 2 ^ 53)%Z -> (-1074 <= e)%Z ->
  round (IZR m * powerRZ 2 e) = IZR m * powerRZ 2 e.
Proof.
  intros Hm He. destruct (Z.eq_dec m 0%Z) as [->|Hm0].
  - rewrite Rmult_0_l. apply round_0.
  - set (l := Z.log2 (Z.abs m)).
    assert (Hl : (2 ^ l <= Z.abs m < 2 ^ (l + 1))%Z)
      by (apply Z.log2_spec; lia).
    assert (Hl0 : (0 <= l)%Z) by apply Z.log2_nonneg.
    assert (Hl52 : (l < 53)%Z) by (apply Z.log2_lt_pow2; lia).
    assert (Habs : Rabs (IZR m * powerRZ 2 e) = IZR (Z.abs m) * powerRZ 2 e).
    { rewrite Rabs_mult, <- abs_IZR.
      rewrite (Rabs_right (powerRZ 2 e)); [reflexivity|].
      apply Rle_ge, Rlt_le, powerRZ_2_pos. }
    pose proof (powerRZ_2_pos e) as Hpe.
    assert (Hk : powerRZ 2 (l + e) <= Rabs (IZR m * powerRZ 2 e)
                 < powerRZ 2 (l + e + 1)).
    { rewrite Habs. replace (l + e + 1)%Z with ((l + 1) + e)%Z by lia.
      rewrite (powerRZ_2_split l e), (powerRZ_2_split (l + 1) e).
      rewrite (powerRZ_2_IZR l), (powerRZ_2_IZR (l + 1)) by lia.
      destruct Hl as [H1 H2]. apply IZR_le in H1. apply IZR_lt in H2.
      split.
      - apply Rmult_le_compat_r; lra.
      - apply Rmult_lt_compat_r; lra. }
    set (q := Z.max (l + e - 52) (-1074)).
    assert (Hq : (q <= e)%Z) by (unfold q; lia).
    assert (Hint : IZR m * powerRZ 2 e * powerRZ 2 (- q)
                   = IZR (m * 2 ^ (e - q))).
    { rewrite mult_IZR, <- powerRZ_2_IZR by lia.
      replace (e - q)%Z with (e + - q)%Z by lia.
      rewrite powerRZ_2_split. ring. }
    rewrite (round_cert _ (l + e) (m * 2 ^ (e - q))); fold q.
    + rewrite <- Hint. rewrite Rmult_assoc, powerRZ_2_cancel. ring.
    + exact Hk.
    + rewrite Hint, Rminus_diag, Rabs_R0. lra.
Qed.

Lemma round_int z : (Z.abs z < 2 ^ 53)%Z -> round (IZR z) = IZR z.
Proof.
  intros Hz. pose proof (round_exact z 0 Hz ltac:(lia)) as H.
  now rewrite powerRZ_O, Rmult_1_r in H.
Qed.

Lemma round_sign x : (0 <= x -> 0 <= round x) /\ (x <= 0 -> round x <= 0).
Proof.
  unfold round. destruct (Req_dec_T x 0) as [->|Hx]; [lra|].
  pose proof (powerRZ_2_pos (lastPlace x)) as Hp.
  pose proof (powerRZ_2_pos (- lastPlace x)) as Hp'.
  destruct (nearestEven_sign (x * powerRZ 2 (- lastPlace x))) as [H1 H2].
  split; intros Hs.
  - apply Rmult_le_pos; [|lra]. apply IZR_le, H1. nra.
  - assert (IZR (nearestEven (x * powerRZ 2 (- lastPlace x))) <= 0)
      by (apply IZR_le, H2; nra). nra.
Qed.

(** The distance to the double: half a unit in the last place. *)
Lemma round_near x :
  Rabs (round x - x) <= / 2 * powerRZ 2 (lastPlace x).
Proof.
  pose proof (powerRZ_2_pos (lastPlace x)) as Hp.
  unfold round. destruct (Req_dec_T x 0) as [->|Hx].
  - rewrite Rminus_diag, Rabs_R0. lra.
  - pose proof (nearestEven_near (x * powerRZ 2 (- lastPlace x))) as Hn.
    set (n := nearestEven _) in *.
    replace (IZR n * powerRZ 2 (lastPlace x) - x)
      with ((IZR n - x * powerRZ 2 (- lastPlace x)) * powerRZ 2 (lastPlace x)).
    + rewrite Rabs_mult, (Rabs_right (powerRZ 2 (lastPlace x))) by lra.
      apply Rmult_le_compat_r; lra.
    + rewrite Rmult_minus_distr_r, Rmult_assoc, powerRZ_2_cancel. ring.
Qed.

Lemma round_error x : Rabs (round x - x) <= eps * Rabs x + tiny.
Proof.
  destruct (Req_dec_T x 0) as [->|Hx].
  - rewrite round_0, Rminus_diag, Rabs_R0, Rmult_0_r.
    pose proof (powerRZ_2_pos (-1075)). unfold tiny. lra.
  - pose proof (round_near x) as Hn. pose proof (binade_spec x Hx) as [Hb _].
    pose proof (Rabs_pos x). pose proof (powerRZ_2_pos (-53)).
    pose proof (powerRZ_2_pos (-1075)). pose proof (powerRZ_2_pos (binade x)).
    unfold lastPlace in Hn. unfold eps, tiny.
    destruct (Z.max_spec (binade x - 52) (-1074)) as [[_ E]|[_ E]];
      rewrite E in Hn.
    + replace (/ 2 * powerRZ 2 (-1074)) with (powerRZ 2 (-1075)) in Hn.
      * nra.
      * replace (-1074)%Z with (1 + -1075)%Z by lia.
        rewrite powerRZ_2_split. change (powerRZ 2 1) with (2 * 1). lra.
    + replace (/ 2 * powerRZ 2 (binade x - 52))
        with (powerRZ 2 (-53) * powerRZ 2 (binade x)) in Hn.
      * nra.
      * replace (binade x - 52)%Z with (1 + (-53 + binade x))%Z by lia.
        rewrite !powerRZ_2_split. change (powerRZ 2 1) with (2 * 1). lra.
Qed.

(** In the normal range the error is relative. *)
Lemma round_relative x :
  powerRZ 2 (-1022) <= Rabs x -> Rabs (round x - x) <= eps * Rabs x.
Proof.
  intros Hnormal. pose proof (powerRZ_2_pos (-1022)).
  assert (Hx : x <> 0) by (intros ->; rewrite Rabs_R0 in Hnormal; lra).
  pose proof (round_near x) as Hn. pose proof (binade_spec x Hx) as [Hb Hb'].
  assert (Hbin : (-1022 <= binade x)%Z).
  { destruct (Z.le_gt_cases (-1022) (binade x)) as [|Hc]; [assumption|].
    assert (powerRZ 2 (binade x + 1) <= powerRZ 2 (-1022))
      by (apply powerRZ_2_le; lia). lra. }
  unfold lastPlace in Hn. rewrite Z.max_l in Hn by lia.
  replace (/ 2 * powerRZ 2 (binade x - 52))
    with (powerRZ 2 (-53) * powerRZ 2 (binade x)) in Hn.
  - pose proof (powerRZ_2_pos (-53)). unfold eps. nra.
  - replace (binade x - 52)%Z with (1 + (-53 + binade x))%Z by lia.
    rewrite !powerRZ_2_split. change (powerRZ 2 1) with (2 * 1). lra.
Qed.

Lemma eps_value : eps = / 9007199254740992.
Proof.
  unfold eps. change (-53)%Z with (- (53))%Z.
  rewrite powerRZ_neg', powerRZ_2_IZR by lia. reflexivity.
Qed.

Lemma tiny_small : 0 < tiny <= / 18446744073709551616.
Proof.
  unfold tiny. split; [apply powerRZ_2_pos|].
  replace (/ 18446744073709551616) with (powerRZ 2 (-64)).
  - apply powerRZ_2_le. lia.
  - change (-64)%Z with (- (64))%Z.
    rewrite powerRZ_neg', powerRZ_2_IZR by lia. reflexivity.
Qed.

End DoubleFacts.


(** ** The grid solver *)

Section GridSolverFacts.
Import Js GridSolver.
Local Open Scope Z_scope.

Lemma insert_asc_In x y l : In y (insert_asc x l) <-> y = x \/ In y l.
Proof.
  induction l as [|z l IH]; simpl.
  - intuition.
  - destruct (x <=? z); simpl; rewrite ?IH; intuition.
Qed.

Lemma sort_asc_In y l : In y (sort_asc l) <-> In y l.
Proof.
  induction l as [|z l IH]; simpl; [tauto|].
  rewrite insert_asc_In, IH. intuition.
Qed.

Lemma rem_zero_splits n i :
  1 <= i -> i * i <= n -> Z.rem n i = 0 ->
  splits n i /\ splits n (n ÷ i).
Proof.
  intros Hi Hsq Hrem.
  pose proof (Z.quot_rem' n i) as Hq. rewrite Hrem, Z.add_0_r in Hq.
  assert (Hle : i <= n ÷ i) by nia.
  repeat split; try lia.
  assert (Hback : n ÷ (n ÷ i) = i).
  { remember (n ÷ i) as q eqn:Eq. rewrite Hq. apply Z.quot_mul. lia. }
  rewrite Hback. lia.
Qed.

Lemma divisors_loop_splits fuel : forall n i out,
  1 <= i ->
  Forall (splits n) out ->
  Forall (splits n) (divisors_loop fuel n i out).
Proof.
  induction fuel as [|fuel IH]; intros n i out Hi Hout; simpl; [assumption|].
  destruct (Z.leb_spec (i * i) n) as [Hsq|]; [|assumption].
  apply IH; [lia|].
  destruct (Z.eqb_spec (Z.rem n i) 0) as [Hrem|]; [|assumption].
  destruct (rem_zero_splits n i Hi Hsq Hrem) as [H1 H2].
  destruct (negb (i =? n ÷ i)); rewrite ?Forall_app; repeat split;
    try assumption; repeat (constructor; try assumption).
Qed.

Lemma divisors_splits n d : In d (divisors n) -> splits n d.
Proof.
  unfold divisors. rewrite sort_asc_In. intros Hin.
  pose proof (divisors_loop_splits (Z.to_nat n) n 1 [] ltac:(lia)
                (List.Forall_nil _)) as HF.
  rewrite Forall_forall in HF. apply HF.
  apply list_elem_of_In. exact Hin.
Qed.

(** The step budget of [divisors] is never used up: the loop stops on
    its own test [i * i <= n], and a larger budget changes nothing. *)
Lemma divisors_loop_budget fuel : forall n i out extra,
  1 <= i ->
  (Z.to_nat (n + 1 - i) <= fuel)%nat ->
  divisors_loop (fuel + extra) n i out = divisors_loop fuel n i out.
Proof.
  induction fuel as [|fuel IH]; intros n i out extra Hi Hfuel.
  - destruct extra as [|extra]; [reflexivity|]. simpl.
    destruct (Z.leb_spec (i * i) n); [nia|reflexivity].
  - simpl. destruct (Z.leb_spec (i * i) n); [|reflexivity].
    apply IH; lia.
Qed.

Lemma divisors_budget n extra :
  sort_asc (divisors_loop (Z.to_nat n + extra) n 1 []) = divisors n.
Proof.
  unfold divisors. rewrite divisors_loop_budget; [reflexivity|lia|lia].
Qed.

Lemma consider_exact n a b d :
  splits n d -> exact n b -> exact n (consider n a b d).
Proof.
  intros [Hd Hmul] Hb. unfold consider.
  destruct (lt _ _); [|assumption].
  split; simpl; [assumption|]. intros Hn. split; [assumption|nia].
Qed.

Lemma fold_consider_exact n a ds : forall b,
  Forall (splits n) ds -> exact n b ->
  exact n (fold_left (consider n a) ds b).
Proof.
  induction ds as [|d ds IH]; intros b Hds Hb; simpl; [assumption|].
  inversion Hds; subst. apply IH; [assumption|].
  now apply consider_exact.
Qed.

Lemma best_exact n a :
  exact n (fold_left (consider n a) (divisors n) (mkBest 1 n PInf)).
Proof.
  apply fold_consider_exact.
  - rewrite Forall_forall. intros d Hd. apply divisors_splits.
    apply list_elem_of_In. exact Hd.
  - split; simpl; lia.
Qed.

Lemma findBestGrid_exact n a :
  rows (findBestGrid n a) * cols (findBestGrid n a) = n
  /\ count (findBestGrid n a) = n
  /\ (1 <= n -> 1 <= rows (findBestGrid n a) /\ 1 <= cols (findBestGrid n a)).
Proof.
  unfold findBestGrid.
  destruct (best_exact n a) as [Hmul Hpos].
  destruct (gt _ _); simpl; repeat split; try lia;
    intros Hn; destruct (Hpos Hn); lia.
Qed.

End GridSolverFacts.

(** ** JavaScript numbers: evaluation on finite values *)

Section JsFacts.
Import Js.
Local Open Scope R_scope.

Lemma div_Fin x y : y <> 0 -> div (Fin x) (Fin y) = double (x / y).
Proof. intros Hy. unfold div. destruct (Req_dec_T y 0); [contradiction|reflexivity]. Qed.

Lemma Math_log_pos x : 0 < x -> Math_log (Fin x) = double (ln x).
Proof.
  intros Hx. unfold Math_log.
  destruct (Rlt_dec x 0); [lra|]. destruct (Req_dec_T x 0); [lra|reflexivity].
Qed.

Lemma lt_Fin_true x y : x < y -> lt (Fin x) (Fin y) = true.
Proof. intros H. unfold lt. destruct (Rlt_dec x y); [reflexivity|contradiction]. Qed.

Lemma lt_Fin_false x y : y <= x -> lt (Fin x) (Fin y) = false.
Proof. intros H. unfold lt. destruct (Rlt_dec x y); [lra|reflexivity]. Qed.

(** *** Rounding without overflow *)

Lemma ordinary_below_overflow : 18446744073709551616 <= powerRZ 2 1024.
Proof.
  replace 18446744073709551616 with (powerRZ 2 64).
  - apply powerRZ_2_le. lia.
  - rewrite powerRZ_2_IZR by lia. reflexivity.
Qed.

Lemma double_finite x :
  Rabs (Double.round x) < powerRZ 2 1024 -> double x = Fin (Double.round x).
Proof.
  intros H. unfold double. cbv zeta.
  destruct (Rle_dec (powerRZ 2 1024) (Rabs (Double.round x))); [lra|reflexivity].
Qed.

Lemma double_exact x :
  Double.round x = x -> Rabs x < 18446744073709551616 -> double x = Fin x.
Proof.
  intros E H. pose proof ordinary_below_overflow.
  rewrite double_finite; rewrite E; [reflexivity|lra].
Qed.

Lemma double_int z : (Z.abs z < 2 ^ 53)%Z -> double (IZR z) = Fin (IZR z).
Proof.
  intros Hz. apply double_exact; [now apply round_int|].
  rewrite <- abs_IZR. apply IZR_lt. lia.
Qed.

(** A fraction with a power of two below: [m / 2^k]. *)
Lemma double_dyadic m k :
  (Z.abs m < 2 ^ 53)%Z -> (0 <= k <= 1074)%Z ->
  double (IZR m / IZR (2 ^ k)) = Fin (IZR m / IZR (2 ^ k)).
Proof.
  intros Hm Hk.
  assert (E : IZR m / IZR (2 ^ k) = IZR m * powerRZ 2 (- k)).
  { rewrite powerRZ_neg', powerRZ_2_IZR by lia. reflexivity. }
  rewrite E. apply double_exact; [apply round_exact; lia|].
  rewrite Rabs_mult, <- abs_IZR.
  pose proof (powerRZ_2_pos (- k)) as Hp.
  assert (Hle : powerRZ 2 (- k) <= 1).
  { change 1 with (powerRZ 2 0). apply powerRZ_2_le. lia. }
  rewrite (Rabs_right (powerRZ 2 (- k))) by lra.
  assert (Hm' : IZR (Z.abs m) < 9007199254740992) by (apply IZR_lt; lia).
  assert (0 <= IZR (Z.abs m)) by (apply IZR_le; lia).
  nra.
Qed.

(** In the normal range, rounding moves a positive number by at most
    [eps] of it. *)
Lemma round_bounds x :
  powerRZ 2 (-1022) <= x ->
  x * (1 - Double.eps) <= Double.round x <= x * (1 + Double.eps).
Proof.
  intros Hx. pose proof (powerRZ_2_pos (-1022)) as Hp.
  pose proof (round_relative x) as H. rewrite (Rabs_right x) in H by lra.
  specialize (H Hx). apply Rabs_le_bounds in H. lra.
Qed.

Lemma one_normal : powerRZ 2 (-1022) <= 1.
Proof. change 1 with (powerRZ 2 0). apply powerRZ_2_le. lia. Qed.

Lemma eps_small : 0 < Double.eps < / 1000000.
Proof.
  rewrite eps_value. split; [apply Rinv_0_lt_compat; lra|].
  apply Rinv_lt_contravar; lra.
Qed.

(** A quotient or product of ordinary size does not overflow. *)
Lemma double_moderate x :
  0 <= x <= 8589934592 -> double x = Fin (Double.round x).
Proof.
  intros [Hx0 Hx1]. apply double_finite.
  pose proof eps_small as [He0 He1]. pose proof tiny_small as [Ht0 Ht1].
  pose proof (round_error x) as H. rewrite (Rabs_right x) in H by lra.
  apply Rabs_le_bounds in H.
  assert (0 <= Double.round x) by (apply round_sign; lra).
  rewrite Rabs_right by lra. pose proof ordinary_below_overflow. nra.
Qed.

(** *** Signs *)

Lemma double_sign x :
  (0 <= x -> nonNegative (double x)) /\ (x <= 0 -> notPositive (double x)).
Proof.
  destruct (round_sign x) as [Hpos Hneg]. unfold double. cbv zeta.
  split; intros Hx.
  - specialize (Hpos Hx).
    destruct (Rle_dec (powerRZ 2 1024) (Rabs (Double.round x))).
    + destruct (Rlt_dec (Double.round x) 0); [lra|now left].
    + right. eauto.
  - specialize (Hneg Hx). right.
    destruct (Rle_dec (powerRZ 2 1024) (Rabs (Double.round x))) as [Hbig|].
    + destruct (Rlt_dec (Double.round x) 0) as [|Hge]; [now left|].
      exfalso. pose proof (powerRZ_2_pos 1024).
      assert (E : Double.round x = 0) by lra.
      rewrite E, Rabs_R0 in Hbig. lra.
    + right. eauto.
Qed.

Lemma nonNegative_abs x : x <> NaN -> nonNegative (Math_abs x).
Proof.
  destruct x as [| | |r]; intros H; try contradiction; cbn [Math_abs];
    try (now left).
  right. exists (Rabs r). split; [reflexivity|apply Rabs_pos].
Qed.

Lemma nonNegative_log x : nonNegative x -> Math_log x <> NaN.
Proof.
  intros [->|(r & -> & Hr)]; [discriminate|].
  unfold Math_log. destruct (Rlt_dec r 0); [lra|].
  destruct (Req_dec_T r 0); [discriminate|].
  unfold double. cbv zeta.
  destruct (Rle_dec _ _); [destruct (Rlt_dec _ _)|]; discriminate.
Qed.

Lemma nonNegative_div_pos x a :
  nonNegative x -> 0 < a -> nonNegative (div x (Fin a)).
Proof.
  intros [->|(r & -> & Hr)] Ha.
  - cbn [div]. destruct (Rlt_dec a 0); [lra|now left].
  - rewrite div_Fin by lra. apply double_sign.
    apply Rmult_le_pos; [assumption|]. apply Rlt_le, Rinv_0_lt_compat, Ha.
Qed.

Lemma nonNegative_ratio (c r : Z) :
  (1 <= c)%Z -> (1 <= r)%Z -> nonNegative (div (ofZ c) (ofZ r)).
Proof.
  intros Hc Hr. unfold ofZ.
  assert (0 < IZR r) by (apply IZR_lt; lia).
  assert (0 < IZR c) by (apply IZR_lt; lia).
  rewrite div_Fin by lra. apply double_sign.
  apply Rlt_le, Rdiv_lt_0_compat; assumption.
Qed.

(** The score of a grid with positive sides against a positive aspect
    ratio is a number, zero or more, or [+Infinity]. *)
Lemma score_nonNegative (r c : Z) (a : R) :
  (1 <= r)%Z -> (1 <= c)%Z -> 0 < a ->
  nonNegative (GridSolver.score r c (Fin a)).
Proof.
  intros Hr Hc Ha. unfold GridSolver.score.
  apply nonNegative_abs, nonNegative_log, nonNegative_div_pos; [|assumption].
  now apply nonNegative_ratio.
Qed.





Lemma abs_not_below_zero x : lt (Math_abs x) (Fin 0) = false.
Proof.
  destruct x; cbn [Math_abs lt]; try reflexivity.
  apply lt_Fin_false, Rabs_pos.
Qed.

(** *** The order of the scores *)

Lemma lt_irrefl x : lt x x = false.
Proof. destruct x; cbn [lt]; try reflexivity. apply lt_Fin_false, Rle_refl. Qed.

Lemma lt_not_gt x y : lt x y = true -> lt y x = false.
Proof.
  destruct x, y; cbn [lt]; try discriminate; try reflexivity.
  destruct (Rlt_dec x x0); [|discriminate]. intros _. apply lt_Fin_false. lra.
Qed.

(** [x < y <= z] gives [x < z]. *)
Lemma lt_le_trans x y z :
  nonNegative z -> lt x y = true -> lt z y = false -> lt x z = true.
Proof.
  intros [->|(r & -> & _)]; destruct x, y; cbn [lt]; try discriminate;
    try reflexivity.
  destruct (Rlt_dec x x0); [|discriminate]. destruct (Rlt_dec r x0); [discriminate|].
  intros _ _. apply lt_Fin_true. lra.
Qed.

(** [y <= x] and [z <= y] give [z <= x]. *)
Lemma le_le_trans x y z :
  nonNegative x -> nonNegative y -> nonNegative z ->
  lt x y = false -> lt y z = false -> lt x z = false.
Proof.
  intros [->|(a & -> & _)] [->|(b & -> & _)] [->|(c & -> & _)];
    cbn [lt]; try discriminate; try reflexivity.
  destruct (Rlt_dec a b); [discriminate|]. destruct (Rlt_dec b c); [discriminate|].
  intros _ _. apply lt_Fin_false. lra.
Qed.

(** *** Logarithms of numbers well above 1 *)

Lemma ln_3 : 1 <= ln 3.
Proof.
  pose proof exp_le_3 as H. rewrite <- (ln_exp 1).
  destruct H as [H|H]; [|rewrite H; lra].
  apply Rlt_le, ln_increasing; [apply exp_pos|assumption].
Qed.

Lemma ln_below x : 0 < x -> ln x < x.
Proof.
  intros Hx. rewrite <- (ln_exp x) at 2.
  apply ln_increasing; [assumption|]. pose proof (exp_ineq1 x ltac:(lra)). lra.
Qed.

Lemma abs_log_far q :
  3 <= q <= 4294967296 ->
  exists s, Math_abs (Math_log (Fin q)) = Fin s /\ 0 < s.
Proof.
  intros [Hlo Hhi]. rewrite Math_log_pos by lra.
  assert (H1 : 1 <= ln q).
  { pose proof ln_3. destruct (Req_dec q 3) as [->|]; [assumption|].
    assert (ln 3 < ln q) by (apply ln_increasing; lra). lra. }
  pose proof (ln_below q ltac:(lra)) as H2.
  pose proof one_normal. pose proof eps_small as [He0 He1].
  destruct (round_bounds (ln q) ltac:(lra)) as [Hr1 Hr2].
  assert (Hpos : 0 < Double.round (ln q)) by nra.
  assert (Hsmall : Double.round (ln q) < 18446744073709551616) by nra.
  pose proof ordinary_below_overflow.
  rewrite double_finite by (rewrite Rabs_right; lra).
  exists (Double.round (ln q)). cbn [Math_abs].
  rewrite Rabs_right by lra. split; [reflexivity|assumption].
Qed.

End JsFacts.

(** ** Claims on the grid solver *)

Section GridSolverClaims.
Import Js GridSolver.

Lemma divisors_50 : divisors 50 = [1; 2; 5; 10; 25; 50]%Z.
Proof. vm_compute. reflexivity. Qed.


Lemma consider_take n a b d c :
  c = (n ÷ d)%Z -> lt (score d c a) (b_score b) = true ->
  consider n a b d = mkBest d c (score d c a).
Proof. intros -> H. unfold consider. now rewrite H. Qed.

Lemma consider_keep n a b d c :
  c = (n ÷ d)%Z -> lt (score d c a) (b_score b) = false ->
  consider n a b d = b.
Proof. intros -> H. unfold consider. now rewrite H. Qed.

(** The scores of 50 pieces against the aspect ratio 2: exactly zero
    for 5 rows of 10, above zero for 1 row of 50 and 2 rows of 25. *)
Lemma score_5_10 : score 5 10 (Fin 2) = Fin 0.
Proof.
  unfold score, ofZ. rewrite div_Fin by lra.
  replace (10 / 5)%R with 2%R by lra. rewrite double_int by lia.
  rewrite div_Fin by lra.
  replace (2 / 2)%R with 1%R by lra. rewrite double_int by lia.
  rewrite Math_log_pos by lra. rewrite ln_1, double_int by lia.
  cbn [Math_abs]. now rewrite Rabs_R0.
Qed.

Lemma score_1_50 : exists s, score 1 50 (Fin 2) = Fin s /\ (0 < s)%R.
Proof.
  unfold score, ofZ. rewrite div_Fin by lra.
  replace (50 / 1)%R with 50%R by lra. rewrite double_int by lia.
  rewrite div_Fin by lra.
  replace (50 / 2)%R with 25%R by lra. rewrite double_int by lia.
  apply abs_log_far. lra.
Qed.

Lemma score_2_25 : exists s, score 2 25 (Fin 2) = Fin s /\ (0 < s)%R.
Proof.
  unfold score, ofZ. rewrite div_Fin by lra.
  change (25 / 2)%R with (IZR 25 / IZR (2 ^ 1))%R.
  rewrite double_dyadic by lia. rewrite div_Fin by lra.
  replace (IZR 25 / IZR (2 ^ 1) / 2)%R with (IZR 25 / IZR (2 ^ 2))%R
    by (change (IZR (2 ^ 1)) with 2%R; change (IZR (2 ^ 2)) with 4%R; lra).
  rewrite double_dyadic by lia.
  apply abs_log_far. change (IZR (2 ^ 2)) with 4%R. lra.
Qed.

Lemma best_50_2 :
  fold_left (consider 50 (Fin 2)) [1; 2; 5; 10; 25; 50]%Z (mkBest 1 50 PInf)
  = mkBest 5 10 (Fin 0).
Proof.
  destruct score_1_50 as (s1 & E1 & H1). destruct score_2_25 as (s2 & E2 & H2).
  cbn [fold_left].
  rewrite (consider_take 50 _ _ 1 50 eq_refl) by (rewrite E1; reflexivity).
  assert (Hsecond : exists b,
            consider 50 (Fin 2) (mkBest 1 50 (score 1 50 (Fin 2))) 2 = b
            /\ exists s, b_score b = Fin s /\ (0 < s)%R).
  { eexists. split; [reflexivity|]. unfold consider.
    change (50 ÷ 2)%Z with 25%Z. cbn [b_score].
    destruct (lt (score 2 25 (Fin 2)) (score 1 50 (Fin 2))); cbn [b_score]; eauto. }
  destruct Hsecond as (b & -> & s & Es & Hs).
  rewrite (consider_take 50 _ _ 5 10 eq_refl)
    by (rewrite score_5_10, Es; now apply lt_Fin_true).
  rewrite score_5_10.
  rewrite (consider_keep 50 _ _ 10 5 eq_refl) by apply abs_not_below_zero.
  rewrite (consider_keep 50 _ _ 25 2 eq_refl) by apply abs_not_below_zero.
  rewrite (consider_keep 50 _ _ 50 1 eq_refl) by apply abs_not_below_zero.
  reflexivity.
Qed.

Lemma findBestGrid_50_2 : findBestGrid 50 (Fin 2) = mkGrid 5 10 50.
Proof.
  unfold findBestGrid. rewrite divisors_50, best_50_2.
  cbn [b_rows b_cols]. unfold gt. rewrite score_5_10.
  unfold score. now rewrite abs_not_below_zero.
Qed.

(** C5.  For every integer [N >= 1] and every real aspect [A > 0],
    [findBestGrid N A] returns a grid with [rows * cols = N],
    [rows >= 1], [cols >= 1] and [count = N]; and
    [findBestGrid 50 2.0] is 5 rows by 10 columns. *)
Theorem findBestGrid_keeps_count (N : Z) (A : R) :
  (1 <= N)%Z -> (0 < A)%R ->
  (rows (findBestGrid N (Fin A)) * cols (findBestGrid N (Fin A)) = N
   /\ 1 <= rows (findBestGrid N (Fin A))
   /\ 1 <= cols (findBestGrid N (Fin A))
   /\ count (findBestGrid N (Fin A)) = N)%Z
  /\ findBestGrid 50 (Fin 2) = mkGrid 5 10 50.
Proof.
  intros HN _. destruct (findBestGrid_exact N (Fin A)) as (Hmul & Hcount & Hpos).
  destruct (Hpos HN). auto using findBestGrid_50_2.
Qed.

Lemma findBestGrid_keeps_count_witness :
  (rows (findBestGrid 50 (Fin 2)) * cols (findBestGrid 50 (Fin 2)) = 50
   /\ 1 <= rows (findBestGrid 50 (Fin 2))
   /\ 1 <= cols (findBestGrid 50 (Fin 2))
   /\ count (findBestGrid 50 (Fin 2)) = 50)%Z
  /\ findBestGrid 50 (Fin 2) = mkGrid 5 10 50.
Proof. apply (findBestGrid_keeps_count 50 2); [lia | lra]. Defined.









End GridSolverClaims.

(** ** The geometry of an edge *)

Section EdgeFacts.
Import Geometry.
Local Open Scope R_scope.

Lemma clamp_between x lo hi : lo <= hi -> lo <= clamp x lo hi <= hi.
Proof.
  intros H. unfold clamp, Rmax, Rmin.
  destruct (Rle_dec hi x); destruct (Rle_dec lo _); lra.
Qed.

Lemma clamp_inside x lo hi : lo <= x <= hi -> clamp x lo hi = x.
Proof.
  intros H. unfold clamp, Rmax, Rmin.
  destruct (Rle_dec hi x); destruct (Rle_dec lo _); lra.
Qed.

Lemma clamp_opp x : clamp (- x) (-1) 1 = - clamp x (-1) 1.
Proof.
  unfold clamp, Rmax, Rmin.
  repeat destruct (Rle_dec _ _); lra.
Qed.

(** Clamping to the middle band of an edge commutes with reading the
    edge from its other end. *)
Lemma clamp_mirror L z :
  0 <= L ->
  clamp (L - z) (L * 0.14) (L * 0.86) = L - clamp z (L * 0.14) (L * 0.86).
Proof.
  intros HL. unfold clamp, Rmax, Rmin.
  repeat destruct (Rle_dec _ _); lra.
Qed.

Lemma centerU_band L skew :
  0 <= L -> L * 0.44 <= centerU L skew <= L * 0.56.
Proof.
  intros HL. unfold centerU.
  pose proof (clamp_between skew (-1) 1 ltac:(lra)) as [Hlo Hhi].
  split; nra.
Qed.

Lemma centerU_mirror L skew : centerU L (- skew) = L - centerU L skew.
Proof. unfold centerU. rewrite clamp_opp. lra. Qed.

Lemma widthU_band L spec :
  0 <= L -> L * 0.34 <= widthU L spec <= L * 0.50.
Proof. intros HL. unfold widthU. apply clamp_between. lra. Qed.



Lemma amp_pos tab : 0 < tab -> amp tab = tab * 0.92.
Proof. intros H. unfold amp. apply clamp_inside. lra. Qed.




Lemma cons_eq {A} (x x' : A) l l' : x = x' -> l = l' -> x :: l = x' :: l'.
Proof. now intros -> ->. Qed.

End EdgeFacts.


Section EdgeClaims.
Import Geometry.
Local Open Scope R_scope.


End EdgeClaims.

(** ** Neighbouring pieces *)

Section NeighbourFacts.
Import Geometry.

(** A flipped segment is the same set of points, run through from the
    other end. *)
Lemma flip_pointAt s t : pointAt (flip s) t = pointAt s (1 - t)%R.
Proof.
  destruct s as [p q|p c1 c2 q]; cbn [flip pointAt];
    unfold blend, bezier; f_equal; ring.
Qed.

Lemma at2_inside (m : list (list EdgeSpec)) (r c : Z) (nr nc : nat) :
  length m = nr ->
  Forall (fun row => length row = nc) m ->
  (0 <= r < Z.of_nat nr)%Z -> (0 <= c < Z.of_nat nc)%Z ->
  exists e, at2 m r c = Some e.
Proof.
  intros Hlen Hrows Hr Hc. unfold at2.
  destruct (Z.ltb_spec r 0); [lia|]. destruct (Z.ltb_spec c 0); [lia|].
  cbn [orb].
  destruct (nth_error m (Z.to_nat r)) as [row|] eqn:Erow.
  - assert (Hrow : length row = nc).
    { rewrite Forall_forall in Hrows. apply Hrows.
      apply list_elem_of_In. eapply nth_error_In. exact Erow. }
    destruct (nth_error row (Z.to_nat c)) as [e|] eqn:Ee; [eauto|].
    apply nth_error_None in Ee. lia.
  - apply nth_error_None in Erow. lia.
Qed.

(** Inside a grid whose edge matrices fit it, every piece has its four
    edges, read from the matrices as [pieceEdges] says. *)
Lemma pieceEdges_inside grid edges r c :
  edgesFit grid edges ->
  (0 <= r < rows grid)%Z -> (0 <= c < cols grid)%Z ->
  exists e, pieceEdges grid edges r c = Some e
    /\ (r <> 0%Z ->
        exists s, at2 (hEdges edges) (r - 1) c = Some s
                  /\ top e = inverted s)
    /\ (r <> (rows grid - 1)%Z ->
        at2 (hEdges edges) r c = Some (bottom e))
    /\ (c <> 0%Z ->
        exists s, at2 (vEdges edges) r (c - 1) = Some s
                  /\ left e = inverted s)
    /\ (c <> (cols grid - 1)%Z ->
        at2 (vEdges edges) r c = Some (right e)).
Proof.
  intros (Hv & Hvrows & Hh & Hhrows) Hr Hc. unfold pieceEdges.
  assert (Htop : r <> 0%Z -> exists s, at2 (hEdges edges) (r - 1) c = Some s).
  { intros. eapply at2_inside; eauto; lia. }
  assert (Hbot : r <> (rows grid - 1)%Z ->
                 exists s, at2 (hEdges edges) r c = Some s).
  { intros. eapply at2_inside; eauto; lia. }
  assert (Hleft : c <> 0%Z -> exists s, at2 (vEdges edges) r (c - 1) = Some s).
  { intros. eapply at2_inside; eauto; lia. }
  assert (Hright : c <> (cols grid - 1)%Z ->
                   exists s, at2 (vEdges edges) r c = Some s).
  { intros. eapply at2_inside; eauto; lia. }
  destruct (Z.eqb_spec r 0) as [Er0|Er0];
    [|destruct (Htop Er0) as [st Est]; rewrite Est];
    (destruct (Z.eqb_spec r (rows grid - 1)) as [Er1|Er1];
     [|destruct (Hbot Er1) as [sb Esb]; rewrite Esb]);
    (destruct (Z.eqb_spec c 0) as [Ec0|Ec0];
     [|destruct (Hleft Ec0) as [sl Esl]; rewrite Esl]);
    (destruct (Z.eqb_spec c (cols grid - 1)) as [Ec1|Ec1];
     [|destruct (Hright Ec1) as [sr Esr]; rewrite Esr]);
    cbn; eexists; (split; [reflexivity|]); cbn;
    repeat split; intros; try contradiction; eauto.
Qed.

End NeighbourFacts.

Section SharedEdgeFacts.
Import Geometry.
Local Open Scope R_scope.

Lemma Line_eq (a b c d a' b' c' d' : R) :
  a = a' -> b = b' -> c = c' -> d = d' ->
  Line (a, b) (c, d) = Line (a', b') (c', d').
Proof. now intros -> -> -> ->. Qed.

Lemma Cubic_eq (a b c d e f g h a' b' c' d' e' f' g' h' : R) :
  a = a' -> b = b' -> c = c' -> d = d' ->
  e = e' -> f = f' -> g = g' -> h = h' ->
  Cubic (a, b) (c, d) (e, f) (g, h) = Cubic (a', b') (c', d') (e', f') (g', h').
Proof. now intros -> -> -> -> -> -> -> ->. Qed.

Lemma dirOf_forth x : 0 <= x -> dirOf 0 x = 1.
Proof. intros H. unfold dirOf. destruct (Rle_dec 0 x); [reflexivity|lra]. Qed.

Lemma dirOf_back x : 0 < x -> dirOf x 0 = -1.
Proof. intros H. unfold dirOf. destruct (Rle_dec x 0); [lra|reflexivity]. Qed.

Lemma skewOf_forth spec : skewOf 1 spec = skewF spec.
Proof. unfold skewOf. destruct (Req_dec_T 1 1); [reflexivity|lra]. Qed.

Lemma skewOf_back spec : skewOf (-1) spec = - skewF spec.
Proof. unfold skewOf. destruct (Req_dec_T (-1) 1); [lra|reflexivity]. Qed.

Lemma isFlat_inverted spec L : isFlat (inverted spec) L = isFlat spec L.
Proof.
  unfold isFlat. cbn [sign inverted].
  destruct (Z.eqb_spec (- sign spec) 0), (Z.eqb_spec (sign spec) 0);
    try reflexivity; lia.
Qed.

Lemma Rabs_forth x : 0 <= x -> Rabs (x - 0) = x.
Proof. intros H. rewrite Rminus_0_r. apply Rabs_right. lra. Qed.

Lemma Rabs_back x : 0 <= x -> Rabs (0 - x) = x.
Proof.
  intros H. unfold Rabs. destruct (Rcase_abs (0 - x)); lra.
Qed.

End SharedEdgeFacts.

Ltac same_curve tac :=
  repeat (apply cons_eq;
          [ first [ apply Line_eq | apply Cubic_eq ]; tac | ]);
  try reflexivity.

Section SharedEdges.
Import Geometry.
Local Open Scope R_scope.

(** The bottom side of a piece and the top side of the piece below
    it, cut from the same spec, are one curve run through in opposite
    directions. *)
Lemma horizontal_sides_coincide tileW tileH tab s :
  0 < tileW ->
  trace (0, 0) (hEdgeAbs tab 0 tileW 0 (-1) (inverted s))
  = backwards (map (shiftSegment 0 (- tileH))
                 (trace (tileW, tileH) (hEdgeAbs tab tileW 0 tileH 1 s))).
Proof.
  intros HW. unfold hEdgeAbs.
  rewrite Rabs_forth, Rabs_back, dirOf_forth, dirOf_back by lra.
  rewrite isFlat_inverted. destruct (isFlat s tileW).
  - unfold backwards.
    cbn [trace map shiftSegment flip rev app]. unfold shift. cbn [fst snd].
    same_curve lra.
  - rewrite skewOf_forth, skewOf_back. cbn [skewF inverted].
    rewrite centerU_mirror.
    change (widthU tileW (inverted s)) with (widthU tileW s).
    change (neckU (widthU tileW s) (inverted s))
      with (neckU (widthU tileW s) s).
    cbn [sign inverted]. rewrite opp_IZR.
    set (C := centerU tileW (skewF s)).
    set (W := widthU tileW s).
    set (N := neckU W s).
    set (A := amp tab).
    set (S := IZR (sign s)).
    replace (tileW - C - W / 2) with (tileW - (C + W / 2)) by lra.
    replace (tileW - C + W / 2) with (tileW - (C - W / 2)) by lra.
    rewrite !clamp_mirror by lra.
    set (aU := clamp (C - W / 2) (tileW * 0.14) (tileW * 0.86)).
    set (dU := clamp (C + W / 2) (tileW * 0.14) (tileW * 0.86)).
    unfold backwards, EDGE_A, EDGE_B.
    cbn [trace map shiftSegment flip rev app]. unfold shift. cbn [fst snd].
    same_curve lra.
Qed.

(** The right side of a piece and the left side of the piece to its
    right. *)
Lemma vertical_sides_coincide tileW tileH tab s :
  0 < tileH ->
  trace (0, tileH) (vEdgeAbs tab 0 tileH 0 (-1) (inverted s))
  = backwards (map (shiftSegment (- tileW) 0)
                 (trace (tileW, 0) (vEdgeAbs tab tileW 0 tileH 1 s))).
Proof.
  intros HH. unfold vEdgeAbs.
  rewrite Rabs_forth, Rabs_back, dirOf_forth, dirOf_back by lra.
  rewrite isFlat_inverted. destruct (isFlat s tileH).
  - unfold backwards.
    cbn [trace map shiftSegment flip rev app]. unfold shift. cbn [fst snd].
    same_curve lra.
  - rewrite skewOf_forth, skewOf_back. cbn [skewF inverted].
    rewrite centerU_mirror.
    change (widthU tileH (inverted s)) with (widthU tileH s).
    change (neckU (widthU tileH s) (inverted s))
      with (neckU (widthU tileH s) s).
    cbn [sign inverted]. rewrite opp_IZR.
    set (C := centerU tileH (skewF s)).
    set (W := widthU tileH s).
    set (N := neckU W s).
    set (A := amp tab).
    set (S := IZR (sign s)).
    replace (tileH - C - W / 2) with (tileH - (C + W / 2)) by lra.
    replace (tileH - C + W / 2) with (tileH - (C - W / 2)) by lra.
    rewrite !clamp_mirror by lra.
    set (aU := clamp (C - W / 2) (tileH * 0.14) (tileH * 0.86)).
    set (dU := clamp (C + W / 2) (tileH * 0.14) (tileH * 0.86)).
    unfold backwards, EDGE_A, EDGE_B.
    cbn [trace map shiftSegment flip rev app]. unfold shift. cbn [fst snd].
    same_curve lra.
Qed.

End SharedEdges.

(** ** The edge matrices *)

Section BuildEdgesFacts.
Import Geometry.
Variable rng : Type.
Variable Math_random : rng -> R * rng.

Lemma arrayFrom_Forall {A} (P : A -> Prop) (f : Rand rng A) :
  (forall g, P (fst (f g))) ->
  forall n g,
    Forall P (fst (arrayFrom rng n f g))
    /\ length (fst (arrayFrom rng n f g)) = n.
Proof.
  intros Hf. induction n as [|n IH]; intros g; cbn [arrayFrom].
  - split; [constructor|reflexivity].
  - unfold bind. pose proof (Hf g) as Ha. destruct (f g) as [a g1].
    destruct (IH g1) as [HF Hlen]. destruct (arrayFrom rng n f g1) as [l g2].
    cbn in *. split; [constructor; assumption|congruence].
Qed.

Lemma randomSpec_tabbed g : tabbed (fst (randomSpec rng Math_random g)).
Proof.
  unfold randomSpec, rand, bind, ret.
  destruct (Math_random g) as [u g1]. destruct (Math_random g1) as [w g2].
  destruct (Math_random g2) as [n g3]. destruct (Math_random g3) as [s g4].
  cbn. unfold tabbed. cbn. destruct (Rlt_dec u 0.5); auto.
Qed.

Lemma buildEdges_fit grid g :
  edgesFit grid (fst (buildEdges rng Math_random grid g)).
Proof.
  unfold buildEdges, bind, ret, edgesFit.
  set (fv := arrayFrom rng (Z.to_nat (Z.max 0 (cols grid - 1)))
               (randomSpec rng Math_random)).
  set (fh := arrayFrom rng (Z.to_nat (cols grid)) (randomSpec rng Math_random)).
  destruct (arrayFrom_Forall
              (fun row => length row = Z.to_nat (Z.max 0 (cols grid - 1))) fv
              (fun g => proj2 (arrayFrom_Forall (fun _ => True) _
                                 (fun _ => I) _ g))
              (Z.to_nat (rows grid)) g) as [HvF Hv].
  destruct (arrayFrom rng (Z.to_nat (rows grid)) fv g) as [v g1].
  destruct (arrayFrom_Forall
              (fun row => length row = Z.to_nat (cols grid)) fh
              (fun g => proj2 (arrayFrom_Forall (fun _ => True) _
                                 (fun _ => I) _ g))
              (Z.to_nat (Z.max 0 (rows grid - 1))) g1) as [HhF Hh].
  destruct (arrayFrom rng (Z.to_nat (Z.max 0 (rows grid - 1))) fh g1) as [h g2].
  cbn in *. auto.
Qed.

Lemma buildEdges_tabbed grid g :
  Forall (Forall tabbed) (vEdges (fst (buildEdges rng Math_random grid g)))
  /\ Forall (Forall tabbed) (hEdges (fst (buildEdges rng Math_random grid g))).
Proof.
  unfold buildEdges, bind, ret.
  set (fv := arrayFrom rng (Z.to_nat (Z.max 0 (cols grid - 1)))
               (randomSpec rng Math_random)).
  set (fh := arrayFrom rng (Z.to_nat (cols grid)) (randomSpec rng Math_random)).
  destruct (arrayFrom_Forall (Forall tabbed) fv
              (fun g => proj1 (arrayFrom_Forall tabbed _
                                 randomSpec_tabbed _ g))
              (Z.to_nat (rows grid)) g) as [HvF _].
  destruct (arrayFrom rng (Z.to_nat (rows grid)) fv g) as [v g1].
  destruct (arrayFrom_Forall (Forall tabbed) fh
              (fun g => proj1 (arrayFrom_Forall tabbed _
                                 randomSpec_tabbed _ g))
              (Z.to_nat (Z.max 0 (rows grid - 1))) g1) as [HhF _].
  destruct (arrayFrom rng (Z.to_nat (Z.max 0 (rows grid - 1))) fh g1) as [h g2].
  cbn in *. auto.
Qed.

Lemma at2_Forall (P : EdgeSpec -> Prop) m r c e :
  Forall (Forall P) m -> at2 m r c = Some e -> P e.
Proof.
  intros Hm. unfold at2. destruct (_ || _); [discriminate|].
  destruct (nth_error m (Z.to_nat r)) as [row|] eqn:Erow; [|discriminate].
  intros He. rewrite Forall_forall in Hm.
  assert (Hrow : Forall P row).
  { apply Hm, list_elem_of_In. eapply nth_error_In. exact Erow. }
  rewrite Forall_forall in Hrow. apply Hrow, list_elem_of_In.
  eapply nth_error_In. exact He.
Qed.

End BuildEdgesFacts.

(** ** Claims on the edges *)

Section EdgeMatrixClaims.
Import Geometry.
Local Open Scope R_scope.

(** C1.  For the edge matrices that [buildEdges] makes for a grid, and
    every interior boundary: the two pieces that meet there resolve,
    through [pieceEdges], edges with opposite signs (never flat), the
    same [widthF] and [neckF], and skews which, after the mirror that
    [hEdgeAbs] and [vEdgeAbs] apply by direction, are opposite; the two
    sides traced are one curve, run through in opposite directions.
    First part: horizontal boundaries, between [(r, c)] and
    [(r + 1, c)]; second part: vertical boundaries, between [(r, c)]
    and [(r, c + 1)]. *)
Theorem shared_edges_complementary (rng : Type)
    (Math_random : rng -> R * rng) (g : rng) (grid : Grid)
    (tileW tileH tab : R) :
  0 < tileW -> 0 < tileH ->
  let edges := fst (buildEdges rng Math_random grid g) in
  (forall r c : Z,
      (0 <= r)%Z -> (r + 1 < rows grid)%Z -> (0 <= c < cols grid)%Z ->
      exists upper lower,
        pieceEdges grid edges r c = Some upper
        /\ pieceEdges grid edges (r + 1) c = Some lower
        /\ tabbed (bottom upper)
        /\ sign (top lower) = (- sign (bottom upper))%Z
        /\ widthF (top lower) = widthF (bottom upper)
        /\ neckF (top lower) = neckF (bottom upper)
        /\ skewOf (dirOf 0 tileW) (top lower)
           = - skewOf (dirOf tileW 0) (bottom upper)
        /\ trace (0, 0) (topPath tileW tileH tab lower)
           = backwards (map (shiftSegment 0 (- tileH))
               (trace (tileW, tileH) (bottomPath tileW tileH tab upper))))
  /\ (forall r c : Z,
      (0 <= r < rows grid)%Z -> (0 <= c)%Z -> (c + 1 < cols grid)%Z ->
      exists lft rgt,
        pieceEdges grid edges r c = Some lft
        /\ pieceEdges grid edges r (c + 1) = Some rgt
        /\ tabbed (right lft)
        /\ sign (left rgt) = (- sign (right lft))%Z
        /\ widthF (left rgt) = widthF (right lft)
        /\ neckF (left rgt) = neckF (right lft)
        /\ skewOf (dirOf tileH 0) (left rgt)
           = - skewOf (dirOf 0 tileH) (right lft)
        /\ trace (0, tileH) (leftPath tileW tileH tab rgt)
           = backwards (map (shiftSegment (- tileW) 0)
               (trace (tileW, 0) (rightPath tileW tileH tab lft)))).
Proof.
  intros HW HH edges.
  pose proof (buildEdges_fit rng Math_random grid g) as Hfit.
  destruct (buildEdges_tabbed rng Math_random grid g) as [Hvt Hht].
  fold edges in Hfit, Hvt, Hht.
  split; intros r c.
  - intros Hr0 Hr1 Hc.
    destruct (pieceEdges_inside grid edges r c Hfit ltac:(lia) Hc)
      as (upper & Eu & _ & Hbottom & _).
    destruct (pieceEdges_inside grid edges (r + 1) c Hfit ltac:(lia) Hc)
      as (lower & El & Htop & _).
    specialize (Hbottom ltac:(lia)).
    destruct (Htop ltac:(lia)) as (s & Es & Etop).
    replace (r + 1 - 1)%Z with r in Es by lia.
    rewrite Hbottom in Es. injection Es as <-.
    exists upper, lower. unfold topPath, bottomPath. rewrite Etop.
    rewrite dirOf_forth, dirOf_back, skewOf_forth, skewOf_back by lra.
    repeat split; try reflexivity; try assumption.
    + eapply at2_Forall; [exact Hht | exact Hbottom].
    + cbn [skewF inverted]. lra.
    + now apply horizontal_sides_coincide.
  - intros Hr Hc0 Hc1.
    destruct (pieceEdges_inside grid edges r c Hfit Hr ltac:(lia))
      as (lft & El & _ & _ & _ & Hright).
    destruct (pieceEdges_inside grid edges r (c + 1) Hfit Hr ltac:(lia))
      as (rgt & Er & _ & _ & Hleft & _).
    specialize (Hright ltac:(lia)).
    destruct (Hleft ltac:(lia)) as (s & Es & Eleft).
    replace (c + 1 - 1)%Z with c in Es by lia.
    rewrite Hright in Es. injection Es as <-.
    exists lft, rgt. unfold leftPath, rightPath. rewrite Eleft.
    rewrite dirOf_forth, dirOf_back, skewOf_forth, skewOf_back by lra.
    repeat split; try reflexivity; try assumption.
    + eapply at2_Forall; [exact Hvt | exact Hright].
    + now apply vertical_sides_coincide.
Qed.

End EdgeMatrixClaims.

(** ** generatePieces *)

Section GeneratePiecesFacts.
Import Geometry.
Variable rng : Type.
Variable Math_random : rng -> R * rng.

Lemma forEach_Forall2 {A B} (Q : A -> B -> Prop)
    (f : A -> Rand rng (option B)) (l : list A) :
  (forall a g, In a l -> exists b, fst (f a g) = Some b /\ Q a b) ->
  forall g, exists bs,
    fst (forEach rng l f g) = Some bs /\ Forall2 Q l bs.
Proof.
  induction l as [|a l IH]; intros Hf g; cbn [forEach].
  - exists []. split; [reflexivity|constructor].
  - unfold bind.
    destruct (Hf a g (or_introl eq_refl)) as (b & Eb & Hb).
    destruct (f a g) as [ob g1]. cbn in Eb. subst ob.
    destruct (IH (fun a' g' H => Hf a' g' (or_intror H)) g1)
      as (bs & Ebs & Hbs).
    destruct (forEach rng l f g1) as [obs g2]. cbn in Ebs. subst obs.
    exists (b :: bs). split; [reflexivity|]. constructor; assumption.
Qed.

Lemma tiles_inside grid r c :
  In (r, c) (tiles grid) ->
  (0 <= Z.of_nat r < rows grid)%Z /\ (0 <= Z.of_nat c < cols grid)%Z.
Proof.
  unfold tiles. intros Hin. apply list_elem_of_In in Hin.
  apply list_elem_of_bind in Hin. destruct Hin as (r' & Hin & Hr).
  apply list_elem_of_bind in Hin. destruct Hin as (c' & Hin & Hc).
  apply list_elem_of_singleton in Hin. injection Hin as -> ->.
  apply elem_of_seq in Hr, Hc. lia.
Qed.

Lemma generatePiece_inside image grid opts edges rc g :
  edgesFit grid edges -> In rc (tiles grid) ->
  exists p, fst (generatePiece rng Math_random image grid opts edges rc g)
            = Some p
            /\ pieceOf image grid edges rc p.
Proof.
  intros Hfit Hin. destruct rc as [r c].
  destruct (tiles_inside grid r c Hin) as [Hr Hc].
  destruct (pieceEdges_inside grid edges _ _ Hfit Hr Hc) as (e & Ee & _).
  unfold generatePiece. rewrite Ee. unfold bind, ret.
  destruct (if randomRotation opts then _ else _) as [rot g1].
  eexists. split; [reflexivity|].
  unfold pieceOf. cbn. repeat split; try reflexivity. eauto.
Qed.

(** [generatePieces] returns: one piece per tile, row by row. *)
Lemma generatePieces_returns image grid opts g :
  exists pieces,
    fst (generatePieces rng Math_random image grid opts g) = Some pieces
    /\ Forall2 (pieceOf image grid
                  (fst (generatePieces_edges rng Math_random grid opts g)))
               (tiles grid) pieces.
Proof.
  unfold generatePieces, bind.
  pose proof (buildEdges_fit rng Math_random grid g) as Hfit.
  unfold generatePieces_edges in *.
  destruct (buildEdges rng Math_random grid g) as [edges g1]. cbn in *.
  apply forEach_Forall2. intros rc g' Hin.
  now apply generatePiece_inside.
Qed.

End GeneratePiecesFacts.

(** ** Sizes and source rectangles *)

Section SizeFacts.
Import Geometry.
Local Open Scope R_scope.

Lemma Math_floor_le x : Math_floor x <= x.
Proof. unfold Math_floor. apply Zfloor_bound. Qed.

Lemma scale_range image :
  0 < Rmax (naturalW image) (naturalH image) ->
  0 < scale image <= 1.
Proof.
  intros Hm. unfold scale, maxBoardPx.
  assert (0 < 900 / Rmax (naturalW image) (naturalH image))
    by (apply Rdiv_lt_0_compat; lra).
  unfold Rmin. destruct (Rle_dec 1 _); lra.
Qed.

(** Scaling by [scale] brings the longer side of the image down to
    [maxBoardPx]. *)
Lemma scaled_side x image :
  0 < Rmax (naturalW image) (naturalH image) ->
  0 <= x <= Rmax (naturalW image) (naturalH image) ->
  x * scale image <= 900.
Proof.
  intros Hm Hx. destruct (scale_range image Hm) as [Hs0 Hs1].
  set (m := Rmax (naturalW image) (naturalH image)) in *.
  assert (Hs : scale image <= 900 / m)
    by (unfold scale, maxBoardPx; fold m; apply Rmin_r).
  assert (Hm900 : m * (900 / m) = 900) by (field; lra).
  nra.
Qed.

Lemma pad_min image grid : 6 <= pad image grid.
Proof. unfold pad. apply Rmax_l. Qed.

Lemma padSrc_min image grid :
  0 < Rmax (naturalW image) (naturalH image) ->
  6 <= pad image grid / scale image.
Proof.
  intros Hm. destruct (scale_range image Hm) as [Hs0 Hs1].
  pose proof (pad_min image grid) as Hp.
  assert (Heq : pad image grid / scale image * scale image = pad image grid)
    by (field; lra).
  nra.
Qed.

(** The tile [c] of a side of length [W] cut in [n] lies within the
    side. *)
Lemma tile_span (W : R) (n : Z) (c : nat) :
  0 <= W -> (Z.of_nat c < n)%Z ->
  0 <= W / IZR n
  /\ 0 <= INR c * (W / IZR n)
  /\ INR c * (W / IZR n) + W / IZR n <= W.
Proof.
  intros HW Hc.
  assert (Hn : INR c + 1 <= IZR n).
  { rewrite INR_IZR_INZ, <- plus_IZR. apply IZR_le. lia. }
  pose proof (pos_INR c) as Hc0.
  assert (Ht : 0 <= W / IZR n).
  { apply Rmult_le_pos; [assumption|].
    apply Rlt_le, Rinv_0_lt_compat. lra. }
  assert (Hk : IZR n * (W / IZR n) = W) by (field; lra).
  repeat split; [assumption|nra|nra].
Qed.

(** The clamped window of a padded tile: it starts inside the side,
    is at least one pixel wide before [Math.max(1, _)] applies, and
    ends inside the side. *)
Lemma clamp_window (W ct t p : R) :
  1 <= W -> 0 <= ct -> ct + t <= W -> 0 <= t -> 6 <= p ->
  0 <= clamp (ct - p) 0 W
  /\ clamp (ct - p) 0 W
     + Rmax 1 (clamp (ct - p + (t + p * 2)) 0 W - clamp (ct - p) 0 W) <= W.
Proof.
  intros HW Hct Hsum Ht Hp. unfold clamp, Rmax, Rmin.
  repeat destruct (Rle_dec _ _); lra.
Qed.

Lemma normal_above x : / 8388608 <= x -> powerRZ 2 (-1022) <= x.
Proof.
  intros Hx. apply Rle_trans with (powerRZ 2 (-23)); [apply powerRZ_2_le; lia|].
  change (-23)%Z with (- (23))%Z.
  rewrite powerRZ_neg', powerRZ_2_IZR by lia. exact Hx.
Qed.

(** *** The pad: the doubles floor where the exact product floors *)

(** The literal [0.18] is the double just below eighteen hundredths. *)
Lemma round_018 :
  Double.round 0.18 = 6485183463413514 / 36028797018963968.
Proof.
  assert (E55 : powerRZ 2 55 = 36028797018963968)
    by (rewrite powerRZ_2_IZR by lia; reflexivity).
  rewrite (round_cert 0.18 (-3) 6485183463413514).
  - change (Z.max (-3 - 52) (-1074)) with (- (55))%Z.
    rewrite powerRZ_neg', E55. reflexivity.
  - change (-3 + 1)%Z with (- (2))%Z. change (-3)%Z with (- (3))%Z.
    rewrite !powerRZ_neg', !powerRZ_2_IZR by lia.
    change (IZR (2 ^ 3)) with 8. change (IZR (2 ^ 2)) with 4.
    rewrite Rabs_right by lra. lra.
  - change (- Z.max (-3 - 52) (-1074))%Z with 55%Z. rewrite E55.
    apply Rabs_def1; lra.
Qed.

(** A number less than a third of a unit in the last place below the
    integer [m] rounds to [m]. *)
Lemma round_to_int (m b : Z) (X : R) :
  (0 <= b <= 52)%Z -> (2 ^ b < m < 2 ^ (b + 1))%Z ->
  0 <= IZR m - X <= IZR m / 27021597764222976 ->
  Double.round X = IZR m.
Proof.
  intros Hb [Hlo Hhi] [HX0 HX1].
  assert (Eb1 : powerRZ 2 (b + 1) = 2 * powerRZ 2 b).
  { rewrite Z.add_comm, powerRZ_2_split. change (powerRZ 2 1) with (2 * 1). ring. }
  assert (Hlo' : powerRZ 2 b + 1 <= IZR m).
  { rewrite powerRZ_2_IZR by lia. rewrite <- plus_IZR. apply IZR_le. lia. }
  assert (Hhi' : IZR m < 2 * powerRZ 2 b).
  { rewrite <- Eb1, powerRZ_2_IZR by lia. now apply IZR_lt. }
  pose proof (powerRZ_2_pos b) as Hpb.
  assert (Hb1 : 1 <= powerRZ 2 b).
  { change 1 with (powerRZ 2 0). apply powerRZ_2_le. lia. }
  assert (Hb52 : powerRZ 2 b <= 4503599627370496).
  { replace 4503599627370496 with (powerRZ 2 52)
      by (rewrite powerRZ_2_IZR by lia; reflexivity).
    apply powerRZ_2_le. lia. }
  assert (HXpos : 0 < X) by lra.
  assert (Hbin : powerRZ 2 b <= Rabs X < powerRZ 2 (b + 1)).
  { rewrite Rabs_right by lra. rewrite Eb1. lra. }
  assert (E52 : powerRZ 2 (52 - b) * powerRZ 2 b = 4503599627370496).
  { rewrite <- powerRZ_2_split. replace (52 - b + b)%Z with 52%Z by lia.
    rewrite powerRZ_2_IZR by lia. reflexivity. }
  pose proof (powerRZ_2_pos (52 - b)) as Hp52.
  rewrite (round_cert X b (m * 2 ^ (52 - b))).
  - rewrite Z.max_l by lia. rewrite mult_IZR, <- powerRZ_2_IZR by lia.
    rewrite Rmult_assoc, <- powerRZ_2_split.
    replace (52 - b + (b - 52))%Z with 0%Z by lia. rewrite powerRZ_O. ring.
  - exact Hbin.
  - rewrite Z.max_l by lia. replace (- (b - 52))%Z with (52 - b)%Z by lia.
    rewrite mult_IZR, <- powerRZ_2_IZR by lia.
    replace (IZR m * powerRZ 2 (52 - b) - X * powerRZ 2 (52 - b))
      with ((IZR m - X) * powerRZ 2 (52 - b)) by ring.
    assert (Hd : (IZR m - X) * powerRZ 2 (52 - b) < / 2).
    { apply Rle_lt_trans
        with (IZR m / 27021597764222976 * powerRZ 2 (52 - b)).
      - apply Rmult_le_compat_r; lra.
      - assert (IZR m * powerRZ 2 (52 - b) < 2 * 4503599627370496) by nra.
        lra. }
    assert (0 <= (IZR m - X) * powerRZ 2 (52 - b))
      by (apply Rmult_le_pos; lra).
    rewrite Rabs_right by lra. exact Hd.
Qed.

Lemma pad_floor (k : Z) :
  (10 <= k <= 900)%Z ->
  Zfloor (Double.round (IZR k * Double.round 0.18)) = Zfloor (IZR k * 0.18).
Proof.
  intros Hk. rewrite round_018.
  set (c := 6485183463413514 / 36028797018963968).
  assert (Ec : 0.18 - c = 0.24 / 36028797018963968) by (unfold c; lra).
  assert (Hk' : 10 <= IZR k <= 900) by (split; apply IZR_le; lia).
  set (m := (9 * k / 50)%Z). set (rho := ((9 * k) mod 50)%Z).
  assert (Hdiv : (9 * k = 50 * m + rho /\ 0 <= rho < 50)%Z)
    by (unfold m, rho; split; [apply Z.div_mod; lia|apply Z.mod_pos_bound; lia]).
  destruct Hdiv as [Hdiv Hrho].
  assert (Hreal : 9 * IZR k = 50 * IZR m + IZR rho).
  { apply (f_equal IZR) in Hdiv. now rewrite plus_IZR, !mult_IZR in Hdiv. }
  assert (Hrho' : 0 <= IZR rho <= 49) by (split; apply IZR_le; lia).
  destruct (Z.eq_dec rho 0%Z) as [E0|Hne].
  - rewrite E0 in Hreal, Hdiv. clear Hrho'.
    assert (Hm : (9 <= m <= 162)%Z) by lia.
    assert (Hm9 : exists j, m = (9 * j)%Z) by (exists (2 * k - 11 * m)%Z; lia).
    destruct Hm9 as (j & Ej).
    assert (Hm' : 9 <= IZR m <= 162) by (split; apply IZR_le; lia).
    assert (Hround : Double.round (IZR k * c) = IZR m).
    { assert (Hgap : 0 <= IZR m - IZR k * c <= IZR m / 27021597764222976).
      { replace (IZR k * c) with (IZR k * 0.18 - IZR k * (0.18 - c)) by ring.
        rewrite Ec. lra. }
      assert (Hb : (2 ^ 3 < m < 2 ^ 4 \/ 2 ^ 4 < m < 2 ^ 5 \/ 2 ^ 5 < m < 2 ^ 6
                    \/ 2 ^ 6 < m < 2 ^ 7 \/ 2 ^ 7 < m < 2 ^ 8)%Z) by lia.
      destruct Hb as [Hb|[Hb|[Hb|[Hb|Hb]]]].
      - apply (round_to_int m 3); [lia|exact Hb|exact Hgap].
      - apply (round_to_int m 4); [lia|exact Hb|exact Hgap].
      - apply (round_to_int m 5); [lia|exact Hb|exact Hgap].
      - apply (round_to_int m 6); [lia|exact Hb|exact Hgap].
      - apply (round_to_int m 7); [lia|exact Hb|exact Hgap]. }
    rewrite Hround, ZfloorZ. symmetry. apply Zfloor_eq. lra.
  - assert (Hrho1 : 1 <= IZR rho) by (apply IZR_le; lia).
    assert (HX : IZR m + / 50 - / 1000 <= IZR k * c <= IZR m + 49 / 50).
    { replace (IZR k * c) with (IZR k * 0.18 - IZR k * (0.18 - c)) by ring.
      rewrite Ec. lra. }
    assert (Hm0 : 0 <= IZR m) by (apply IZR_le; unfold m; apply Z.div_pos; lia).
    assert (Hnorm : / 8388608 <= IZR k * c) by lra.
    destruct (round_bounds _ (normal_above _ Hnorm)) as [Hr1 Hr2].
    rewrite eps_value in Hr1, Hr2.
    assert (HXhi : IZR k * c <= 163) by lra.
    rewrite (Zfloor_eq m), (Zfloor_eq m); [reflexivity|lra|lra].
Qed.

(** *** The cap of the board *)

Lemma small_share e a :
  0 <= a -> 0 <= e <= / 1000000 -> e * a <= a / 1000000.
Proof. intros Ha He. nra. Qed.

Lemma three_roundings e :
  0 <= e <= / 1000000 -> 1 <= (1 + e) * (1 + e) * (1 + e) <= 1 + / 1000.
Proof.
  intros He. assert (H2 : 1 <= (1 + e) * (1 + e) <= 1 + / 100000) by nra.
  split; nra.
Qed.

(** Three operations, each rounded up by at most [eps]. *)
Lemma rounded_product x q t s y e :
  0 <= e -> 0 <= t <= x * (1 + e) -> 0 <= s <= q * (1 + e) ->
  y <= t * s * (1 + e) ->
  y <= x * q * ((1 + e) * (1 + e) * (1 + e)).
Proof.
  intros He [Ht0 Ht] [Hs0 Hs] Hy.
  assert (Hts : t * s <= x * (1 + e) * (q * (1 + e)))
    by (apply Rmult_le_compat; assumption).
  apply Rle_trans with (t * s * (1 + e)); [assumption|].
  replace (x * q * ((1 + e) * (1 + e) * (1 + e)))
    with (x * (1 + e) * (q * (1 + e)) * (1 + e)) by ring.
  apply Rmult_le_compat_r; lra.
Qed.

Lemma below_901 n y x q P side :
  1 <= n -> x * n = side -> 0 <= side * q <= 900 -> 1 <= P <= 1 + / 1000 ->
  y <= x * q * P -> n * y < 901.
Proof.
  intros Hn Hx [Hq0 Hq] [HP1 HP] Hy.
  apply Rle_lt_trans with (n * (x * q * P)).
  - apply Rmult_le_compat_l; lra.
  - replace (n * (x * q * P)) with (side * q * P) by (rewrite <- Hx; ring).
    apply Rle_lt_trans with (900 * P); [|lra].
    apply Rmult_le_compat_r; lra.
Qed.

(** The board side that the scaled and floored tiles add up to: when
    the tile is 10 pixels or more, at most 900.  [side] is the side of
    the image that is cut in [n], [M] the longer side; the roundings of
    the three operations are too small to reach the next integer. *)
Lemma board_capped (side M : R) (n : Z) :
  1 <= side <= M -> M <= 4294967296 -> (1 <= n)%Z ->
  10 <= Math_floor (Double.round (Double.round (side / IZR n)
                                  * Rmin 1 (Double.round (900 / M)))) ->
  IZR n * Math_floor (Double.round (Double.round (side / IZR n)
                                    * Rmin 1 (Double.round (900 / M))))
  <= 900.
Proof.
  intros [Hs1 HsM] HM Hn H10.
  pose proof eps_small as [He0 He1]. pose proof tiny_small as [Ht0 Ht1].
  assert (Hn' : 1 <= IZR n) by (apply IZR_le; assumption).
  set (x := side / IZR n) in *. set (q := 900 / M) in *.
  set (t := Double.round x) in *. set (r := Double.round q) in *.
  set (s := Rmin 1 r) in *. set (y := Double.round (t * s)) in *.
  set (e := Double.eps) in *.
  assert (He : 0 <= e <= / 1000000) by lra.
  assert (HqM : q * M = 900) by (unfold q; field; lra).
  assert (Hq0 : 0 < q) by (unfold q; apply Rdiv_lt_0_compat; lra).
  assert (Hqlo : / 8388608 <= q).
  { assert (q * M <= q * 4294967296) by (apply Rmult_le_compat_l; lra). lra. }
  destruct (round_bounds q (normal_above q Hqlo)) as [Hr1 Hr2].
  fold r e in Hr1, Hr2.
  pose proof (small_share e q ltac:(lra) He) as Heq.
  assert (Hr0 : 0 < r) by lra.
  assert (Hs : 0 < s <= 1 /\ s <= q * (1 + e)).
  { unfold s, Rmin. destruct (Rle_dec 1 r); lra. }
  destruct Hs as [[Hs0 Hs1'] Hsq].
  assert (Hxn : x * IZR n = side) by (unfold x; field; lra).
  assert (Hx0 : 0 < x) by (unfold x; apply Rdiv_lt_0_compat; lra).
  assert (Ht : 0 <= t) by (apply round_sign; lra).
  assert (Hts : 0 <= t * s) by (apply Rmult_le_pos; lra).
  assert (Htst : t * s <= t).
  { rewrite <- (Rmult_1_r t) at 2. apply Rmult_le_compat_l; lra. }
  pose proof (round_error (t * s)) as Hy. fold y e in Hy.
  rewrite (Rabs_right (t * s)) in Hy by lra.
  apply Rabs_le_bounds in Hy.
  pose proof (Math_floor_le y) as Hfl.
  pose proof (small_share e (t * s) Hts He) as Hets.
  assert (Hts9 : 9 <= t * s) by lra.
  assert (Ht9 : 9 <= t) by lra.
  pose proof (round_error x) as Hx. fold t e in Hx.
  rewrite (Rabs_right x) in Hx by lra.
  apply Rabs_le_bounds in Hx.
  pose proof (small_share e x ltac:(lra) He) as Hex.
  assert (Hx8 : 8 <= x) by lra.
  assert (Hxnorm : / 8388608 <= x) by lra.
  destruct (round_bounds x (normal_above x Hxnorm)) as [_ Htx].
  fold t e in Htx.
  assert (Htsnorm : / 8388608 <= t * s) by lra.
  destruct (round_bounds (t * s) (normal_above (t * s) Htsnorm)) as [_ Hyts].
  fold y e in Hyts.
  pose proof (rounded_product x q t s y e ltac:(lra) (conj Ht Htx)
                (conj (Rlt_le _ _ Hs0) Hsq) Hyts) as Hy'.
  assert (Hsq' : 0 <= side * q <= 900).
  { split; [apply Rmult_le_pos; lra|].
    rewrite <- HqM, (Rmult_comm q M). apply Rmult_le_compat_r; lra. }
  pose proof (three_roundings e He) as HP.
  pose proof (below_901 (IZR n) y x q _ side Hn' Hxn Hsq' HP Hy') as Hsmall.
  unfold Math_floor in *. set (k := Zfloor y) in *.
  assert (Hk : IZR n * IZR k < 901).
  { apply Rle_lt_trans with (IZR n * y); [|assumption].
    apply Rmult_le_compat_l; lra. }
  rewrite <- mult_IZR in *. apply IZR_le.
  assert (n * k < 901)%Z by (apply lt_IZR; assumption). lia.
Qed.

(** The tile sizes are whole numbers of pixels from 10 to 900. *)
Lemma outTile_whole (side M : R) (n : Z) :
  1 <= side <= M -> M <= 4294967296 -> (1 <= n)%Z ->
  exists k : Z,
    Rmax 10 (Math_floor (Double.round (Double.round (side / IZR n)
                                       * Rmin 1 (Double.round (900 / M)))))
    = IZR k /\ (10 <= k <= 900)%Z.
Proof.
  intros Hside HM Hn.
  set (f := Zfloor (Double.round (Double.round (side / IZR n)
                                  * Rmin 1 (Double.round (900 / M))))).
  unfold Math_floor. fold f.
  destruct (Z_le_gt_dec 10 f) as [H10|Hsmall].
  - exists f. assert (H10' : 10 <= IZR f) by (apply IZR_le; assumption).
    split; [now apply Rmax_right|]. split; [assumption|].
    pose proof (board_capped side M n Hside HM Hn H10') as Hcap.
    unfold Math_floor in Hcap. fold f in Hcap.
    assert (Hn' : 1 <= IZR n) by (apply IZR_le; assumption).
    apply le_IZR. nra.
  - exists 10%Z. split; [|lia]. apply Rmax_left.
    apply IZR_le. lia.
Qed.

(** On whole tiles from 10 to 900 pixels the pad is the floor of the
    exact product by eighteen hundredths. *)
Lemma pad_ideal image grid :
  1 <= naturalW image <= 4294967296 ->
  1 <= naturalH image <= 4294967296 ->
  (1 <= rows grid)%Z -> (1 <= cols grid)%Z ->
  pad image grid
  = Rmax 6 (Math_floor (Rmin (outTileW image grid) (outTileH image grid)
                        * 0.18)).
Proof.
  intros HW HH Hr Hc. unfold pad.
  assert (HM : Rmax (naturalW image) (naturalH image) <= 4294967296)
    by (apply Rmax_lub; lra).
  destruct (outTile_whole (naturalW image)
              (Rmax (naturalW image) (naturalH image)) (cols grid))
    as (kw & Ew & Hkw); [split; [lra|apply Rmax_l]|exact HM|exact Hc|].
  destruct (outTile_whole (naturalH image)
              (Rmax (naturalW image) (naturalH image)) (rows grid))
    as (kh & Eh & Hkh); [split; [lra|apply Rmax_r]|exact HM|exact Hr|].
  assert (EoW : outTileW image grid = IZR kw) by exact Ew.
  assert (EoH : outTileH image grid = IZR kh) by exact Eh.
  rewrite EoW, EoH.
  assert (Emin : Rmin (IZR kw) (IZR kh) = IZR (Z.min kw kh)).
  { unfold Rmin. destruct (Rle_dec (IZR kw) (IZR kh)) as [H|H].
    - apply le_IZR in H. now rewrite Z.min_l.
    - rewrite Z.min_r; [reflexivity|].
      destruct (Z.le_gt_cases kh kw) as [|Hgt]; [assumption|].
      exfalso. apply H. apply IZR_le. lia. }
  rewrite Emin. unfold Math_floor. rewrite pad_floor by lia. reflexivity.
Qed.

End SizeFacts.

(** ** Claims on the generated pieces *)

Section GenerationClaims.
Import Geometry.
Local Open Scope R_scope.

Lemma pieces_of_tiles {image grid edges tiles pieces} (p : Piece) :
  Forall2 (pieceOf image grid edges) tiles pieces ->
  In p pieces ->
  exists rc, In rc tiles /\ pieceOf image grid edges rc p.
Proof.
  intros HF. induction HF as [|rc q tiles' pieces' Hq HF IH]; cbn.
  - contradiction.
  - intros [->|Hin]; [eauto|].
    destruct (IH Hin) as (rc' & Hrc' & Hp). eauto.
Qed.

(** C8, as the code has it.  [generatePieces] returns, and every piece
    it returns has [pad = max(6, floor(min(tileW, tileH) * 0.18))],
    [outW = tileW + 2 pad], [outH = tileH + 2 pad], and a tile size of
    [max(10, floor(side / n * scale))] with
    [scale = min(1, 900 / max(imageW, imageH))], every quotient and
    product being the double that the code computes ([tileW] and
    [tileH] are the output tile sizes stored in the piece).  For the
    pad, the floor of the double product with the literal [0.18] is
    the floor of the exact product with eighteen hundredths.  The
    board side [cols * tileW] (and [rows * tileH]) is at most 900
    whenever the scaled tile is at least 10 pixels, so that the
    minimum of 10 does not apply.  The image is between 1 and 2^32
    pixels wide and high. *)
Theorem generated_piece_sizes (rng : Type) (Math_random : rng -> R * rng)
    (image : Image) (grid : Grid) (opts : Options) (g : rng) :
  1 <= naturalW image <= 4294967296 ->
  1 <= naturalH image <= 4294967296 ->
  let imageW := naturalW image in
  let imageH := naturalH image in
  let scale := Rmin 1 (Double.round (900 / Rmax imageW imageH)) in
  let scaledW :=
    Double.round (Double.round (imageW / IZR (cols grid)) * scale) in
  let scaledH :=
    Double.round (Double.round (imageH / IZR (rows grid)) * scale) in
  exists pieces,
    fst (generatePieces rng Math_random image grid opts g) = Some pieces
    /\ forall p, In p pieces ->
         Types.tileW p = Rmax 10 (IZR (Zfloor scaledW))
         /\ Types.tileH p = Rmax 10 (IZR (Zfloor scaledH))
         /\ Types.pad p
           = Rmax 6 (IZR (Zfloor
                       (Double.round (Rmin (Types.tileW p) (Types.tileH p)
                                      * Double.round 0.18))))
         /\ Types.pad p
           = Rmax 6 (IZR (Zfloor
                       (Rmin (Types.tileW p) (Types.tileH p) * 0.18)))
         /\ Types.outW p = Types.tileW p + 2 * Types.pad p
         /\ Types.outH p = Types.tileH p + 2 * Types.pad p
         /\ (10 <= IZR (Zfloor scaledW) ->
             IZR (cols grid) * Types.tileW p <= 900)
         /\ (10 <= IZR (Zfloor scaledH) ->
             IZR (rows grid) * Types.tileH p <= 900).
Proof.
  intros HW HH imageW imageH scale scaledW scaledH.
  destruct (generatePieces_returns rng Math_random image grid opts g)
    as (pieces & E & HF).
  exists pieces. split; [exact E|]. intros p Hin.
  destruct (pieces_of_tiles p HF Hin) as ([r c] & Hrc & Hp).
  destruct (tiles_inside grid r c Hrc) as [Hr Hc].
  destruct Hp as (_ & _ & _ & _ & _ & _ & EoW & EoH & EtW & EtH & Epad & _).
  rewrite EoW, EoH, EtW, EtH, Epad.
  assert (HM : Rmax imageW imageH <= 4294967296)
    by (unfold imageW, imageH; apply Rmax_lub; lra).
  split; [reflexivity|]. split; [reflexivity|]. split; [reflexivity|].
  split; [apply (pad_ideal image grid HW HH); lia|].
  split; [unfold outW; lra|]. split; [unfold outH; lra|].
  split.
  - intros H10. unfold outTileW. rewrite Rmax_right by exact H10.
    apply (board_capped imageW (Rmax imageW imageH) (cols grid));
      [split; [apply HW|apply Rmax_l]|exact HM|lia|exact H10].
  - intros H10. unfold outTileH. rewrite Rmax_right by exact H10.
    apply (board_capped imageH (Rmax imageW imageH) (rows grid));
      [split; [apply HH|apply Rmax_r]|exact HM|lia|exact H10].
Qed.

Lemma panorama_naturalW : naturalW panorama = 3000.
Proof.
  unfold naturalW, orElse. cbn. destruct (Req_dec_T 3000 0); [lra|reflexivity].
Qed.

Lemma panorama_naturalH : naturalH panorama = 300.
Proof.
  unfold naturalH, orElse. cbn. destruct (Req_dec_T 300 0); [lra|reflexivity].
Qed.

(** The tiles of the panorama, cut in 100 columns, are 30 pixels wide
    in the image and about 9 when scaled by 0.3: the minimum of 10
    applies. *)
Lemma panorama_outTileW : outTileW panorama strips = 10.
Proof.
  unfold outTileW, tileW64, scale64, maxBoardPx.
  rewrite panorama_naturalW, panorama_naturalH. cbn [cols strips].
  rewrite (Rmax_left 3000 300) by lra.
  replace (3000 / 100) with 30 by lra. rewrite (round_int 30) by lia.
  replace (900 / 3000) with 0.3 by lra.
  pose proof eps_small as [He0 He1].
  destruct (round_bounds 0.3 (normal_above 0.3 ltac:(lra))) as [Hs1 Hs2].
  rewrite (Rmin_right 1 (Double.round 0.3)) by nra.
  assert (Hlo : 8 <= 30 * Double.round 0.3) by nra.
  assert (Hhi : 30 * Double.round 0.3 <= 9 + / 1000) by nra.
  assert (Hn : / 8388608 <= 30 * Double.round 0.3) by lra.
  destruct (round_bounds _ (normal_above _ Hn)) as [_ Hy].
  pose proof (Math_floor_le (Double.round (30 * Double.round 0.3))) as Hfl.
  apply Rmax_left. nra.
Qed.

(** C8, as stated, fails: for the panorama, which [findBestGrid]
    cuts in 10 rows of 100 when 1000 pieces are asked for, the tiles
    are raised to the minimum of 10 pixels and the board is 1000
    pixels wide. *)
Lemma board_wider_than_900 :
  exists pieces p,
    fst (generatePieces tape replay panorama strips (mkOptions false) [])
      = Some pieces
    /\ In p pieces
    /\ 900 < IZR (cols strips) * Types.tileW p.
Proof.
  destruct (generatePieces_returns tape replay panorama strips
              (mkOptions false) []) as (pieces & E & HF).
  assert (Htiles : exists t, tiles strips = (0%nat, 0%nat) :: t)
    by (eexists; reflexivity).
  destruct Htiles as (t & Et). rewrite Et in HF.
  apply Forall2_cons_inv_l in HF. destruct HF as (p & rest & Hp & _ & ->).
  exists (p :: rest), p. split; [exact E|]. split; [left; reflexivity|].
  destruct Hp as (_ & _ & _ & _ & _ & _ & _ & _ & EtW & _).
  rewrite EtW, panorama_outTileW. cbn [cols strips]. lra.
Qed.

(** C9.  For every piece that [generatePieces] returns for an image of
    at least one pixel each way: the rectangle of the image read behind
    the clip path starts at the clamped corner, lies within
    [[0, imageW] x [0, imageH]], and is drawn at the offset
    [-pad + (clampedX0 - srcX) * scale], [-pad + (clampedY0 - srcY) *
    scale]; the rectangle read for the underlay lies within the image
    too. *)
Theorem source_reads_clamped (rng : Type) (Math_random : rng -> R * rng)
    (image : Image) (grid : Grid) (opts : Options) (g : rng) :
  1 <= naturalW image -> 1 <= naturalH image ->
  exists pieces,
    fst (generatePieces rng Math_random image grid opts g) = Some pieces
    /\ forall p, In p pieces ->
         let d := drawn (imgUrl p) in
         let srcX := srcX image grid (col p) in
         let srcY := srcY image grid (row p) in
         sx d = clamp srcX 0 (naturalW image)
         /\ sy d = clamp srcY 0 (naturalH image)
         /\ 0 <= sx d /\ sx d + sw d <= naturalW image
         /\ 0 <= sy d /\ sy d + sh d <= naturalH image
         /\ dx d = - Types.pad p + (sx d - srcX) * scale image
         /\ dy d = - Types.pad p + (sy d - srcY) * scale image
         /\ 0 <= sx (rectUrl p)
         /\ sx (rectUrl p) + sw (rectUrl p) <= naturalW image
         /\ 0 <= sy (rectUrl p)
         /\ sy (rectUrl p) + sh (rectUrl p) <= naturalH image.
Proof.
  intros HW HH.
  destruct (generatePieces_returns rng Math_random image grid opts g)
    as (pieces & E & HF).
  exists pieces. split; [exact E|]. intros p Hin.
  destruct (pieces_of_tiles p HF Hin) as ([r c] & Hrc & Hp).
  destruct (tiles_inside grid r c Hrc) as [Hr Hc].
  destruct Hp as (_ & Erow & Ecol & _ & Edrawn & Erect & _ & _ & _ & _ & Epad & _).
  cbn [fst snd] in *. cbn zeta. rewrite Edrawn, Erect, Erow, Ecol, Epad.
  cbn [sx sy sw sh dx dy clipDraw rectDraw].
  assert (Hm : 0 < Rmax (naturalW image) (naturalH image)).
  { pose proof (Rmax_l (naturalW image) (naturalH image)). lra. }
  pose proof (padSrc_min image grid Hm) as Hp6.
  destruct (tile_span (naturalW image) (cols grid) c ltac:(lra) ltac:(lia))
    as (HtW & HcW & HsW).
  destruct (tile_span (naturalH image) (rows grid) r ltac:(lra) ltac:(lia))
    as (HtH & HrH & HsH).
  destruct (clamp_window (naturalW image) (INR c * tileW image grid)
              (tileW image grid) (pad image grid / scale image)
              HW HcW HsW HtW Hp6) as [Hx0 Hx1].
  destruct (clamp_window (naturalH image) (INR r * tileH image grid)
              (tileH image grid) (pad image grid / scale image)
              HH HrH HsH HtH Hp6) as [Hy0 Hy1].
  unfold clampX0, clampY0, realW, realH, clampX1, clampY1, destX, destY,
    srcX, srcY, srcW, srcH, padSrcX, padSrcY.
  fold (tileW image grid) in HtW, HcW, HsW.
  fold (tileH image grid) in HtH, HrH, HsH.
  repeat split; try reflexivity; try assumption; lra.
Qed.

End GenerationClaims.

(** ** The draws that build the edges *)

Section DrawFacts.
Import Geometry.
Variable rng : Type.
Variable Math_random : rng -> R * rng.

Lemma replays_random : replays Math_random 1 Math_random replay.
Proof.
  intros g n. cbn [Nat.add draws]. destruct (Math_random g) as [u g'].
  split; reflexivity.
Qed.

Lemma replays_ret {A} (a : A) : replays Math_random 0 (ret a) (ret a).
Proof. intros g n. split; reflexivity. Qed.

Lemma replays_bind {A B} k1 k2 (m : Rand rng A) m' (f : A -> Rand rng B) f' :
  replays Math_random k1 m m' ->
  (forall a, replays Math_random k2 (f a) (f' a)) ->
  replays Math_random (k1 + k2) (bind m f) (bind m' f').
Proof.
  intros Hm Hf g n. destruct (Hm g (k2 + n)%nat) as [Ha Hg].
  rewrite Nat.add_assoc in Ha, Hg. unfold bind.
  destruct (m g) as [a g1]. destruct (m' _) as [a' t1].
  cbn [fst snd] in Ha, Hg. subst a' t1. apply Hf.
Qed.

Lemma replays_count {A} k k' (m : Rand rng A) m' :
  k = k' -> replays Math_random k m m' -> replays Math_random k' m m'.
Proof. now intros ->. Qed.

Lemma replays_rand lo hi :
  replays Math_random 1 (rand rng Math_random lo hi) (rand tape replay lo hi).
Proof.
  apply (replays_count (1 + 0)); [reflexivity|].
  apply replays_bind; [apply replays_random|]. intros u. apply replays_ret.
Qed.

(** An edge spec takes four draws. *)
Lemma replays_randomSpec :
  replays Math_random 4 (randomSpec rng Math_random) (randomSpec tape replay).
Proof.
  apply (replays_count (1 + (1 + (1 + (1 + 0))))); [reflexivity|].
  unfold randomSpec.
  apply replays_bind; [apply replays_random|]. intros u.
  apply replays_bind; [apply replays_rand|]. intros w.
  apply replays_bind; [apply replays_rand|]. intros n.
  apply replays_bind; [apply replays_rand|]. intros s.
  apply replays_ret.
Qed.

Lemma replays_arrayFrom {A} k (f : Rand rng A) f' length :
  replays Math_random k f f' ->
  replays Math_random (length * k)
    (arrayFrom rng length f) (arrayFrom tape length f').
Proof.
  intros Hf. induction length as [|len IH]; cbn [arrayFrom Nat.mul].
  - apply replays_ret.
  - apply replays_bind; [exact Hf|]. intros a.
    apply (replays_count (len * k + 0)); [lia|].
    apply replays_bind; [exact IH|]. intros l. apply replays_ret.
Qed.

(** [buildEdges] takes four draws for each interior edge. *)
Lemma replays_buildEdges grid :
  replays Math_random (4 * interiorEdges grid)
    (buildEdges rng Math_random grid) (buildEdges tape replay grid).
Proof.
  unfold buildEdges.
  apply (replays_count
           (Z.to_nat (rows grid) * (Z.to_nat (Z.max 0 (cols grid - 1)) * 4)
            + (Z.to_nat (Z.max 0 (rows grid - 1)) * (Z.to_nat (cols grid) * 4)
               + 0))); [unfold interiorEdges; lia|].
  apply replays_bind.
  - apply replays_arrayFrom, replays_arrayFrom, replays_randomSpec.
  - intros v. apply replays_bind.
    + apply replays_arrayFrom, replays_arrayFrom, replays_randomSpec.
    + intros h. apply replays_ret.
Qed.

(** The edges are those that the replay of the draws builds. *)
Lemma buildEdges_replayed grid g :
  fst (buildEdges rng Math_random grid g)
  = fst (buildEdges tape replay grid
           (draws Math_random (4 * interiorEdges grid) g)).
Proof.
  destruct (replays_buildEdges grid g 0) as [H _].
  now rewrite Nat.add_0_r in H.
Qed.

End DrawFacts.

(** ** Instances *)

Section GeometryInstances.
Import Geometry.
Local Open Scope R_scope.

Lemma photo_naturalW : naturalW photo = 1200.
Proof.
  unfold naturalW, orElse. cbn. destruct (Req_dec_T 1200 0); [lra|reflexivity].
Qed.

Lemma photo_naturalH : naturalH photo = 800.
Proof.
  unfold naturalH, orElse. cbn. destruct (Req_dec_T 800 0); [lra|reflexivity].
Qed.


Lemma shared_edges_complementary_witness :
  let grid := mkGrid 2 2 4 in
  let edges := fst (buildEdges tape replay grid [0.25; 0.5; 0.5; 0.75]) in
  (exists upper lower,
      pieceEdges grid edges 0 0 = Some upper
      /\ pieceEdges grid edges 1 0 = Some lower
      /\ sign (top lower) = (- sign (bottom upper))%Z
      /\ trace (0, 0) (topPath 100 80 14 lower)
         = backwards (map (shiftSegment 0 (- 80))
             (trace (100, 80) (bottomPath 100 80 14 upper))))
  /\ (exists lft rgt,
      pieceEdges grid edges 0 0 = Some lft
      /\ pieceEdges grid edges 0 1 = Some rgt
      /\ sign (left rgt) = (- sign (right lft))%Z
      /\ trace (0, 80) (leftPath 100 80 14 rgt)
         = backwards (map (shiftSegment (- 100) 0)
             (trace (100, 0) (rightPath 100 80 14 lft)))).
Proof.
  intros grid edges.
  destruct (shared_edges_complementary tape replay [0.25; 0.5; 0.5; 0.75]
              grid 100 80 14 ltac:(lra) ltac:(lra)) as [Hh Hv].
  split.
  - destruct (Hh 0%Z 0%Z ltac:(lia) ltac:(cbn; lia) ltac:(cbn; lia))
      as (upper & lower & Eu & El & _ & Hs & _ & _ & _ & Ht).
    exists upper, lower. auto.
  - destruct (Hv 0%Z 0%Z ltac:(cbn; lia) ltac:(lia) ltac:(cbn; lia))
      as (lft & rgt & El & Er & _ & Hs & _ & _ & _ & Ht).
    exists lft, rgt. auto.
Defined.

(** Rounding shows in the tile size.  For the screen capture cut in
    10 columns the exact tile is [1366 / 10 * (900 / 1366) = 90]
    pixels wide; the doubles are 136.6, 0.6588579795021962 and their
    product 89.99999999999999, and the tile is 89 pixels wide. *)
Lemma round_literal (x : R) (k : Z) (n : Z) (u : R) :
  powerRZ 2 k <= x < powerRZ 2 (k + 1) ->
  powerRZ 2 (- Z.max (k - 52) (-1074)) = u ->
  Rabs (IZR n - x * u) < / 2 ->
  Double.round x = IZR n / u.
Proof.
  intros Hk Eu Hn. pose proof (powerRZ_2_pos k) as Hp.
  rewrite (round_cert x k n).
  - rewrite <- Eu, powerRZ_neg'. unfold Rdiv. now rewrite Rinv_inv.
  - rewrite Rabs_right by lra. exact Hk.
  - rewrite Eu. exact Hn.
Qed.

Lemma capture_tileW64 :
  tileW64 capture (mkGrid 5 10 50) = 4806185227334451 / 35184372088832.
Proof.
  unfold tileW64, naturalW, orElse. cbn [naturalWidth width capture cols].
  destruct (Req_dec_T 1366 0); [lra|].
  apply (round_literal _ 7).
  - rewrite !powerRZ_2_IZR by lia.
    change (IZR (2 ^ 7)) with 128. change (IZR (2 ^ (7 + 1))) with 256. lra.
  - change (- Z.max (7 - 52) (-1074))%Z with 45%Z.
    rewrite powerRZ_2_IZR by lia. reflexivity.
  - apply Rabs_def1; lra.
Qed.

Lemma capture_scale64 :
  scale64 capture = 5934465101952337 / 9007199254740992.
Proof.
  unfold scale64, naturalW, naturalH, orElse, maxBoardPx.
  cbn [naturalWidth width naturalHeight height capture].
  destruct (Req_dec_T 1366 0); [lra|]. destruct (Req_dec_T 768 0); [lra|].
  rewrite (Rmax_left 1366 768) by lra.
  rewrite (round_literal (900 / 1366) (-1) 5934465101952337 9007199254740992).
  - apply Rmin_right. lra.
  - change (-1 + 1)%Z with 0%Z. change (-1)%Z with (- (1))%Z.
    rewrite powerRZ_neg', powerRZ_O. change (powerRZ 2 1) with (2 * 1). lra.
  - change (- Z.max (-1 - 52) (-1074))%Z with 53%Z.
    rewrite powerRZ_2_IZR by lia. reflexivity.
  - apply Rabs_def1; lra.
Qed.

Example capture_tile_89 :
  tileW capture (mkGrid 5 10 50) * scale capture = 90
  /\ outTileW capture (mkGrid 5 10 50) = 89.
Proof.
  split.
  - unfold tileW, scale, naturalW, naturalH, orElse, maxBoardPx.
    cbn [naturalWidth width naturalHeight height capture cols].
    destruct (Req_dec_T 1366 0); [lra|]. destruct (Req_dec_T 768 0); [lra|].
    rewrite (Rmax_left 1366 768) by lra.
    rewrite (Rmin_right 1 (900 / 1366)) by lra. lra.
  - unfold outTileW. rewrite capture_tileW64, capture_scale64.
    rewrite (round_literal _ 6 6333186975989759 70368744177664).
    + unfold Math_floor. rewrite (Zfloor_eq 89) by lra.
      apply Rmax_right. lra.
    + rewrite !powerRZ_2_IZR by lia.
      change (IZR (2 ^ 6)) with 64. change (IZR (2 ^ (6 + 1))) with 128. lra.
    + change (- Z.max (6 - 52) (-1074))%Z with 46%Z.
      rewrite powerRZ_2_IZR by lia. reflexivity.
    + apply Rabs_def1; lra.
Qed.

(** The photo cut in 3 columns: tiles of 400 pixels, scaled by 0.75 to
    300, every step exact. *)
Lemma photo_scaledW :
  Double.round
    (Double.round (naturalW photo / IZR 3)
     * Rmin 1 (Double.round (900 / Rmax (naturalW photo) (naturalH photo))))
  = 300.
Proof.
  rewrite photo_naturalW, photo_naturalH.
  rewrite (Rmax_left 1200 800) by lra.
  replace (1200 / 3) with 400 by lra. rewrite (round_int 400) by lia.
  replace (900 / 1200) with (IZR 3 * powerRZ 2 (-2))
    by (change (powerRZ 2 (-2)) with (/ (2 * (2 * 1))); lra).
  rewrite (round_exact 3 (-2)) by lia.
  change (powerRZ 2 (-2)) with (/ (2 * (2 * 1))).
  rewrite (Rmin_right 1 (3 * / (2 * (2 * 1)))) by lra.
  replace (400 * (3 * / (2 * (2 * 1)))) with 300 by lra.
  apply (round_int 300). lia.
Qed.

Lemma generated_piece_sizes_witness :
  exists pieces,
    fst (generatePieces tape replay photo (mkGrid 2 3 6) (mkOptions false) [])
      = Some pieces
    /\ forall p, In p pieces ->
         Types.tileW p = 300
         /\ Types.pad p
           = Rmax 6 (IZR (Zfloor
                       (Rmin (Types.tileW p) (Types.tileH p) * 0.18)))
         /\ Types.outW p = Types.tileW p + 2 * Types.pad p
         /\ Types.outH p = Types.tileH p + 2 * Types.pad p
         /\ IZR 3 * Types.tileW p <= 900.
Proof.
  destruct (generated_piece_sizes tape replay photo (mkGrid 2 3 6)
              (mkOptions false) [])
    as (pieces & E & H).
  - rewrite photo_naturalW. lra.
  - rewrite photo_naturalH. lra.
  - exists pieces. split; [exact E|]. intros p Hp.
    destruct (H p Hp) as (HtW & _ & _ & Hpad & HoW & HoH & Hcap & _).
    cbn [cols] in HtW, Hcap. rewrite photo_scaledW, ZfloorZ in HtW, Hcap.
    rewrite (Rmax_right 10 300) in HtW by lra.
    split; [exact HtW|]. split; [exact Hpad|]. split; [exact HoW|].
    split; [exact HoH|]. apply Hcap. lra.
Defined.

Lemma source_reads_clamped_witness :
  exists pieces,
    fst (generatePieces tape replay photo (mkGrid 2 3 6) (mkOptions false) [])
      = Some pieces
    /\ forall p, In p pieces ->
         0 <= sx (drawn (imgUrl p))
         /\ sx (drawn (imgUrl p)) + sw (drawn (imgUrl p)) <= naturalW photo
         /\ 0 <= sy (drawn (imgUrl p))
         /\ sy (drawn (imgUrl p)) + sh (drawn (imgUrl p)) <= naturalH photo.
Proof.
  destruct (source_reads_clamped tape replay photo (mkGrid 2 3 6)
              (mkOptions false) [])
    as (pieces & E & H).
  - rewrite photo_naturalW. lra.
  - rewrite photo_naturalH. lra.
  - exists pieces. split; [exact E|]. intros p Hp.
    destruct (H p Hp) as (_ & _ & H1 & H2 & H3 & H4 & _). auto.
Defined.

(** C2, as the code has it.  [generatePieces] takes no seed: the edge
    specs are the values of [Math.random], four draws for each
    interior edge, whatever the options.  Two runs for the same grid
    in which [Math.random] returns the same values for these draws
    build the same edge matrices. *)
Theorem edges_follow_draws (rng1 rng2 : Type)
    (random1 : rng1 -> R * rng1) (random2 : rng2 -> R * rng2)
    (grid : Grid) (opts1 opts2 : Options) (g1 : rng1) (g2 : rng2) :
  draws random1 (4 * interiorEdges grid) g1
    = draws random2 (4 * interiorEdges grid) g2 ->
  fst (generatePieces_edges rng1 random1 grid opts1 g1)
  = fst (generatePieces_edges rng2 random2 grid opts2 g2).
Proof.
  intros Hdraws. unfold generatePieces_edges.
  rewrite (buildEdges_replayed rng1 random1 grid g1).
  rewrite (buildEdges_replayed rng2 random2 grid g2).
  now rewrite Hdraws.
Qed.

Lemma edges_follow_draws_witness :
  fst (generatePieces_edges tape replay (mkGrid 1 2 2) (mkOptions false)
         [0.25; 0.5; 0.5; 0.5; 0.125])
  = fst (generatePieces_edges nat
           (fun n => (match n with O => 0.25 | _ => 0.5 end, S n))
           (mkGrid 1 2 2) (mkOptions true) 0%nat).
Proof.
  apply (edges_follow_draws tape nat replay
           (fun n => (match n with O => 0.25 | _ => 0.5 end, S n))
           (mkGrid 1 2 2) (mkOptions false) (mkOptions true)).
  reflexivity.
Defined.

(** C2, as stated, fails: there is no seed to hold fixed.  Two runs of
    [generatePieces] with the same arguments, one where [Math.random]
    first returns 0.25 and one where it first returns 0.75, cut the
    only interior edge of a 1 by 2 grid with opposite signs. *)
Lemma identical_calls_different_edges :
  let grid := mkGrid 1 2 2 in
  let opts := mkOptions false in
  fst (generatePieces_edges tape replay grid opts [0.25])
  <> fst (generatePieces_edges tape replay grid opts [0.75]).
Proof.
  unfold generatePieces_edges, buildEdges. cbn [rows cols].
  change (Z.to_nat 1) with 1%nat.
  change (Z.to_nat (Z.max 0 (2 - 1))) with 1%nat.
  change (Z.to_nat (Z.max 0 (1 - 1))) with 0%nat.
  cbv [arrayFrom bind ret randomSpec rand replay fst].
  destruct (Rlt_dec 0.25 0.5) as [_|H]; [|lra].
  destruct (Rlt_dec 0.75 0.5) as [H|_]; [lra|].
  intros Heq. discriminate Heq.
Qed.

End GeometryInstances.

(** ** The session: arrays *)

Section ArrayFacts.
Import Session.

Lemma occurrences_nil i : occurrences i [] = 0%nat.
Proof. reflexivity. Qed.

Lemma occurrences_cons i x l :
  occurrences i (x :: l)
  = ((if decide (x = i) then 1 else 0) + occurrences i l)%nat.
Proof.
  unfold occurrences. rewrite filter_cons. destruct (decide (x = i)); reflexivity.
Qed.

Lemma occurrences_app i l1 l2 :
  occurrences i (l1 ++ l2) = (occurrences i l1 + occurrences i l2)%nat.
Proof. unfold occurrences. now rewrite filter_app, length_app. Qed.

Lemma occurrences_zero i l : occurrences i l = 0%nat <-> i ∉ l.
Proof.
  induction l as [|x l IH].
  - split; [intros _; apply not_elem_of_nil|reflexivity].
  - rewrite occurrences_cons, not_elem_of_cons.
    destruct (decide (x = i)) as [->|Hne].
    + split; [discriminate|intros [H _]; contradiction].
    + cbn. rewrite IH. split; [intros H; split; [congruence|exact H]|tauto].
Qed.

(** Replacing the element at an index moves one occurrence. *)
Lemma occurrences_insert i (l : list nat) k a b :
  l !! k = Some a ->
  (occurrences i (<[k := b]> l) + (if decide (a = i) then 1 else 0)
   = occurrences i l + (if decide (b = i) then 1 else 0))%nat.
Proof.
  intros Hk.
  assert (Hlen : (k < length l)%nat) by (eapply lookup_lt_Some; eassumption).
  rewrite insert_take_drop by assumption.
  rewrite <- (take_drop_middle l k a Hk) at 3.
  rewrite !occurrences_app, !occurrences_cons. lia.
Qed.

Lemma occurrences_swap i (l : list nat) j k :
  occurrences i (Geometry.swap l j k) = occurrences i l.
Proof.
  unfold Geometry.swap.
  destruct (l !! j) as [a|] eqn:Ej; [|reflexivity].
  destruct (l !! k) as [b|] eqn:Ek; [|reflexivity].
  pose proof (occurrences_insert i l k b a Ek) as H1.
  assert (Ej' : <[k := a]> l !! j = Some a).
  { destruct (decide (k = j)) as [->|Hne].
    - apply list_lookup_insert_eq. eapply lookup_lt_Some; eassumption.
    - rewrite list_lookup_insert_ne by assumption. exact Ej. }
  pose proof (occurrences_insert i (<[k := a]> l) j a b Ej') as H2.
  lia.
Qed.

Lemma indexOf_Some arr i idx :
  indexOf arr i = Some idx -> arr !! idx = Some i.
Proof.
  unfold indexOf. destruct (list_find _ arr) as [[k x]|] eqn:E; [|discriminate].
  cbn. intros [= <-]. apply list_find_Some in E as (Hk & -> & _). exact Hk.
Qed.

Lemma indexOf_None arr i : indexOf arr i = None -> i ∉ arr.
Proof.
  unfold indexOf. destruct (list_find _ arr) as [[k x]|] eqn:E; [discriminate|].
  intros _. apply list_find_None in E. rewrite Forall_forall in E.
  intros Hin. exact (E i Hin eq_refl).
Qed.

Lemma occurrences_removeFromArray i arr x :
  (occurrences i (removeFromArray arr x)
   = occurrences i arr - (if decide (x = i) then 1 else 0))%nat.
Proof.
  unfold removeFromArray. destruct (indexOf arr x) as [idx|] eqn:E.
  - apply indexOf_Some in E.
    rewrite delete_take_drop.
    rewrite <- (take_drop_middle arr idx x E) at 3.
    rewrite !occurrences_app, occurrences_cons. lia.
  - apply indexOf_None, occurrences_zero in E.
    destruct (decide (x = i)) as [->|]; lia.
Qed.

Lemma arraySet_lookup arr i x : arraySet arr i x !! i = Some x.
Proof.
  unfold arraySet. destruct (decide (i < length arr)%nat).
  - now apply list_lookup_insert_eq.
  - rewrite lookup_app_r by lia.
    rewrite lookup_app_r by (rewrite length_replicate; lia).
    rewrite length_replicate.
    replace (i - length arr - (i - length arr))%nat with 0%nat by lia.
    reflexivity.
Qed.

Lemma arraySet_inside arr i x :
  (i < length arr)%nat -> arraySet arr i x = <[i := x]> arr.
Proof. intros H. unfold arraySet. destruct (decide _); [reflexivity|lia]. Qed.

Lemma arraySet_length arr i x :
  (i < length arr)%nat -> length (arraySet arr i x) = length arr.
Proof. intros H. rewrite arraySet_inside by assumption. apply length_insert. Qed.

(** Writing the cell [i] leaves the piece of every other cell. *)
Lemma arraySet_other arr i x k v :
  k <> i ->
  arraySet arr i x !! k = Some (Some v) <-> arr !! k = Some (Some v).
Proof.
  intros Hk. unfold arraySet. destruct (decide (i < length arr)%nat).
  - now rewrite list_lookup_insert_ne by auto.
  - destruct (decide (k < length arr)%nat).
    + now rewrite lookup_app_l by assumption.
    + rewrite lookup_app_r by lia. rewrite (lookup_ge_None_2 arr k) by lia.
      split; [|discriminate].
      destruct (decide (k - length arr < i - length arr)%nat).
      * rewrite lookup_app_l by (rewrite length_replicate; lia).
        rewrite lookup_replicate_2 by lia. discriminate.
      * rewrite lookup_app_r by (rewrite length_replicate; lia).
        rewrite length_replicate.
        destruct (k - length arr - (i - length arr))%nat eqn:E; [lia|].
        cbn. discriminate.
Qed.

(** [removeFromArray] takes out the first occurrence. *)
Lemma removeFromArray_split (l1 l2 : list nat) (x : nat) :
  x ∉ l1 -> removeFromArray (l1 ++ x :: l2) x = l1 ++ l2.
Proof.
  intros Hx. unfold removeFromArray, indexOf.
  assert (E : list_find (λ y, y = x) (l1 ++ x :: l2) = Some (length l1, x)).
  { apply list_find_Some. split; [|split; [reflexivity|]].
    - now rewrite lookup_app_r, Nat.sub_diag by lia.
    - intros j y Hy Hj. rewrite lookup_app_l in Hy by assumption.
      intros ->. apply Hx. eapply list_elem_of_lookup_2. exact Hy. }
  rewrite E. cbn [fmap option_fmap option_map fst].
  rewrite delete_take_drop, take_app_length.
  replace (S (length l1)) with (length l1 + 1)%nat by lia.
  rewrite drop_app_add. reflexivity.
Qed.

Lemma removeFromArray_absent (l : list nat) (x : nat) :
  x ∉ l -> removeFromArray l x = l.
Proof.
  intros Hx. unfold removeFromArray, indexOf.
  assert (E : list_find (λ y, y = x) l = None).
  { apply list_find_None. rewrite Forall_forall. intros y Hy ->. contradiction. }
  now rewrite E.
Qed.

Lemma isNull_spec cells i :
  isNull cells i = true <-> cells !! i = None \/ cells !! i = Some None.
Proof.
  unfold isNull. destruct (cells !! i) as [[j|]|]; split; intros H;
    try discriminate; try reflexivity; auto;
    destruct H as [H|H]; discriminate.
Qed.

Lemma holds_spec cells i v :
  holds cells i v = true <-> cells !! i = Some (Some v).
Proof. unfold holds. apply bool_decide_eq_true. Qed.

End ArrayFacts.

(** ** The session on six pieces *)

Section SessionExamples.
Import Session.

Example place_upright :
  trayOrder (tryPlaceSelectedAtCell 4 (sixPieces R0)) = [3; 1; 0; 5; 2]%nat
  /\ placements (tryPlaceSelectedAtCell 4 (sixPieces R0))
     = [None; None; None; None; Some 4%nat; None]
  /\ placed <$> piecesById (tryPlaceSelectedAtCell 4 (sixPieces R0))
     = [false; false; false; false; true; false].
Proof. repeat split; reflexivity. Qed.

Example place_then_unplace :
  trayOrder (unplacePiece 4 (tryPlaceSelectedAtCell 4 (sixPieces R0)))
    = [4; 3; 1; 0; 5; 2]%nat
  /\ placements (unplacePiece 4 (tryPlaceSelectedAtCell 4 (sixPieces R0)))
     = [None; None; None; None; None; None].
Proof. split; reflexivity. Qed.

Example solve_all :
  trayOrder (solvePuzzle (sixPieces R90)) = []
  /\ placements (solvePuzzle (sixPieces R90))
     = [Some 0; Some 1; Some 2; Some 3; Some 4; Some 5]%nat
  /\ rotation <$> piecesById (solvePuzzle (sixPieces R90))
     = [R0; R0; R0; R0; R0; R0].
Proof. repeat split; reflexivity. Qed.

(** The two revisions differ on a piece that is on its cell but turned:
    the later one places it and asks for a rotation, the earlier one
    refuses it. *)
Example earlier_revision_refuses_turned :
  boardFlash (tryPlaceSelectedAtCell_earlier 4 (sixPieces R90)) = Some bad
  /\ placements (tryPlaceSelectedAtCell_earlier 4 (sixPieces R90))
     = placements (sixPieces R90)
  /\ boardFlash (tryPlaceSelectedAtCell 4 (sixPieces R90)) = Some warn
  /\ placements (tryPlaceSelectedAtCell 4 (sixPieces R90))
     = [None; None; None; None; Some 4%nat; None].
Proof. repeat split; reflexivity. Qed.

Example rotate_four_times :
  rotate90 (rotate90 (rotate90 (rotate90 R0))) = R0.
Proof. reflexivity. Qed.

End SessionExamples.

(** ** Claims on the session: placing a piece *)

Section PlacementClaims.
Import Session.

(** What [placePiece] does to the pieces: the piece of that id gets
    the flag, nothing else changes. *)
Lemma placePiece_pieces pieceId cellIndex s k q :
  piecesById s !! k = Some q ->
  exists q', piecesById (placePiece pieceId cellIndex s) !! k = Some q'
    /\ putDown q q' (if decide (k = pieceId) then true else placed q).
Proof.
  intros Hq. cbn [placePiece setPiecesById setPlacements setTrayOrder piecesById].
  destruct (decide (k = pieceId)) as [->|Hne].
  - rewrite Hq. exists (withPlaced q true). split.
    + apply list_lookup_insert_eq. eapply lookup_lt_Some; eassumption.
    + repeat split.
  - exists q. split.
    + destruct (piecesById s !! pieceId); [|exact Hq].
      rewrite list_lookup_insert_ne by auto. exact Hq.
    + repeat split.
Qed.

Lemma placePiece_pieces_length pieceId cellIndex s :
  length (piecesById (placePiece pieceId cellIndex s)) = length (piecesById s).
Proof.
  cbn [placePiece setPiecesById setPlacements setTrayOrder piecesById].
  destruct (piecesById s !! pieceId); [apply length_insert|reflexivity].
Qed.

(** C3.  With a piece [p] selected and a target cell [t]:
    [tryPlaceSelectedAtCell] accepts (any feedback but "bad") iff
    [p.id = t] and the cell is empty or already holds [p]; on
    acceptance the cell holds [p] afterwards; if moreover rotation is
    enabled and [p] is not upright, the selection is kept and the
    feedback is "warn"; if rotation is disabled or [p] is upright, the
    selection is cleared and the feedback is "good"; for any other
    target, the placements, the tray, the pieces and the selection are
    unchanged and the feedback is "bad".

    On acceptance at an empty cell the piece is placed: the piece of
    that id gets the [placed] flag and keeps its other fields, the
    other pieces are as they were, every other cell holds what it
    held, and the tray loses the first occurrence of the id.  On
    acceptance at the cell that holds [p] already, the pieces, the
    placements and the tray stay as they are.  The grid and the
    rotation setting never change. *)
Theorem attempt_place (s : State) (g : Grid) (sel t : nat) (p : Piece) :
  grid s = Some g ->
  selectedPieceId s = Some sel ->
  piecesById s !! sel = Some p ->
  let s' := tryPlaceSelectedAtCell t s in
  let correct :=
    id p = t
    /\ (placements s !! t = None \/ placements s !! t = Some None
        \/ placements s !! t = Some (Some (id p))) in
  let upright := rotationEnabled s = false \/ rotation p = R0 in
  (correct <-> boardFlash s' <> Some bad)
  /\ (correct -> placements s' !! t = Some (Some (id p)))
  /\ (correct -> ~ upright ->
      selectedPieceId s' = Some sel /\ boardFlash s' = Some warn)
  /\ (correct -> upright ->
      selectedPieceId s' = None /\ boardFlash s' = Some good)
  /\ (~ correct ->
      placements s' = placements s /\ trayOrder s' = trayOrder s
      /\ piecesById s' = piecesById s
      /\ selectedPieceId s' = selectedPieceId s
      /\ boardFlash s' = Some bad)
  /\ (correct -> placements s !! t <> Some (Some (id p)) ->
      (forall k q, piecesById s !! k = Some q ->
         exists q', piecesById s' !! k = Some q'
           /\ putDown q q' (if decide (k = id p) then true else placed q))
      /\ length (piecesById s') = length (piecesById s)
      /\ (forall k v, k <> t ->
            placements s' !! k = Some (Some v)
            <-> placements s !! k = Some (Some v))
      /\ (t < length (placements s) ->
          length (placements s') = length (placements s))
      /\ (id p ∉ trayOrder s -> trayOrder s' = trayOrder s)
      /\ (forall l1 l2, trayOrder s = l1 ++ id p :: l2 -> id p ∉ l1 ->
            trayOrder s' = l1 ++ l2))
  /\ (correct -> placements s !! t = Some (Some (id p)) ->
      piecesById s' = piecesById s /\ placements s' = placements s
      /\ trayOrder s' = trayOrder s)
  /\ grid s' = grid s
  /\ rotationEnabled s' = rotationEnabled s.
Proof.
  intros Hg Hsel Hp s' correct upright.
  assert (Hcorrect : correct <->
            bool_decide (id p = t)
            && (isNull (placements s) t || holds (placements s) t (id p))
            = true).
  { unfold correct.
    rewrite andb_true_iff, orb_true_iff, bool_decide_eq_true,
      isNull_spec, holds_spec. tauto. }
  assert (Hupright : upright <->
            rotationEnabled s && negb (negb (rotationEnabled s)
                                       || isR0 (rotation p)) = false).
  { unfold upright. destruct (rotationEnabled s), (rotation p); cbn;
      split; intros H; auto; try discriminate;
      destruct H as [H|H]; discriminate. }
  subst s'. unfold tryPlaceSelectedAtCell. rewrite Hg, Hsel, Hp.
  destruct (bool_decide (id p = t)
            && (isNull (placements s) t || holds (placements s) t (id p)))
    eqn:Eok.
  - assert (Hc : correct) by (now apply Hcorrect).
    set (s1 := if holds (placements s) t (id p) then s
               else placePiece (id p) t s).
    assert (Hcell : placements s1 !! t = Some (Some (id p))).
    { unfold s1. destruct (holds (placements s) t (id p)) eqn:Eh.
      - now apply holds_spec.
      - cbn. apply arraySet_lookup. }
    assert (Hfresh : placements s !! t <> Some (Some (id p)) ->
              s1 = placePiece (id p) t s).
    { intros Hne. unfold s1. destruct (holds (placements s) t (id p)) eqn:Eh;
        [|reflexivity]. apply holds_spec in Eh. contradiction. }
    assert (Hthere : placements s !! t = Some (Some (id p)) -> s1 = s).
    { intros He. unfold s1. apply holds_spec in He. now rewrite He. }
    assert (Hsame : grid s1 = grid s /\ rotationEnabled s1 = rotationEnabled s
                    /\ selectedPieceId s1 = selectedPieceId s).
    { unfold s1. destruct (holds (placements s) t (id p)); repeat split. }
    destruct Hsame as (Hgrid1 & Hrot1 & Hsel1).
    assert (Hplaced :
      placements s !! t <> Some (Some (id p)) ->
      (forall k q, piecesById s !! k = Some q ->
         exists q', piecesById s1 !! k = Some q'
           /\ putDown q q' (if decide (k = id p) then true else placed q))
      /\ length (piecesById s1) = length (piecesById s)
      /\ (forall k v, k <> t ->
            placements s1 !! k = Some (Some v)
            <-> placements s !! k = Some (Some v))
      /\ (t < length (placements s) ->
          length (placements s1) = length (placements s))
      /\ (id p ∉ trayOrder s -> trayOrder s1 = trayOrder s)
      /\ (forall l1 l2, trayOrder s = l1 ++ id p :: l2 -> id p ∉ l1 ->
            trayOrder s1 = l1 ++ l2)).
    { intros Hne. rewrite (Hfresh Hne).
      split; [intros k q Hq; now apply placePiece_pieces|].
      split; [apply placePiece_pieces_length|].
      split; [intros k v Hk; cbn; now apply arraySet_other|].
      split; [intros Ht; cbn; now apply arraySet_length|].
      split.
      - intros Hout. cbn. now apply removeFromArray_absent.
      - intros l1 l2 E Hout. cbn. rewrite E. now apply removeFromArray_split. }
    assert (Hkept :
      placements s !! t = Some (Some (id p)) ->
      piecesById s1 = piecesById s /\ placements s1 = placements s
      /\ trayOrder s1 = trayOrder s).
    { intros He. rewrite (Hthere He). repeat split. }
    destruct (rotationEnabled s
              && negb (negb (rotationEnabled s) || isR0 (rotation p)))
      eqn:Erot.
    + assert (Hnu : ~ upright) by (rewrite Hupright; congruence).
      split; [split; [intros _; cbn; discriminate|intros _; exact Hc]|].
      split; [intros _; exact Hcell|].
      split; [intros _ _; split; [cbn; now rewrite Hsel1|reflexivity]|].
      split; [intros _ Hu; contradiction|].
      split; [intros Hn; contradiction|].
      split; [intros _; exact Hplaced|].
      split; [intros _; exact Hkept|].
      split; [rewrite <- Hg; exact Hgrid1|exact Hrot1].
    + assert (Hu : upright) by (now apply Hupright).
      split; [split; [intros _; cbn; discriminate|intros _; exact Hc]|].
      split; [intros _; exact Hcell|].
      split; [intros _ Hnu; contradiction|].
      split; [intros _ _; split; reflexivity|].
      split; [intros Hn; contradiction|].
      split; [intros _; exact Hplaced|].
      split; [intros _; exact Hkept|].
      split; [rewrite <- Hg; exact Hgrid1|exact Hrot1].
  - assert (Hc : ~ correct) by (rewrite Hcorrect; congruence).
    split; [split; [intros H; contradiction|cbn; intros H; now contradiction H]|].
    split; [intros H; contradiction|].
    split; [intros H; contradiction|].
    split; [intros H; contradiction|].
    split; [intros _; repeat split; try reflexivity; exact Hsel|].
    split; [intros H; contradiction|].
    split; [intros H; contradiction|].
    split; [exact Hg|reflexivity].
Qed.

End PlacementClaims.

(** ** The session: tray and board *)

Section SharedFacts.
Import Session.

Lemma shared_occurrences n tray tray' cells :
  (forall i, occurrences i tray' = occurrences i tray) ->
  shared n tray cells -> shared n tray' cells.
Proof.
  intros Hocc (Hlen & Hown & Halt). repeat split; try assumption.
  intros i Hi. rewrite Hocc. auto.
Qed.

Lemma shared_place n tray cells c :
  shared n tray cells -> (c < n)%nat -> isNull cells c = true ->
  shared n (removeFromArray tray c) (arraySet cells c (Some c)).
Proof.
  intros (Hlen & Hown & Halt) Hc Hnull.
  rewrite arraySet_inside by lia. repeat split.
  - now rewrite length_insert.
  - intros i j. destruct (decide (c = i)) as [->|Hne].
    + rewrite list_lookup_insert_eq by lia. congruence.
    + rewrite list_lookup_insert_ne by assumption. apply Hown.
  - intros i Hi. rewrite occurrences_removeFromArray.
    destruct (decide (c = i)) as [->|Hne].
    + left. rewrite list_lookup_insert_eq by lia. split; [reflexivity|].
      apply isNull_spec in Hnull.
      destruct (Halt i Hi) as [[Hcell _]|[_ Hocc]]; [|lia].
      destruct Hnull; congruence.
    + rewrite list_lookup_insert_ne by assumption.
      rewrite Nat.sub_0_r. auto.
Qed.

Lemma shared_unplace n tray cells pieceId :
  shared n tray cells ->
  shared n
    (if bool_decide (pieceId ∈ tray) then tray else pieceId :: tray)
    (match list_find (λ x, x = Some pieceId) cells with
     | None => cells
     | Some (idx, _) => <[idx := None]> cells
     end).
Proof.
  intros (Hlen & Hown & Halt).
  destruct (list_find _ cells) as [[idx x]|] eqn:Efind.
  - apply list_find_Some in Efind as (Hidx & -> & _).
    assert (pieceId = idx) as -> by (now apply Hown).
    assert (Hin : (idx < n)%nat).
    { rewrite <- Hlen. eapply lookup_lt_Some. eassumption. }
    assert (Hocc : occurrences idx tray = 0%nat).
    { destruct (Halt idx Hin) as [[_ H]|[H _]]; [exact H|congruence]. }
    rewrite bool_decide_eq_false_2 by (now apply occurrences_zero).
    repeat split.
    + now rewrite length_insert.
    + intros i j. destruct (decide (idx = i)) as [->|Hne].
      * rewrite list_lookup_insert_eq by lia. discriminate.
      * rewrite list_lookup_insert_ne by assumption. apply Hown.
    + intros i Hi. rewrite occurrences_cons.
      destruct (decide (idx = i)) as [->|Hne].
      * right. rewrite list_lookup_insert_eq by lia. split; [reflexivity|lia].
      * rewrite list_lookup_insert_ne by assumption. cbn. auto.
  - apply list_find_None in Efind. rewrite Forall_forall in Efind.
    destruct (bool_decide (pieceId ∈ tray)) eqn:Ein;
      [repeat split; assumption|].
    apply bool_decide_eq_false in Ein. apply occurrences_zero in Ein.
    repeat split; try assumption.
    intros i Hi. rewrite occurrences_cons.
    destruct (decide (pieceId = i)) as [->|Hne]; [|cbn; auto].
    exfalso. destruct (Halt i Hi) as [[Hcell _]|[_ Hocc]]; [|lia].
    apply (Efind (Some i)); [|reflexivity].
    eapply list_elem_of_lookup_2. exact Hcell.
Qed.

Lemma shared_solved n : shared n [] (Some <$> seq 0 n).
Proof.
  repeat split.
  - now rewrite length_fmap, length_seq.
  - intros i j. rewrite list_lookup_fmap.
    destruct (seq 0 n !! i) as [k|] eqn:E; [|discriminate].
    apply lookup_seq in E as [-> _]. cbn. congruence.
  - intros i Hi. left. split; [|reflexivity].
    rewrite list_lookup_fmap, lookup_seq_lt by assumption. reflexivity.
Qed.

Lemma shared_start n tray :
  (forall i, (i < n)%nat -> occurrences i tray = 1%nat) ->
  shared n tray (replicate n None).
Proof.
  intros Hocc. repeat split.
  - apply length_replicate.
  - intros i j H. apply lookup_replicate in H as [H _]. discriminate.
  - intros i Hi. right. split; [|auto].
    now apply lookup_replicate_2.
Qed.

Lemma occurrences_seq i k n :
  occurrences i (seq k n)
  = (if decide (k <= i < k + n)%nat then 1 else 0)%nat.
Proof.
  revert k. induction n as [|n IH]; intros k; cbn [seq].
  - rewrite occurrences_nil. destruct (decide _); [lia|reflexivity].
  - rewrite occurrences_cons, IH.
    repeat destruct (decide _); lia.
Qed.

Lemma indexedById_insert pieces i p q :
  indexedById pieces -> pieces !! i = Some p -> id q = id p ->
  indexedById (<[i := q]> pieces).
Proof.
  intros Hidx Hp Hid j r.
  destruct (decide (i = j)) as [->|Hne].
  - rewrite list_lookup_insert_eq by (eapply lookup_lt_Some; eassumption).
    intros [= <-]. rewrite Hid. now apply Hidx.
  - rewrite list_lookup_insert_ne by assumption. apply Hidx.
Qed.

Lemma indexedById_map pieces (f : Piece -> Piece) :
  (forall p, id (f p) = id p) ->
  indexedById pieces -> indexedById (map f pieces).
Proof.
  intros Hf Hidx j r. change (map f pieces) with (f <$> pieces).
  rewrite list_lookup_fmap.
  destruct (pieces !! j) as [p|] eqn:E; [|discriminate].
  cbn. intros [= <-]. rewrite Hf. now apply Hidx.
Qed.

End SharedFacts.

(** ** The session: loading a puzzle *)

Section LoadFacts.
Import Geometry Session.
Variable rng : Type.
Variable Math_random : rng -> R * rng.

Lemma row_ids (C j : nat) : forall m i,
  map (λ rc : nat * nat, fst rc * C + snd rc)%nat
      (seq i m ≫= λ c : nat, [(j, c)])
  = seq (j * C + i) m.
Proof.
  induction m as [|m IH]; intros i; [reflexivity|].
  cbn [seq]. rewrite bind_cons. cbn [app map fst snd].
  f_equal. rewrite IH. f_equal. lia.
Qed.

Lemma rows_ids (C : nat) : forall m j,
  map (λ rc : nat * nat, fst rc * C + snd rc)%nat
      (seq j m ≫= λ r : nat, seq 0 C ≫= λ c : nat, [(r, c)])
  = seq (j * C) (m * C).
Proof.
  induction m as [|m IH]; intros j; [reflexivity|].
  cbn [seq]. rewrite bind_cons, map_app, row_ids, IH.
  replace (S m * C)%nat with (C + m * C)%nat by lia.
  rewrite seq_app. f_equal; f_equal; lia.
Qed.

Lemma tiles_ids grid :
  map (λ rc : nat * nat, fst rc * Z.to_nat (cols grid) + snd rc)%nat
      (tiles grid)
  = seq 0 (Z.to_nat (rows grid) * Z.to_nat (cols grid)).
Proof. unfold tiles. now rewrite rows_ids. Qed.

Lemma generated_ids image grid edges pieces :
  Forall2 (pieceOf image grid edges) (tiles grid) pieces ->
  map id pieces = seq 0 (Z.to_nat (rows grid) * Z.to_nat (cols grid))
  /\ Forall (λ p, placed p = false) pieces.
Proof.
  rewrite <- tiles_ids. generalize (tiles grid) as ts. intros ts HF.
  induction HF as [|rc p ts' ps Hp HF [IH1 IH2]]; cbn.
  - split; [reflexivity|constructor].
  - destruct Hp as (Hid & Hrest). split; [now rewrite Hid, IH1|].
    constructor; [|assumption].
    now destruct Hrest as (_ & _ & _ & _ & _ & _ & _ & _ & _ & _ & H).
Qed.

Lemma sortById_ascending l : forall k,
  map id l = seq k (length l) -> sortById l = l.
Proof.
  induction l as [|p l IH]; intros k Hids; [reflexivity|].
  cbn in Hids. injection Hids as Hp Hl.
  cbn [sortById fold_right]. fold (sortById l). rewrite (IH (S k) Hl).
  destruct l as [|q l']; [reflexivity|].
  cbn in Hl. injection Hl as Hq _. cbn [insertById].
  destruct (Nat.leb_spec (id p) (id q)); [reflexivity|lia].
Qed.

Lemma indexedById_ids l :
  map id l = seq 0 (length l) -> indexedById l.
Proof.
  intros Hids i p Hp.
  assert (H : (id <$> l) !! i = Some (id p))
    by (rewrite list_lookup_fmap, Hp; reflexivity).
  change (id <$> l) with (map id l) in H. rewrite Hids in H.
  apply lookup_seq in H. lia.
Qed.

Lemma occurrences_shuffleFrom i k : forall (arr : list nat) g,
  occurrences i (fst (shuffleFrom rng Math_random k arr g))
  = occurrences i arr.
Proof.
  induction k as [|k IH]; intros arr g; cbn [shuffleFrom].
  - reflexivity.
  - unfold bind. destruct (Math_random g) as [u g1].
    rewrite IH. apply occurrences_swap.
Qed.

Lemma occurrences_shuffleInPlace i (arr : list nat) g :
  occurrences i (fst (shuffleInPlace rng Math_random arr g))
  = occurrences i arr.
Proof. apply occurrences_shuffleFrom. Qed.

Lemma PIECE_COUNTS_positive n : In n PIECE_COUNTS -> (1 <= n)%Z.
Proof. cbn. intros H. repeat (destruct H as [<-|H]; [lia|]). contradiction. Qed.

End LoadFacts.

(** ** The session: what every state satisfies *)

Section SoundFacts.
Import Geometry Session.
Variable rng : Type.
Variable Math_random : rng -> R * rng.

Lemma sound_frame s s' :
  sound s ->
  indexedById (piecesById s') ->
  length (piecesById s') = length (piecesById s) ->
  grid s' = grid s ->
  shared (pieceCount s) (trayOrder s') (placements s') ->
  sound s'.
Proof.
  intros (Hidx & Hsh & Hgrid) Hidx' Hlen Hg Hsh'.
  unfold sound, pieceCount in *. rewrite Hlen, Hg. auto.
Qed.

Lemma sound_same s s' :
  piecesById s' = piecesById s -> trayOrder s' = trayOrder s ->
  placements s' = placements s -> grid s' = grid s ->
  sound s -> sound s'.
Proof.
  intros Hp Ht Hc Hg Hs. pose proof Hs as (Hidx & Hsh & Hgrid).
  apply (sound_frame s); rewrite ?Hp, ?Ht, ?Hc; auto.
Qed.

Lemma sound_empty : sound empty.
Proof.
  split; [|split; [split; [|split]|]].
  - intros i p H. discriminate.
  - reflexivity.
  - intros i j H. discriminate.
  - cbn. intros i Hi. lia.
  - intros g H. discriminate.
Qed.

Lemma sound_selectPiece pieceId s : sound s -> sound (selectPiece pieceId s).
Proof.
  intros Hs. unfold selectPiece.
  destruct (piecesById s !! pieceId) as [p|]; [|assumption].
  destruct (isPieceCorrect _ _ _); [assumption|].
  now apply (sound_same s).
Qed.

Lemma sound_setPieceRotation pieceId next s :
  sound s -> sound (setPieceRotation pieceId next s).
Proof.
  intros Hs. pose proof Hs as (Hidx & Hsh & Hgrid).
  apply (sound_frame s); try assumption; cbn;
    destruct (piecesById s !! pieceId) as [p|] eqn:E; try assumption;
    try reflexivity.
  - now apply (indexedById_insert _ _ p).
  - apply length_insert.
Qed.

Lemma sound_rotatePiece90 pieceId s :
  sound s -> sound (rotatePiece90 pieceId s).
Proof.
  intros Hs. unfold rotatePiece90.
  destruct (piecesById s !! pieceId); [|assumption].
  now apply sound_setPieceRotation.
Qed.

Lemma sound_unplacePiece pieceId s :
  sound s -> sound (unplacePiece pieceId s).
Proof.
  intros Hs. pose proof Hs as (Hidx & Hsh & Hgrid).
  apply (sound_frame s); try assumption; cbn.
  - destruct (piecesById s !! pieceId) as [p|] eqn:E; [|assumption].
    destruct (placed p); [|assumption].
    now apply (indexedById_insert _ _ p).
  - destruct (piecesById s !! pieceId) as [p|] eqn:E; [|reflexivity].
    destruct (placed p); [apply length_insert|reflexivity].
  - reflexivity.
  - now apply shared_unplace.
Qed.

Lemma sound_solvePuzzle s : sound s -> sound (solvePuzzle s).
Proof.
  intros Hs. pose proof Hs as (Hidx & Hsh & Hgrid).
  unfold solvePuzzle. destruct (grid s) as [g|] eqn:Eg; [|assumption].
  apply (sound_frame s); try assumption; cbn.
  - apply indexedById_map; [reflexivity|assumption].
  - apply length_map.
  - reflexivity.
  - rewrite (Hgrid g eq_refl). apply shared_solved.
Qed.

Lemma sound_placePiece p t s :
  sound s ->
  piecesById s !! id p = Some p ->
  id p = t -> isNull (placements s) t = true ->
  sound (placePiece (id p) t s).
Proof.
  intros Hs Hp Ht Hnull. pose proof Hs as (Hidx & Hsh & Hgrid).
  apply (sound_frame s); try assumption; cbn; rewrite ?Hp.
  - now apply (indexedById_insert _ _ p).
  - apply length_insert.
  - reflexivity.
  - subst t. apply shared_place; try assumption.
    eapply lookup_lt_Some. exact Hp.
Qed.

Lemma sound_tryPlaceSelectedAtCell t s :
  sound s -> sound (tryPlaceSelectedAtCell t s).
Proof.
  intros Hs. pose proof Hs as (Hidx & Hsh & Hgrid).
  unfold tryPlaceSelectedAtCell.
  destruct (grid s) as [g|]; [|assumption].
  destruct (selectedPieceId s) as [sel|]; [|assumption].
  destruct (piecesById s !! sel) as [p|] eqn:Ep; [|assumption].
  assert (Hid : id p = sel) by (now apply Hidx).
  destruct (bool_decide (id p = t)) eqn:Et; cbn [andb];
    [|now apply (sound_same s)].
  apply bool_decide_eq_true in Et.
  destruct (holds (placements s) t (id p)) eqn:Eh.
  - rewrite orb_true_r.
    destruct (rotationEnabled s && _); now apply (sound_same s).
  - rewrite orb_false_r.
    destruct (isNull (placements s) t) eqn:En; [|now apply (sound_same s)].
    assert (Hplaced : sound (placePiece (id p) t s)).
    { apply sound_placePiece; try assumption. now rewrite Hid. }
    destruct (rotationEnabled s && _);
      now apply (sound_same (placePiece (id p) t s)).
Qed.

Lemma sound_boardClick t s : sound s -> sound (boardClick t s).
Proof.
  intros Hs. unfold boardClick.
  destruct (grid s) as [g|] eqn:Eg; [|assumption].
  destruct (selectedPieceId s) as [sel|] eqn:Esel.
  - now apply sound_tryPlaceSelectedAtCell.
  - destruct (placements s !! t) as [[pid|]|]; try assumption.
    destruct (piecesById s !! pid) as [p|]; [|assumption].
    destruct (isPieceCorrect _ _ _); [assumption|].
    now apply (sound_same s).
Qed.

Lemma sound_reshuffle g s :
  sound s -> sound (reshuffle rng Math_random g s).
Proof.
  intros Hs. pose proof Hs as (Hidx & Hsh & Hgrid).
  apply (sound_frame s); try assumption; try reflexivity. cbn.
  eapply shared_occurrences; [|exact Hsh].
  intros i. apply occurrences_shuffleInPlace.
Qed.

Lemma sound_releaseSelection s : sound s -> sound (releaseSelection s).
Proof.
  intros Hs. unfold releaseSelection.
  destruct (negb (rotationEnabled s)); [assumption|].
  destruct (selectedPieceId s) as [sel|]; [|assumption].
  destruct (grid s) as [g|]; [|assumption].
  destruct (piecesById s !! sel) as [p|]; [|assumption].
  destruct (_ && _); [|assumption]. now apply (sound_same s).
Qed.

Lemma sound_uprightAll s : sound s -> sound (uprightAll s).
Proof.
  intros Hs. pose proof Hs as (Hidx & Hsh & Hgrid). unfold uprightAll.
  destruct (rotationEnabled s); [assumption|].
  apply (sound_frame s); try assumption; try reflexivity; cbn.
  - apply indexedById_map; [reflexivity|assumption].
  - apply length_map.
Qed.

Lemma sound_step a s : sound s -> sound (step rng Math_random a s).
Proof.
  intros Hs. destruct a; cbn [step].
  - now apply sound_selectPiece.
  - now apply sound_rotatePiece90.
  - now apply sound_boardClick.
  - now apply sound_tryPlaceSelectedAtCell.
  - now apply sound_unplacePiece.
  - now apply sound_solvePuzzle.
  - now apply sound_reshuffle.
  - now apply (sound_same s).
  - now apply sound_releaseSelection.
  - now apply sound_uprightAll.
Qed.

Lemma sound_loaded n aspect image opts rot generated g1 g1' g2 :
  In n PIECE_COUNTS ->
  generatePieces rng Math_random image (GridSolver.findBestGrid n aspect)
    opts g1 = (Some generated, g1') ->
  sound (loaded rng Math_random (GridSolver.findBestGrid n aspect) rot
           generated g2).
Proof.
  intros Hn Hgen. apply PIECE_COUNTS_positive in Hn.
  set (grid := GridSolver.findBestGrid n aspect) in *.
  destruct (findBestGrid_exact n aspect) as (Hmul & Hcount & Hpos).
  destruct (Hpos Hn) as [Hrows Hcols]. fold grid in Hmul, Hcount, Hrows, Hcols.
  destruct (generatePieces_returns rng Math_random image grid opts g1)
    as (pieces & E & HF).
  rewrite Hgen in E. cbn in E. injection E as <-.
  destruct (generated_ids _ _ _ _ HF) as [Hids _].
  assert (Hlen : length generated = Z.to_nat (count grid)).
  { rewrite <- (length_map id), Hids, length_seq, Hcount, <- Hmul.
    rewrite Z2Nat.inj_mul by lia. reflexivity. }
  assert (Hids' : map id generated = seq 0 (length generated)).
  { rewrite Hids, Hlen, Hcount, <- Hmul, Z2Nat.inj_mul by lia. reflexivity. }
  unfold loaded. rewrite (sortById_ascending generated 0 Hids').
  split; [|split; [split; [|split]|]];
    unfold pieceCount; cbn [piecesById trayOrder placements Session.grid].
  - now apply indexedById_ids.
  - rewrite length_replicate. now rewrite Hlen.
  - intros i j H. apply lookup_replicate in H as [H _]. discriminate.
  - intros i Hi. right. split.
    + apply lookup_replicate_2. lia.
    + rewrite occurrences_shuffleInPlace, Hids', occurrences_seq.
      destruct (decide _); [reflexivity|lia].
  - intros g [= <-]. now rewrite Hlen.
Qed.

Lemma reachable_sound s : reachable rng Math_random s -> sound s.
Proof.
  induction 1 as [|n aspect image opts rot generated g1 g1' g2 Hn Hgen|a s _ IH].
  - apply sound_empty.
  - eapply sound_loaded; eassumption.
  - now apply sound_step.
Qed.

(** On a board whose cells hold their own ids, an id occurs as often
    as its own cell holds it. *)
Lemma occurrences_last_cell i (x : option nat) :
  occurrences i (omap (λ x, x) [x])
  = (if decide (x = Some i) then 1 else 0)%nat.
Proof.
  destruct x as [j|].
  - change (omap (λ x, x) [Some j]) with [j].
    rewrite occurrences_cons, occurrences_nil.
    destruct (decide (j = i)) as [->|Hne].
    + rewrite decide_True by reflexivity. reflexivity.
    + rewrite decide_False by congruence. reflexivity.
  - rewrite decide_False by discriminate. reflexivity.
Qed.

(** On a board whose cells hold their own ids, an id occurs as often
    as its own cell holds it. *)
Lemma occurrences_onBoard i (cells : list (option nat)) :
  (forall k j : nat, cells !! k = Some (Some j) -> j = k) ->
  occurrences i (omap (λ x, x) cells)
  = (if decide (cells !! i = Some (Some i)) then 1 else 0)%nat.
Proof.
  induction cells as [|x cells IH] using rev_ind; intros Hown.
  - rewrite decide_False by discriminate. reflexivity.
  - assert (Hlast : x = Some i -> i = length cells).
    { intros ->. apply Hown.
      rewrite lookup_app_r, Nat.sub_diag by lia. reflexivity. }
    rewrite omap_app, occurrences_app, occurrences_last_cell.
    rewrite IH by (intros k j H; apply Hown;
                   rewrite lookup_app_l by (eapply lookup_lt_Some; eassumption);
                   exact H).
    destruct (decide (i < length cells)%nat) as [Hlt|Hge].
    + rewrite (lookup_app_l cells [x] i Hlt).
      rewrite (decide_False (P := x = Some i)) by (intros H; apply Hlast in H; lia).
      lia.
    + rewrite (decide_False (P := cells !! i = Some (Some i)))
        by (rewrite lookup_ge_None_2 by lia; discriminate).
      rewrite lookup_app_r by lia.
      destruct (decide (i = length cells)) as [->|Hne].
      * rewrite Nat.sub_diag. cbn [lookup list_lookup].
        destruct (decide (x = Some (length cells))) as [->|Hx].
        -- rewrite decide_True by reflexivity. reflexivity.
        -- rewrite decide_False by congruence. reflexivity.
      * rewrite (decide_False (P := x = Some i))
          by (intros H; apply Hlast in H; lia).
        destruct (i - length cells)%nat as [|d] eqn:Ed; [lia|].
        rewrite decide_False; [reflexivity|].
        cbn. destruct d; discriminate.
Qed.

Lemma sound_partitioned s : sound s -> partitioned s.
Proof.
  intros (_ & (Hlen & Hown & Halt) & _) i Hi.
  rewrite occurrences_app. unfold onBoard.
  rewrite occurrences_onBoard by assumption.
  destruct (Halt i Hi) as [[Hcell Hocc]|[Hcell Hocc]]; rewrite Hocc.
  - rewrite decide_True by assumption. reflexivity.
  - rewrite decide_False by congruence. reflexivity.
Qed.

End SoundFacts.

(** ** Claims on the session: invariants *)

Section SessionClaims.
Import Geometry Session.

(** C4.  In every state of a session, from the state a loaded puzzle
    starts in (all ids in the tray, the board empty) through any events
    (select, rotate, attempt to place, unplace, solve all, reshuffle
    the tray, toggling rotation): every piece id below the piece count
    occurs exactly once in the tray and the occupied cells taken
    together. *)
Theorem partition_invariant (rng : Type) (Math_random : rng -> R * rng)
    (s : State) :
  reachable rng Math_random s -> partitioned s.
Proof. intros H. apply sound_partitioned. eapply reachable_sound. exact H. Qed.

(** C10.  In every state of a session, every occupied cell of the
    board holds its own piece: [placements[i]] is empty or [i]. *)
Theorem own_cells_invariant (rng : Type) (Math_random : rng -> R * rng)
    (s : State) :
  reachable rng Math_random s -> ownCells s.
Proof.
  intros H. apply (reachable_sound rng Math_random) in H.
  destruct H as (_ & (_ & Hown & _) & _). exact Hown.
Qed.

Lemma fiftyLoaded_reachable : reachable tape replay fiftyLoaded.
Proof.
  unfold fiftyLoaded, fiftyPieces, fifty.
  destruct (generatePieces_returns tape replay photo
              (GridSolver.findBestGrid 50 (Js.Fin 2)) (mkOptions true) [])
    as (pieces & E & _).
  rewrite E.
  eapply (reach_loaded tape replay 50 (Js.Fin 2) photo (mkOptions true)
            true pieces []).
  - cbn. auto.
  - rewrite <- E. apply surjective_pairing.
Defined.

Lemma fiftyPlayed_reachable : reachable tape replay fiftyPlayed.
Proof. do 2 apply reach_step. apply fiftyLoaded_reachable. Defined.

Lemma partition_invariant_witness : partitioned fiftyPlayed.
Proof. apply (partition_invariant tape replay), fiftyPlayed_reachable. Defined.

Lemma own_cells_invariant_witness : ownCells fiftyPlayed.
Proof. apply (own_cells_invariant tape replay), fiftyPlayed_reachable. Defined.

(** Piece 4 of 6, upright, placed at cell 4: accepted, the cell holds
    it, the selection is cleared; turned by 90 degrees: accepted and
    placed, the selection kept; at cell 1: nothing changes. *)
Lemma attempt_place_witness :
  (placements (tryPlaceSelectedAtCell 4 (sixPieces R0)) !! 4%nat
     = Some (Some 4%nat)
   /\ selectedPieceId (tryPlaceSelectedAtCell 4 (sixPieces R0)) = None
   /\ boardFlash (tryPlaceSelectedAtCell 4 (sixPieces R0)) = Some good
   /\ trayOrder (tryPlaceSelectedAtCell 4 (sixPieces R0))
      = [3; 1]%nat ++ [0; 5; 2]%nat
   /\ exists q',
        piecesById (tryPlaceSelectedAtCell 4 (sixPieces R0)) !! 4%nat = Some q'
        /\ putDown (plainPiece 3 R0 4) q' true)
  /\ (placements (tryPlaceSelectedAtCell 4 (sixPieces R90)) !! 4%nat
        = Some (Some 4%nat)
      /\ selectedPieceId (tryPlaceSelectedAtCell 4 (sixPieces R90))
         = Some 4%nat
      /\ boardFlash (tryPlaceSelectedAtCell 4 (sixPieces R90)) = Some warn)
  /\ (placements (tryPlaceSelectedAtCell 1 (sixPieces R0))
        = placements (sixPieces R0)
      /\ trayOrder (tryPlaceSelectedAtCell 1 (sixPieces R0))
         = trayOrder (sixPieces R0)
      /\ boardFlash (tryPlaceSelectedAtCell 1 (sixPieces R0)) = Some bad).
Proof.
  split; [|split].
  - destruct (attempt_place (sixPieces R0) (mkGrid 2 3 6) 4 4
                (plainPiece 3 R0 4) eq_refl eq_refl eq_refl)
      as (_ & Hcell & _ & Hgood & _ & Hplaced & _).
    assert (Hc : id (plainPiece 3 R0 4) = 4%nat
                 /\ (placements (sixPieces R0) !! 4%nat = None
                     \/ placements (sixPieces R0) !! 4%nat = Some None
                     \/ placements (sixPieces R0) !! 4%nat
                        = Some (Some (id (plainPiece 3 R0 4)))))
      by (split; [reflexivity|right; left; reflexivity]).
    destruct (Hgood Hc (or_intror eq_refl)) as [Hsel Hflash].
    destruct (Hplaced Hc ltac:(discriminate))
      as (Hpieces & _ & _ & _ & _ & Htray).
    split; [auto|]. split; [exact Hsel|]. split; [exact Hflash|]. split.
    + apply (Htray [3; 1]%nat [0; 5; 2]%nat eq_refl).
      intros H. repeat (apply elem_of_cons in H as [H|H]; [discriminate|]).
      now apply elem_of_nil in H.
    + exact (Hpieces 4%nat (plainPiece 3 R0 4) eq_refl).
  - destruct (attempt_place (sixPieces R90) (mkGrid 2 3 6) 4 4
                (plainPiece 3 R90 4) eq_refl eq_refl eq_refl)
      as (_ & Hcell & Hwarn & _).
    assert (Hc : id (plainPiece 3 R90 4) = 4%nat
                 /\ (placements (sixPieces R90) !! 4%nat = None
                     \/ placements (sixPieces R90) !! 4%nat = Some None
                     \/ placements (sixPieces R90) !! 4%nat
                        = Some (Some (id (plainPiece 3 R90 4)))))
      by (split; [reflexivity|right; left; reflexivity]).
    destruct (Hwarn Hc) as [Hsel Hflash];
      [intros [H|H]; discriminate|]. auto.
  - destruct (attempt_place (sixPieces R0) (mkGrid 2 3 6) 4 1
                (plainPiece 3 R0 4) eq_refl eq_refl eq_refl)
      as (_ & _ & _ & _ & Hbad & _).
    destruct Hbad as (Hp & Ht & _ & _ & Hflash);
      [intros [H _]; discriminate|]. auto.
Defined.

End SessionClaims.

(** * Further properties *)

(** ** divisors *)

Section DivisorsFacts.
Import GridSolver.
Local Open Scope Z_scope.

Lemma insert_asc_ascending x l :
  ascending l -> ~ In x l -> ascending (insert_asc x l).
Proof.
  induction l as [|y l IH]; cbn [insert_asc ascending].
  - intros _ _. split; [constructor|exact I].
  - intros [Hy Hl] Hx. destruct (Z.leb_spec x y) as [Hle|Hgt].
    + assert (Hxy : x < y) by (assert (x <> y) by (intros ->; apply Hx; now left); lia).
      cbn [ascending]. repeat split; try assumption.
      constructor; [assumption|].
      rewrite Forall_forall in Hy |- *. intros z Hz. specialize (Hy z Hz). lia.
    + cbn [ascending]. split.
      * rewrite Forall_forall in Hy |- *. intros z Hz.
        apply list_elem_of_In, insert_asc_In in Hz. destruct Hz as [->|Hz]; [lia|].
        apply Hy. now apply list_elem_of_In.
      * apply IH; [assumption|]. intros H. apply Hx. now right.
Qed.

Lemma sort_asc_ascending l : List.NoDup l -> ascending (sort_asc l).
Proof.
  induction 1 as [|x l Hx Hl IH]; cbn [sort_asc fold_right]; [exact I|].
  apply insert_asc_ascending; [exact IH|]. now rewrite sort_asc_In.
Qed.

Lemma NoDup_snoc {A} (x : A) l :
  List.NoDup l -> ~ In x l -> List.NoDup (l ++ [x]).
Proof.
  induction 1 as [|y l Hy Hl IH]; intros Hx; cbn [app].
  - constructor; [intros []|constructor].
  - constructor.
    + intros H. apply in_app_or in H. destruct H as [H|[->|[]]]; [contradiction|].
      apply Hx. now left.
    + apply IH. intros H. apply Hx. now right.
Qed.

Lemma quot_quot n i :
  1 <= i -> i * i <= n -> Z.rem n i = 0 -> i <= n ÷ i /\ n ÷ (n ÷ i) = i.
Proof.
  intros Hi Hsq Hrem.
  destruct (rem_zero_splits n i Hi Hsq Hrem) as [[_ Hq] _].
  remember (n ÷ i) as q eqn:E. assert (Hle : i <= q) by nia.
  split; [assumption|]. rewrite <- Hq. apply Z.quot_mul. lia.
Qed.

Lemma collected_skip n i x :
  1 <= i -> Z.rem n i <> 0 -> (collected n (i + 1) x <-> collected n i x).
Proof.
  intros Hi Hrem. unfold collected, splits.
  assert (Hno : forall q, i * q <> n).
  { intros q Hq. apply Hrem. rewrite <- Hq, Z.mul_comm. apply Z.rem_mul. lia. }
  split; intros ((H1 & Hmul) & Hc); (split; [split; assumption|]).
  - destruct Hc as [[Hs Hlt]|[Hs Hlt]].
    + left. split; [assumption|]. assert (x <> i) by (intros ->; eapply Hno; eassumption). lia.
    + right. split; [assumption|].
      assert (n ÷ x <> i) by (intros E; apply (Hno x); rewrite <- E; lia). lia.
  - destruct Hc as [[Hs Hlt]|[Hs Hlt]]; [left|right]; split; (assumption || lia).
Qed.

Lemma collected_take n i x :
  1 <= i -> i * i <= n -> Z.rem n i = 0 ->
  (collected n (i + 1) x <->
   collected n i x \/ x = i \/ (x = n ÷ i /\ i <> n ÷ i)).
Proof.
  intros Hi Hsq Hrem.
  destruct (rem_zero_splits n i Hi Hsq Hrem) as [[_ Hq] [Hq1 Hq']].
  destruct (quot_quot n i Hi Hsq Hrem) as [Hle Hqq].
  unfold collected, splits. split.
  - intros ((H1 & Hmul) & [[Hs Hlt]|[Hs Hlt]]).
    + destruct (Z.eq_dec x i) as [->|Hne]; [auto|].
      left. split; [split; assumption|]. left. split; [assumption|lia].
    + destruct (Z.eq_dec (n ÷ x) i) as [E|Hne].
      * right. right. rewrite E in Hmul.
        assert (x = n ÷ i) by nia. subst x. split; [reflexivity|]. nia.
      * left. split; [split; assumption|]. right. split; [assumption|lia].
  - intros [((H1 & Hmul) & Hc)|[->|[-> Hne]]].
    + split; [split; assumption|].
      destruct Hc as [[Hs Hlt]|[Hs Hlt]]; [left|right]; split; (assumption || lia).
    + split; [split; [assumption|exact Hq]|]. left. split; lia.
    + split; [split; [assumption|exact Hq']|]. right.
      split; [nia|lia].
Qed.

Lemma divisors_loop_collects fuel : forall n i out,
  1 <= i ->
  (Z.to_nat (n + 1 - i) <= fuel)%nat ->
  List.NoDup out ->
  (forall x, In x out <-> collected n i x) ->
  exists i', 1 <= i' /\ n < i' * i'
    /\ List.NoDup (divisors_loop fuel n i out)
    /\ forall x, In x (divisors_loop fuel n i out) <-> collected n i' x.
Proof.
  induction fuel as [|fuel IH]; intros n i out Hi Hfuel Hnd Hin; cbn [divisors_loop].
  - exists i. assert (n < i) by lia.
    split; [assumption|]. split; [nia|]. split; assumption.
  - destruct (Z.leb_spec (i * i) n) as [Hsq|Hsq].
    2:{ exists i. split; [assumption|]. split; [lia|]. split; assumption. }
    apply IH; [lia|lia| |].
    + destruct (Z.eqb_spec (Z.rem n i) 0) as [Hrem|Hrem]; [|assumption].
      assert (Hi_new : ~ In i out).
      { rewrite Hin. intros (_ & [[_ H]|[H _]]); lia. }
      destruct (rem_zero_splits n i Hi Hsq Hrem) as [[_ Hq] _].
      destruct (Z.eqb_spec i (n ÷ i)) as [E|Hne]; cbn [negb].
      * now apply NoDup_snoc.
      * apply NoDup_snoc; [now apply NoDup_snoc|].
        intros Hx. apply in_app_or in Hx. destruct Hx as [Hx|[Hx|[]]].
        -- apply Hin in Hx. pose proof (quot_quot n i Hi Hsq Hrem) as Hqq.
           destruct Hx as (_ & [[_ H]|[_ H]]); nia.
        -- congruence.
    + intros x. destruct (Z.eqb_spec (Z.rem n i) 0) as [Hrem|Hrem].
      * rewrite (collected_take n i x Hi Hsq Hrem), <- Hin.
        destruct (Z.eqb_spec i (n ÷ i)) as [E|Hne]; cbn [negb].
        -- rewrite in_app_iff. cbn [In]. split.
           ++ intros [H|[<-|[]]]; auto.
           ++ intros [H|[->|[-> Hne]]]; auto; contradiction.
        -- rewrite !in_app_iff. cbn [In]. split.
           ++ intros [[H|[<-|[]]]|[<-|[]]]; auto.
           ++ intros [H|[->|[-> _]]]; auto.
      * rewrite (collected_skip n i x Hi Hrem). apply Hin.
Qed.

Lemma collected_none n : 1 <= n -> forall x, In x [] <-> collected n 1 x.
Proof.
  intros Hn x. cbn [In]. unfold collected, splits. split; [tauto|].
  intros ([H1 Hmul] & [[_ H]|[_ H]]); [lia|].
  remember (n ÷ x) as q eqn:E. nia.
Qed.

Lemma collected_all n i x :
  1 <= i -> n < i * i -> (collected n i x <-> splits n x).
Proof.
  intros Hi Hsq. unfold collected, splits. split; [tauto|].
  intros [H1 Hmul]. split; [split; assumption|].
  remember (n ÷ x) as q eqn:E.
  destruct (Z.le_gt_cases (x * x) n) as [Hs|Hs]; [left|right]; (split; [assumption|]).
  - destruct (Z.lt_ge_cases x i) as [|Hge]; [assumption|].
    assert (i * i <= x * x) by (apply Z.mul_le_mono_nonneg; lia). lia.
  - destruct (Z.lt_ge_cases q i) as [|Hge]; [assumption|].
    assert (i * i <= q * q) by (apply Z.mul_le_mono_nonneg; lia).
    assert (q < x) by nia. nia.
Qed.

Lemma divisors_In_iff n d : In d (divisors n) <-> splits n d /\ 1 <= n.
Proof.
  unfold divisors. rewrite sort_asc_In.
  destruct (Z.le_gt_cases 1 n) as [Hn|Hn].
  - destruct (divisors_loop_collects (Z.to_nat n) n 1 [] ltac:(lia) ltac:(lia)
                (List.NoDup_nil _)) as (i' & Hi' & Hsq & _ & Hin).
    { now apply collected_none. }
    rewrite Hin, (collected_all n i' d Hi' Hsq). tauto.
  - replace (Z.to_nat n) with 0%nat by lia. cbn. split; [tauto|lia].
Qed.

Lemma divisors_ascending n : ascending (divisors n).
Proof.
  unfold divisors. apply sort_asc_ascending.
  destruct (Z.le_gt_cases 1 n) as [Hn|Hn].
  - destruct (divisors_loop_collects (Z.to_nat n) n 1 [] ltac:(lia) ltac:(lia)
                (List.NoDup_nil _)) as (i' & _ & _ & Hnd & _); [|exact Hnd].
    now apply collected_none.
  - replace (Z.to_nat n) with 0%nat by lia. constructor.
Qed.

Lemma splits_divide n d : 1 <= d -> (splits n d <-> (d | n)).
Proof.
  intros Hd. unfold splits. split.
  - intros [_ H]. exists (n ÷ d). lia.
  - intros [q ->]. split; [assumption|]. rewrite Z.quot_mul by lia. lia.
Qed.

(** X1.  [divisors n] lists exactly the positive divisors of a positive
    [n], each once, in ascending order; for [n <= 0] it lists nothing. *)
Theorem divisors_exactly (n : Z) :
  (forall d, In d (divisors n) <-> 1 <= n /\ 1 <= d /\ (d | n))
  /\ ascending (divisors n).
Proof.
  split.
  - intros d. rewrite divisors_In_iff. split.
    + intros [[Hd Hm] Hn]. repeat split; try assumption.
      apply splits_divide; [assumption|]. now split.
    + intros (Hn & Hd & Hdiv). split; [|assumption]. now apply splits_divide.
  - apply divisors_ascending.
Qed.

End DivisorsFacts.


(** ** findBestGrid *)

Section FindBestGridFacts.
Import Js GridSolver.
Local Open Scope Z_scope.

Lemma splits_cofactor n d : 1 <= n -> splits n d -> splits n (n ÷ d) /\ n ÷ (n ÷ d) = d.
Proof.
  intros Hn [Hd Hmul]. remember (n ÷ d) as q eqn:E.
  assert (Hq : 1 <= q) by nia.
  assert (Hback : n ÷ q = d) by (rewrite <- Hmul; apply Z.quot_mul; lia).
  split; [|assumption]. split; [assumption|]. rewrite Hback. lia.
Qed.

Lemma scoreOf_nonNegative n a d :
  1 <= n -> (0 < a)%R -> splits n d -> nonNegative (scoreOf n (Fin a) d).
Proof.
  intros Hn Ha Hd. destruct (splits_cofactor n d Hn Hd) as [[Hq _] _].
  destruct Hd as [Hd _]. now apply score_nonNegative.
Qed.

(** A score that is not below [+Infinity] is [+Infinity]. *)
Lemma not_below_infinity x : nonNegative x -> lt x PInf = false -> x = PInf.
Proof. intros [->|(r & -> & _)]; [reflexivity|discriminate]. Qed.

Lemma consider_closest n a d seen b :
  1 <= n -> (0 < a)%R -> splits n d ->
  (forall x, In x seen -> x < d) ->
  (forall x, In x seen -> splits n x) ->
  closest n (Fin a) seen b ->
  closest n (Fin a) (seen ++ [d]) (consider n (Fin a) b d).
Proof.
  intros Hn Ha Hd Hlt Hseen (Hnn & Hmin & Hfirst).
  pose proof (scoreOf_nonNegative n a d Hn Ha Hd) as Hsd.
  unfold consider. fold (scoreOf n (Fin a) d).
  destruct (lt (scoreOf n (Fin a) d) (b_score b)) eqn:Eless.
  - assert (Hbelow : forall x, In x seen ->
              lt (scoreOf n (Fin a) d) (scoreOf n (Fin a) x) = true).
    { intros x Hx. apply (lt_le_trans _ (b_score b)).
      - apply scoreOf_nonNegative; auto.
      - exact Eless.
      - now apply Hmin. }
    split; [exact Hsd|]. cbn [b_rows b_cols b_score]. split.
    + intros x Hx. apply in_app_or in Hx. destruct Hx as [Hx|[<-|[]]].
      * apply lt_not_gt. now apply Hbelow.
      * apply lt_irrefl.
    + right. split; [apply in_or_app; right; now left|].
      split; [reflexivity|]. split; [reflexivity|].
      intros x Hx Hxd. apply in_app_or in Hx. destruct Hx as [Hx|[<-|[]]].
      * now apply Hbelow.
      * lia.
  - split; [exact Hnn|]. split.
    + intros x Hx. apply in_app_or in Hx. destruct Hx as [Hx|[<-|[]]].
      * now apply Hmin.
      * exact Eless.
    + destruct Hfirst as [->|(Hin & Hcols & Hscore & Hstrict)]; [now left|].
      right. split; [apply in_or_app; now left|].
      split; [assumption|]. split; [assumption|].
      intros x Hx Hxb. apply in_app_or in Hx. destruct Hx as [Hx|[<-|[]]].
      * now apply Hstrict.
      * specialize (Hlt _ Hin). lia.
Qed.

Lemma fold_consider_closest n a : 1 <= n -> (0 < a)%R ->
  forall ds seen b,
  Forall (splits n) ds -> ascending ds ->
  (forall x, In x seen -> Forall (fun y => x < y) ds) ->
  (forall x, In x seen -> splits n x) ->
  closest n (Fin a) seen b ->
  closest n (Fin a) (seen ++ ds) (fold_left (consider n (Fin a)) ds b).
Proof.
  intros Hn Ha. induction ds as [|d ds IH]; intros seen b Hds Hasc Hlt Hseen Hb.
  - cbn [fold_left]. now rewrite app_nil_r.
  - cbn [fold_left]. replace (seen ++ d :: ds) with ((seen ++ [d]) ++ ds)
      by (now rewrite <- app_assoc).
    apply List.Forall_cons_iff in Hds. destruct Hds as [Hd Hds].
    destruct Hasc as [Hhead Hasc].
    apply IH; [assumption|assumption| | |].
    + intros x Hx. apply in_app_or in Hx. destruct Hx as [Hx|[<-|[]]]; [|assumption].
      specialize (Hlt x Hx). now apply List.Forall_cons_iff in Hlt.
    + intros x Hx. apply in_app_or in Hx. destruct Hx as [Hx|[<-|[]]]; auto.
    + apply consider_closest; try assumption.
      intros x Hx. specialize (Hlt x Hx). now apply List.Forall_cons_iff in Hlt.
Qed.

(** The best of the loop, for a positive count and aspect ratio: its
    score is the score of its rows and columns, no divisor has a score
    below it, and every smaller divisor has a score above it. *)
Lemma best_closest n a :
  1 <= n -> (0 < a)%R ->
  let b := fold_left (consider n (Fin a)) (divisors n) (mkBest 1 n PInf) in
  splits n (b_rows b)
  /\ b_cols b = n ÷ b_rows b
  /\ b_score b = scoreOf n (Fin a) (b_rows b)
  /\ forall d, splits n d ->
       lt (scoreOf n (Fin a) d) (b_score b) = false
       /\ (d < b_rows b -> lt (b_score b) (scoreOf n (Fin a) d) = true).
Proof.
  intros Hn Ha b.
  assert (Hall : Forall (splits n) (divisors n)).
  { apply List.Forall_forall. intros d Hd. now apply divisors_In_iff in Hd. }
  assert (Hstart : closest n (Fin a) [] (mkBest 1 n PInf)).
  { split; [now left|]. split; [intros d []|now left]. }
  pose proof (fold_consider_closest n a Hn Ha (divisors n) [] (mkBest 1 n PInf)
                Hall (divisors_ascending n)
                (fun x (H : In x []) => match H with end)
                (fun x (H : In x []) => match H with end) Hstart) as Hb.
  cbn [app] in Hb. fold b in Hb. destruct Hb as (Hnn & Hmin & Hfirst).
  assert (Hseen : forall d, splits n d -> In d (divisors n)).
  { intros d Hd. apply divisors_In_iff. now split. }
  assert (H1 : splits n 1) by (split; [lia|rewrite Z.quot_1_r; lia]).
  destruct Hfirst as [E|(Hin & Hcols & Hscore & Hstrict)].
  - rewrite E in *. cbn [b_rows b_cols b_score] in *.
    split; [exact H1|]. split; [now rewrite Z.quot_1_r|]. split.
    + symmetry. apply not_below_infinity.
      * now apply scoreOf_nonNegative.
      * apply Hmin. now apply Hseen.
    + intros d Hd. split; [apply Hmin; now apply Hseen|].
      destruct Hd as [Hd _]. lia.
  - split; [now apply divisors_In_iff in Hin|]. split; [assumption|].
    split; [assumption|].
    intros d Hd. split; [apply Hmin|apply Hstrict]; now apply Hseen.
Qed.

(** The inversion that ends [findBestGrid] compares the best pair with
    its transpose, which the loop has seen too. *)
Lemma best_not_inverted n a :
  1 <= n -> (0 < a)%R ->
  let b := fold_left (consider n (Fin a)) (divisors n) (mkBest 1 n PInf) in
  gt (score (b_rows b) (b_cols b) (Fin a))
     (score (b_cols b) (b_rows b) (Fin a)) = false.
Proof.
  intros Hn Ha b. destruct (best_closest n a Hn Ha) as (Hr & Hc & Hs & Hmin).
  fold b in Hr, Hc, Hs, Hmin.
  destruct (splits_cofactor n _ Hn Hr) as [Hq Hback]. rewrite <- Hc in Hq, Hback.
  destruct (Hmin _ Hq) as [Hle _].
  unfold scoreOf in Hle, Hs. rewrite Hback in Hle. rewrite <- Hc in Hs.
  unfold gt. now rewrite <- Hs.
Qed.

Lemma findBestGrid_best n a :
  1 <= n -> (0 < a)%R ->
  let b := fold_left (consider n (Fin a)) (divisors n) (mkBest 1 n PInf) in
  findBestGrid n (Fin a) = mkGrid (b_rows b) (b_cols b) n.
Proof.
  intros Hn Ha b. pose proof (best_not_inverted n a Hn Ha) as H.
  cbv zeta in H. unfold findBestGrid. cbv zeta. now rewrite H.
Qed.

(** X2.  For a count [N >= 1] and an aspect ratio [a > 0], the grid
    that [findBestGrid] returns has the least score among the ways of
    writing [N] as rows times columns, the score being the double
    [Math.abs(Math.log((cols / rows) / a))] that the program computes
    and compares: the score of no divisor [d] is below it, and the
    score of every [d] smaller than the rows returned is above it.  No
    score is NaN. *)
Theorem findBestGrid_closest (N : Z) (a : R) (d : Z) :
  1 <= N -> (0 < a)%R -> 1 <= d -> (d | N) ->
  let g := findBestGrid N (Fin a) in
  nonNegative (score d (N ÷ d) (Fin a))
  /\ nonNegative (score (rows g) (cols g) (Fin a))
  /\ lt (score d (N ÷ d) (Fin a)) (score (rows g) (cols g) (Fin a)) = false
  /\ (d < rows g ->
      lt (score (rows g) (cols g) (Fin a)) (score d (N ÷ d) (Fin a)) = true).
Proof.
  intros HN Ha Hd Hdiv g. unfold g. rewrite (findBestGrid_best N a HN Ha).
  cbn [rows cols].
  destruct (best_closest N a HN Ha) as (Hr & Hc & Hs & Hmin).
  cbv zeta in Hr, Hc, Hs, Hmin.
  set (b := fold_left (consider N (Fin a)) (divisors N) (mkBest 1 N PInf)) in *.
  assert (Hsplit : splits N d) by now apply splits_divide.
  unfold scoreOf in Hs, Hmin. rewrite <- Hc in Hs. rewrite <- Hs.
  split; [exact (scoreOf_nonNegative N a d HN Ha Hsplit)|].
  split.
  - rewrite Hs, Hc. exact (scoreOf_nonNegative N a _ HN Ha Hr).
  - exact (Hmin d Hsplit).
Qed.

Lemma findBestGrid_closest_witness :
  lt (score 2 (50 ÷ 2) (Fin 2)) (score 5 10 (Fin 2)) = false
  /\ lt (score 5 10 (Fin 2)) (score 2 (50 ÷ 2) (Fin 2)) = true.
Proof.
  destruct (findBestGrid_closest 50 2 2) as (_ & _ & Hleast & Hfirst);
    [lia|lra|lia|exists 25; reflexivity|].
  rewrite findBestGrid_50_2 in Hleast, Hfirst. cbn [rows cols] in Hleast, Hfirst.
  split; [exact Hleast|]. apply Hfirst. lia.
Defined.

(** X3.  For a count [N >= 1] and an aspect ratio [a > 0] the final
    inversion of [findBestGrid] never takes place: the grid returned is
    the pair the loop over the divisors ended with. *)
Theorem findBestGrid_never_inverts (N : Z) (a : R) :
  1 <= N -> (0 < a)%R ->
  let best := fold_left (consider N (Fin a)) (divisors N) (mkBest 1 N PInf) in
  gt (score (b_rows best) (b_cols best) (Fin a))
     (score (b_cols best) (b_rows best) (Fin a)) = false
  /\ findBestGrid N (Fin a) = mkGrid (b_rows best) (b_cols best) N.
Proof.
  intros HN Ha best. split.
  - now apply best_not_inverted.
  - now apply findBestGrid_best.
Qed.

Lemma findBestGrid_never_inverts_witness :
  findBestGrid 50 (Fin 2)
  = mkGrid
      (b_rows (fold_left (consider 50 (Fin 2)) (divisors 50) (mkBest 1 50 PInf)))
      (b_cols (fold_left (consider 50 (Fin 2)) (divisors 50) (mkBest 1 50 PInf)))
      50.
Proof. apply (findBestGrid_never_inverts 50 2); [lia|lra]. Defined.

End FindBestGridFacts.

(** *** Scores that tie over the reals

    For 100 pieces and the aspect ratio 5 the grids of 4 rows by 25 and
    of 5 rows by 20 are equally far from the aspect ratio: the exact
    scores are both [ln 1.25].  The program computes
    [Math.log(1.25) = 0.22314355131420976] for the first and, from the
    double nearest to [4 / 5], [0.2231435513142097] for the second, two
    units in the last place less: it returns 5 rows by 20. *)

Section ScoresApart.
Import Js GridSolver.
Local Open Scope R_scope.

Lemma ln_1p_lower x : 0 < x -> x / (1 + x) <= ln (1 + x).
Proof.
  intros Hx.
  assert (HL : 0 < ln (1 + x)) by (rewrite <- ln_1; apply ln_increasing; lra).
  pose proof (exp_ineq1 (- ln (1 + x)) ltac:(lra)) as H.
  rewrite exp_Ropp, exp_ln in H by lra.
  assert (Hinv : / (1 + x) = 1 - x / (1 + x)) by (field; lra).
  lra.
Qed.

Lemma ln_1p_upper x : 0 < x -> ln (1 + x) < x.
Proof.
  intros Hx. rewrite <- (ln_exp x) at 2.
  apply ln_increasing; [lra|]. pose proof (exp_ineq1 x ltac:(lra)). lra.
Qed.

Lemma ln_quotient x y : 0 < x -> 0 < y -> ln (x / y) = ln x - ln y.
Proof.
  intros Hx Hy. unfold Rdiv.
  rewrite ln_mult by (try apply Rinv_0_lt_compat; assumption).
  rewrite ln_Rinv by assumption. lra.
Qed.

(** A logarithm that is at least 1 either way gives a score of a half
    or more. *)
Lemma abs_log_apart q :
  3 <= q <= 4294967296 \/ / 4294967296 <= q <= / 3 ->
  exists s, Math_abs (Math_log (Fin q)) = Fin s /\ / 2 <= s.
Proof.
  intros Hq. pose proof ln_3 as H3. pose proof eps_small as [He0 He1].
  pose proof ordinary_below_overflow as Hbig. pose proof one_normal as Hone.
  assert (Hq0 : 0 < q) by (destruct Hq; lra).
  rewrite Math_log_pos by assumption.
  assert (Hln : 1 <= Rabs (ln q) <= 4294967296).
  { destruct Hq as [[Hlo Hhi]|[Hlo Hhi]].
    - assert (ln 3 <= ln q).
      { destruct (Req_dec q 3) as [->|]; [lra|].
        apply Rlt_le, ln_increasing; lra. }
      pose proof (ln_below q Hq0). rewrite Rabs_right by lra. lra.
    - assert (Hinv : 3 <= / q <= 4294967296).
      { split.
        - rewrite <- (Rinv_inv 3). apply Rinv_le_contravar; lra.
        - rewrite <- (Rinv_inv 4294967296). apply Rinv_le_contravar; lra. }
      assert (ln 3 <= ln (/ q)).
      { destruct (Req_dec (/ q) 3) as [->|]; [lra|].
        apply Rlt_le, ln_increasing; lra. }
      pose proof (ln_below (/ q) ltac:(lra)).
      rewrite ln_Rinv in * by assumption. rewrite Rabs_left by lra. lra. }
  pose proof (round_relative (ln q) ltac:(lra)) as Hr.
  apply Rabs_le_bounds in Hr.
  pose proof (small_share Double.eps (Rabs (ln q)) ltac:(lra) ltac:(lra)) as Hsh.
  assert (Hs : / 2 <= Rabs (Double.round (ln q)) <= 8589934592).
  { unfold Rabs in *. destruct (Rcase_abs (ln q));
      destruct (Rcase_abs (Double.round (ln q))); lra. }
  rewrite double_finite by lra. cbn [Math_abs]. eexists. split; [reflexivity|lra].
Qed.

(** The score of a grid whose ratio is far from the aspect ratio. *)
Lemma score_far (r c : Z) (a : R) :
  (1 <= r <= 1000)%Z -> (1 <= c <= 1000)%Z -> 1 <= a <= 1000 ->
  31 / 10 <= IZR c / IZR r / a \/ IZR c / IZR r / a <= 3 / 10 ->
  exists s, score r c (Fin a) = Fin s /\ / 2 <= s.
Proof.
  intros Hr Hc Ha Hfar. pose proof eps_small as [He0 He1].
  assert (Hr' : 1 <= IZR r <= 1000) by (split; apply IZR_le; lia).
  assert (Hc' : 1 <= IZR c <= 1000) by (split; apply IZR_le; lia).
  set (x1 := IZR c / IZR r) in *.
  assert (Hx1 : / 1000 <= x1 <= 1000).
  { assert (E : x1 * IZR r = IZR c) by (unfold x1; field; lra).
    assert (0 < x1) by (unfold x1; apply Rdiv_lt_0_compat; lra).
    split; nra. }
  unfold score, ofZ. rewrite div_Fin by lra. fold x1.
  rewrite (double_moderate x1) by lra.
  destruct (round_bounds x1 (normal_above x1 ltac:(lra))) as [Hy1 Hy2].
  set (y1 := Double.round x1) in *.
  pose proof (small_share Double.eps x1 ltac:(lra) ltac:(lra)) as Hsh1.
  rewrite div_Fin by lra.
  set (x2 := y1 / a).
  assert (E2 : x2 * a = y1) by (unfold x2; field; lra).
  assert (Ex : x1 / a * a = x1) by (field; lra).
  assert (Hx2 : / 2000000 <= x2 <= 2000).
  { assert (0 < x2) by (unfold x2; apply Rdiv_lt_0_compat; lra).
    split; nra. }
  rewrite (double_moderate x2) by lra.
  destruct (round_bounds x2 (normal_above x2 ltac:(lra))) as [Hq1 Hq2].
  set (q := Double.round x2) in *.
  pose proof (small_share Double.eps x2 ltac:(lra) ltac:(lra)) as Hsh2.
  assert (Hx2' : x1 / a - x1 / a / 500000 <= x2 <= x1 / a + x1 / a / 500000).
  { assert (0 < x1 / a) by (apply Rdiv_lt_0_compat; lra).
    assert (Hd : x2 - x1 / a = (y1 - x1) / a) by (unfold x2; field; lra).
    assert (Hb : - (x1 / 1000000) / a <= (y1 - x1) / a <= x1 / 1000000 / a).
    { split; apply Rmult_le_compat_r;
        try (apply Rlt_le, Rinv_0_lt_compat; lra); lra. }
    assert (Hc1 : x1 / 1000000 / a = x1 / a / 1000000) by (field; lra).
    assert (Hc2 : - (x1 / 1000000) / a = - (x1 / a / 1000000)) by (field; lra).
    lra. }
  apply abs_log_apart. destruct Hfar as [Hbig|Hsmall]; [left|right]; split; lra.
Qed.

Lemma divisors_100 : divisors 100 = [1; 2; 4; 5; 10; 20; 25; 50; 100]%Z.
Proof. vm_compute. reflexivity. Qed.

(** The double nearest to four fifths. *)
Lemma round_four_fifths :
  Double.round (4 / 5) = 7205759403792794 / 9007199254740992.
Proof.
  apply (round_literal _ (-1)).
  - change (-1 + 1)%Z with 0%Z. change (-1)%Z with (- (1))%Z.
    rewrite powerRZ_neg', powerRZ_O. change (powerRZ 2 1) with (2 * 1). lra.
  - change (- Z.max (-1 - 52) (-1074))%Z with 53%Z.
    rewrite powerRZ_2_IZR by lia. reflexivity.
  - apply Rabs_def1; lra.
Qed.

(** Half a unit in the last place of the doubles from an eighth to a
    quarter. *)
Lemma round_eighth_to_quarter x :
  / 8 <= Rabs x < / 4 ->
  Rabs (Double.round x - x) <= / 72057594037927936.
Proof.
  intros Hx. pose proof (round_near x) as H.
  assert (Eb : Double.binade x = (-3)%Z).
  { apply binade_unique. change (-3 + 1)%Z with (- (2))%Z.
    change (-3)%Z with (- (3))%Z.
    rewrite !powerRZ_neg', !powerRZ_2_IZR by lia.
    change (IZR (2 ^ 3)) with 8. change (IZR (2 ^ 2)) with 4. exact Hx. }
  unfold Double.lastPlace in H. rewrite Eb in H.
  change (Z.max (-3 - 52) (-1074)) with (- (55))%Z in H.
  rewrite powerRZ_neg', powerRZ_2_IZR in H by lia.
  change (IZR (2 ^ 55)) with 36028797018963968 in H. lra.
Qed.

(** The two scores: the logarithm of 1.25, and the logarithm of the
    double nearest to 0.8; the second is the smaller. *)
Lemma scores_apart :
  exists s4 s5,
    score 4 25 (Fin 5) = Fin s4 /\ score 5 20 (Fin 5) = Fin s5
    /\ 0 <= s5 < s4 /\ s4 < / 2.
Proof.
  set (c := 7205759403792794 / 9007199254740992).
  set (u := / 18014398509481984).
  assert (Ec : c = (1 + u) / (5 / 4)) by (unfold c, u; lra).
  assert (HA : / 5 <= ln (5 / 4) < / 4).
  { replace (5 / 4) with (1 + / 4) by lra.
    pose proof (ln_1p_lower (/ 4) ltac:(lra)).
    pose proof (ln_1p_upper (/ 4) ltac:(lra)). lra. }
  assert (Hu : / 36028797018963968 < ln (1 + u) < u).
  { pose proof (ln_1p_lower u ltac:(unfold u; lra)) as Hl.
    pose proof (ln_1p_upper u ltac:(unfold u; lra)).
    split; [|assumption].
    apply Rlt_le_trans with (u / (1 + u)); [|assumption]. unfold u. lra. }
  assert (HB : ln c = ln (1 + u) - ln (5 / 4)).
  { rewrite Ec. apply ln_quotient; unfold u; lra. }
  assert (Hu' : u < / 1000) by (unfold u; lra).
  pose proof (round_eighth_to_quarter (ln (5 / 4))) as HrA.
  rewrite (Rabs_right (ln (5 / 4))) in HrA by lra.
  specialize (HrA ltac:(lra)). apply Rabs_le_bounds in HrA.
  pose proof (round_eighth_to_quarter (ln c)) as HrB.
  rewrite (Rabs_left (ln c)) in HrB by lra.
  specialize (HrB ltac:(lra)). apply Rabs_le_bounds in HrB.
  pose proof ordinary_below_overflow as Hbig.
  exists (Rabs (Double.round (ln (5 / 4)))), (Rabs (Double.round (ln c))).
  split; [|split].
  - unfold score, ofZ. rewrite div_Fin by lra.
    change (25 / 4) with (IZR 25 / IZR (2 ^ 2)). rewrite double_dyadic by lia.
    rewrite div_Fin by lra.
    replace (IZR 25 / IZR (2 ^ 2) / 5) with (IZR 5 / IZR (2 ^ 2))
      by (change (IZR (2 ^ 2)) with 4; lra).
    rewrite double_dyadic by lia. change (IZR 5 / IZR (2 ^ 2)) with (5 / 4).
    rewrite Math_log_pos by lra.
    rewrite double_finite by (rewrite Rabs_right; lra). reflexivity.
  - unfold score, ofZ. rewrite div_Fin by lra.
    replace (20 / 5) with 4 by lra. rewrite double_int by lia.
    rewrite div_Fin by lra.
    rewrite (double_moderate (4 / 5)) by lra. rewrite round_four_fifths.
    fold c. rewrite Math_log_pos by (unfold c; lra).
    rewrite double_finite by (rewrite Rabs_left; lra). reflexivity.
  - rewrite (Rabs_right (Double.round (ln (5 / 4)))) by lra.
    rewrite (Rabs_left (Double.round (ln c))) by lra. lra.
Qed.

Lemma consider_far b (d c : Z) s :
  c = (100 ÷ d)%Z ->
  (exists t, score d c (Fin 5) = Fin t /\ / 2 <= t) ->
  b_score b = Fin s -> s < / 2 ->
  consider 100 (Fin 5) b d = b.
Proof.
  intros -> (t & Et & Ht) Es Hs. unfold consider.
  rewrite Et, Es, lt_Fin_false by lra. reflexivity.
Qed.

(** [findBestGrid(100, 5)] is 5 rows by 20, where the exact scores
    tie and the grid of 4 rows by 25 comes first. *)
Example findBestGrid_100_5 :
  Rabs (ln (25 / 4 / 5)) = Rabs (ln (20 / 5 / 5))
  /\ findBestGrid 100 (Fin 5) = mkGrid 5 20 100.
Proof.
  split.
  - replace (25 / 4 / 5) with (5 / 4) by lra.
    replace (20 / 5 / 5) with (/ (5 / 4)) by lra.
    rewrite ln_Rinv by lra. now rewrite Rabs_Ropp.
  - destruct scores_apart as (s4 & s5 & E4 & E5 & [Hs50 Hs54] & Hs4).
    assert (Hfar : forall r c : Z,
              (1 <= r <= 1000)%Z -> (1 <= c <= 1000)%Z ->
              31 / 10 <= IZR c / IZR r / 5 \/ IZR c / IZR r / 5 <= 3 / 10 ->
              exists s, score r c (Fin 5) = Fin s /\ / 2 <= s)
      by (intros r c Hr Hc H; apply score_far; (lia || lra || exact H)).
    destruct (Hfar 1 100 ltac:(lia) ltac:(lia) ltac:(left; lra))%Z
      as (s1 & E1 & H1).
    destruct (Hfar 2 50 ltac:(lia) ltac:(lia) ltac:(left; lra))%Z
      as (s2 & E2 & H2).
    unfold findBestGrid. rewrite divisors_100. cbn [fold_left].
    rewrite (consider_take 100 _ _ 1 100 eq_refl)%Z by (rewrite E1; reflexivity).
    assert (Hsecond : exists b,
              consider 100 (Fin 5) (mkBest 1 100 (score 1 100 (Fin 5))) 2 = b
              /\ exists s, b_score b = Fin s /\ / 2 <= s).
    { eexists. split; [reflexivity|]. unfold consider.
      change (100 ÷ 2)%Z with 50%Z. cbn [b_score].
      destruct (lt (score 2 50 (Fin 5)) (score 1 100 (Fin 5)));
        cbn [b_score]; eauto. }
    destruct Hsecond as (b & -> & s & Es & Hs).
    rewrite (consider_take 100 _ _ 4 25 eq_refl)%Z
      by (rewrite E4, Es; apply lt_Fin_true; lra).
    rewrite (consider_take 100 _ _ 5 20 eq_refl)%Z
      by (rewrite E4, E5; apply lt_Fin_true; lra).
    rewrite (consider_far _ 10 10 s5), (consider_far _ 20 5 s5),
      (consider_far _ 25 4 s5), (consider_far _ 50 2 s5),
      (consider_far _ 100 1 s5);
      try reflexivity; try exact E5; try lra;
      try (apply Hfar; [lia|lia|right; lra]).
    cbn [b_rows b_cols]. unfold gt.
    destruct (Hfar 20 5 ltac:(lia) ltac:(lia) ltac:(right; lra))%Z
      as (t & Et & Ht).
    rewrite Et, E5, lt_Fin_false by lra. reflexivity.
Qed.

End ScoresApart.


(** ** hints.ts *)

Section HintFacts.
Import Hints.
Local Open Scope Z_scope.

Lemma clamp_range n lo hi : lo <= hi -> lo <= clamp n lo hi <= hi.
Proof. unfold clamp. lia. Qed.

Lemma clamp_id n lo hi : lo <= n <= hi -> clamp n lo hi = n.
Proof. unfold clamp. lia. Qed.

Lemma hint_clamp_mono n m lo hi : n <= m -> clamp n lo hi <= clamp m lo hi.
Proof. unfold clamp. lia. Qed.

Lemma helpRadius_range level : 0 <= helpRadius level <= 2.
Proof. destruct level; cbn; lia. Qed.

(** X4.  For a piece whose cell [(row, col)] is in the grid, the hint
    rectangle is a zone of the grid that covers the cell and is the
    square of radius [helpRadius level] around it, cut at the border
    of the grid. *)
Theorem hintRect_around_cell (g : Grid) (row col : Z) (level : HelpLevel) :
  0 <= row < rows g -> 0 <= col < cols g ->
  let h := hintRectForPiece g row col level in
  zoneOf g h /\ covers h row col
  /\ r0 h = Z.max 0 (row - helpRadius level)
  /\ r1 h = Z.min (rows g - 1) (row + helpRadius level)
  /\ c0 h = Z.max 0 (col - helpRadius level)
  /\ c1 h = Z.min (cols g - 1) (col + helpRadius level).
Proof.
  intros Hr Hc h. pose proof (helpRadius_range level) as Hrad.
  unfold zoneOf, covers, h, hintRectForPiece, clamp. cbn [r0 r1 c0 c1]. lia.
Qed.

Lemma hintRect_around_cell_witness :
  hintRectForPiece (mkGrid 5 10 50) 0 9 medium = mkRect 0 8 1 9
  /\ zoneOf (mkGrid 5 10 50) (hintRectForPiece (mkGrid 5 10 50) 0 9 medium).
Proof.
  split; [reflexivity|].
  apply (hintRect_around_cell (mkGrid 5 10 50) 0 9 medium);
    cbn [rows cols]; lia.
Defined.

(** X5.  More help never shrinks the hint: the rectangle of a level
    lies within the rectangle of every more permissive level, whatever
    the grid and the cell. *)
Theorem hintRect_grows_with_level (g : Grid) (row col : Z) (l1 l2 : HelpLevel) :
  helpRadius l1 <= helpRadius l2 ->
  let h1 := hintRectForPiece g row col l1 in
  let h2 := hintRectForPiece g row col l2 in
  r0 h2 <= r0 h1 /\ r1 h1 <= r1 h2 /\ c0 h2 <= c0 h1 /\ c1 h1 <= c1 h2.
Proof.
  intros Hrad h1 h2.
  unfold h1, h2, hintRectForPiece. cbn [r0 r1 c0 c1].
  repeat split; apply hint_clamp_mono; lia.
Qed.

Lemma hintRect_grows_with_level_witness :
  r0 (hintRectForPiece (mkGrid 5 10 50) 2 3 advanced)
  <= r0 (hintRectForPiece (mkGrid 5 10 50) 2 3 simple).
Proof.
  apply (hintRect_grows_with_level (mkGrid 5 10 50) 2 3 simple advanced).
  cbn [helpRadius]. lia.
Defined.

End HintFacts.

Section HintStyleFacts.
Import Session Board.
Local Open Scope R_scope.

Lemma percent_range (a b n : Z) :
  (0 <= a)%Z -> (1 <= b)%Z -> (a + b <= n)%Z ->
  0 <= IZR a / IZR n * 100
  /\ 0 < IZR b / IZR n * 100
  /\ IZR a / IZR n * 100 + IZR b / IZR n * 100 <= 100.
Proof.
  intros Ha Hb Hn.
  assert (Hn' : 0 < IZR n) by (apply IZR_lt; lia).
  assert (Ha' : 0 <= IZR a) by (apply IZR_le; lia).
  assert (Hb' : 0 < IZR b) by (apply IZR_lt; lia).
  assert (Hab : IZR a + IZR b <= IZR n) by (rewrite <- plus_IZR; apply IZR_le; lia).
  pose proof (Rinv_0_lt_compat _ Hn') as Hinv.
  assert (Hone : IZR n * / IZR n = 1) by (apply Rinv_r; lra).
  unfold Rdiv. repeat split; try nra.
Qed.

(** X6.  Whenever [hintRectStyle] shows a hint, the rectangle lies
    within the board on display: its left and top offsets are not
    negative, its width and height are positive, and it ends at 100
    percent at most, whatever the zoom, the state and the level. *)
Theorem hintRectStyle_within_board (s : State) (zoomCells : option Zone)
    (helpEnabled : bool) (helpLevel : Hints.HelpLevel) (st : Style) :
  hintRectStyle s zoomCells helpEnabled helpLevel = Some st ->
  0 <= st_left st /\ 0 < st_width st /\ st_left st + st_width st <= 100
  /\ 0 <= st_top st /\ 0 < st_height st /\ st_top st + st_height st <= 100.
Proof.
  unfold hintRectStyle. destruct helpEnabled; cbn [negb]; [|discriminate].
  destruct (grid s) as [g|]; [|discriminate].
  destruct (view s zoomCells) as [v|]; [|discriminate].
  destruct (selectedPieceId s) as [sel|]; [|discriminate].
  destruct (piecesById s !! sel) as [p|]; [|discriminate].
  set (h := Hints.hintRectForPiece _ _ _ _).
  destruct (Z.ltb_spec (Z.min (Hints.r1 h) (rOff v + v_rows v - 1))
                       (Z.max (Hints.r0 h) (rOff v))) as [|Hrow];
    [discriminate|].
  destruct (Z.ltb_spec (Z.min (Hints.c1 h) (cOff v + v_cols v - 1))
                       (Z.max (Hints.c0 h) (cOff v))) as [|Hcol];
    [discriminate|].
  cbn [orb]. intros [= <-]. cbn [st_left st_top st_width st_height].
  destruct (percent_range
              (Z.max (Hints.c0 h) (cOff v) - cOff v)
              (Z.min (Hints.c1 h) (cOff v + v_cols v - 1)
               - Z.max (Hints.c0 h) (cOff v) + 1)
              (v_cols v)) as (? & ? & ?); [lia|lia|lia|].
  destruct (percent_range
              (Z.max (Hints.r0 h) (rOff v) - rOff v)
              (Z.min (Hints.r1 h) (rOff v + v_rows v - 1)
               - Z.max (Hints.r0 h) (rOff v) + 1)
              (v_rows v)) as (? & ? & ?); [lia|lia|lia|].
  repeat split; assumption.
Qed.

End HintStyleFacts.


(** ** App.tsx: clicks on the board and the zone in focus *)

Section BoardFacts.
Import Session Board.
Local Open Scope R_scope.

Lemma hintRectStyle_within_board_witness :
  let st := mkStyle (IZR (1 - 0) / IZR 3 * 100) (IZR (1 - 0) / IZR 2 * 100)
                    (IZR (1 - 1 + 1) / IZR 3 * 100)
                    (IZR (1 - 1 + 1) / IZR 2 * 100) in
  hintRectStyle (sixPieces R0) None true Hints.simple = Some st
  /\ 0 <= st_left st /\ 0 < st_width st /\ st_left st + st_width st <= 100
  /\ 0 <= st_top st /\ 0 < st_height st /\ st_top st + st_height st <= 100.
Proof.
  intros st. split; [reflexivity|].
  apply (hintRectStyle_within_board (sixPieces R0) None true Hints.simple st).
  reflexivity.
Defined.




Lemma snapped (n x : Z) :
  let k := Z.max 0 (Z.min (n - 1) x) in
  (0 <= k /\ (1 <= k -> k < n))%Z.
Proof. cbv zeta. lia. Qed.

(** X8.  Whatever the drag, a zone that [onPointerUp] puts in focus is
    a zone of the grid with at least two rows and two columns. *)
Theorem zoneOfDrag_zone (g : Grid) (dx0 dy0 dx1 dy1 : R) (z : Zone) :
  zoneOfDrag g dx0 dy0 dx1 dy1 = Some z ->
  zoneOf g z
  /\ (Hints.r0 z + 1 <= Hints.r1 z)%Z /\ (Hints.c0 z + 1 <= Hints.c1 z)%Z.
Proof.
  unfold zoneOfDrag.
  pose proof (snapped (cols g) (Zfloor (Rmin dx0 dx1 * IZR (cols g)))) as Hc0.
  pose proof (snapped (rows g) (Zfloor (Rmin dy0 dy1 * IZR (rows g)))) as Hr0.
  pose proof (snapped (cols g) (Zfloor (Rmax dx0 dx1 * IZR (cols g)) - 1)) as Hc1.
  pose proof (snapped (rows g) (Zfloor (Rmax dy0 dy1 * IZR (rows g)) - 1)) as Hr1.
  cbv zeta in *.
  remember (Z.max 0 (Z.min (cols g - 1) (Zfloor (Rmin dx0 dx1 * IZR (cols g))))) as c0.
  remember (Z.max 0 (Z.min (rows g - 1) (Zfloor (Rmin dy0 dy1 * IZR (rows g))))) as r0.
  remember (Z.max 0 (Z.min (cols g - 1) (Zfloor (Rmax dx0 dx1 * IZR (cols g)) - 1))) as c1.
  remember (Z.max 0 (Z.min (rows g - 1) (Zfloor (Rmax dy0 dy1 * IZR (rows g)) - 1))) as r1.
  destruct (Z.ltb_spec c1 c0); cbn [orb]; [discriminate|].
  destruct (Z.ltb_spec r1 r0); cbn [orb]; [discriminate|].
  destruct (Z.ltb_spec (c1 - c0 + 1) 2); cbn [orb]; [discriminate|].
  destruct (Z.ltb_spec (r1 - r0 + 1) 2); cbn [orb]; [discriminate|].
  intros [= <-]. unfold zoneOf. cbn [Hints.r0 Hints.r1 Hints.c0 Hints.c1].
  lia.
Qed.

Lemma whole_board_drag :
  zoneOfDrag (mkGrid 2 3 6) 0 0 1 1 = Some (Hints.mkRect 0 0 1 2).
Proof.
  unfold zoneOfDrag. cbn [rows cols].
  rewrite (Rmin_left 0 1), (Rmax_right 0 1) by lra.
  rewrite !Rmult_0_l, !Rmult_1_l, !ZfloorZ. reflexivity.
Qed.

Lemma zoneOfDrag_zone_witness :
  zoneOf (mkGrid 2 3 6) (Hints.mkRect 0 0 1 2).
Proof.
  apply (zoneOfDrag_zone (mkGrid 2 3 6) 0 0 1 1 (Hints.mkRect 0 0 1 2)).
  exact whole_board_drag.
Defined.

End BoardFacts.


(** ** App.tsx: the tray on display *)

Section TrayFacts.
Import Session Board.

Lemma filter_sublist {A} (f : A -> bool) (l : list A) :
  List.filter f l `sublist_of` l.
Proof.
  induction l as [|x l IH]; cbn [List.filter]; [constructor|].
  destruct (f x); [now apply sublist_skip|now apply sublist_cons].
Qed.

Lemma filter_all {A} (f : A -> bool) (l : list A) (x : A) :
  In x (List.filter f l) -> f x = true.
Proof. intros H. now apply filter_In in H. Qed.

Lemma filter_none {A} (f : A -> bool) (l : list A) :
  List.filter f l = [] -> existsb f l = false.
Proof.
  induction l as [|x l IH]; cbn [List.filter existsb]; [reflexivity|].
  destruct (f x); [discriminate|exact IH].
Qed.

Lemma existsb_filter {A} (f h : A -> bool) (l : list A) :
  existsb f (List.filter h l) = true -> existsb f l = true.
Proof.
  rewrite !existsb_exists. intros (x & Hx & Hf). exists x.
  split; [|assumption]. now apply filter_In in Hx.
Qed.

(** The candidates before the edge filter: [zoneFiltered]. *)
Lemma ids_without_edge_filter s zoomCells filterByZoom :
  ids (trayCandidates s zoomCells filterByZoom false)
  = match zoomCells with
    | Some z =>
        if filterByZoom then
          List.filter
            (onPiece s (fun p =>
               match grid s with None => false | Some _ => inZone z p end))
            (List.filter
               (onPiece s (fun p =>
                  negb (isPieceCorrect p (placements s) (rotationEnabled s))))
               (trayOrder s))
        else
          List.filter
            (onPiece s (fun p =>
               negb (isPieceCorrect p (placements s) (rotationEnabled s))))
            (trayOrder s)
    | None =>
        List.filter
          (onPiece s (fun p =>
             negb (isPieceCorrect p (placements s) (rotationEnabled s))))
          (trayOrder s)
    end.
Proof.
  unfold trayCandidates. cbn [ids andb]. now destruct (grid s).
Qed.

Lemma edgesAvailable_any_filter s zoomCells filterByZoom fe :
  edgesAvailable (trayCandidates s zoomCells filterByZoom fe)
  = edgesAvailable (trayCandidates s zoomCells filterByZoom false).
Proof. reflexivity. Qed.

Lemma ids_with_edge_filter s zoomCells filterByZoom :
  ids (trayCandidates s zoomCells filterByZoom true)
  = match grid s with
    | Some g =>
        if edgesAvailable (trayCandidates s zoomCells filterByZoom true)
        then List.filter (onPiece s (onEdge g))
               (ids (trayCandidates s zoomCells filterByZoom false))
        else ids (trayCandidates s zoomCells filterByZoom false)
    | None => ids (trayCandidates s zoomCells filterByZoom false)
    end.
Proof.
  unfold trayCandidates. cbn [ids edgesAvailable andb].
  now destruct (grid s).
Qed.

Lemma candidates_sublist s zoomCells filterByZoom fe :
  ids (trayCandidates s zoomCells filterByZoom fe)
  `sublist_of`
  List.filter
    (onPiece s (fun p =>
       negb (isPieceCorrect p (placements s) (rotationEnabled s))))
    (trayOrder s).
Proof.
  assert (H0 : ids (trayCandidates s zoomCells filterByZoom false)
               `sublist_of`
               List.filter
                 (onPiece s (fun p =>
                    negb (isPieceCorrect p (placements s) (rotationEnabled s))))
                 (trayOrder s)).
  { rewrite ids_without_edge_filter.
    destruct zoomCells as [z|]; [destruct filterByZoom|]; try reflexivity.
    apply filter_sublist. }
  destruct fe; [|exact H0].
  rewrite ids_with_edge_filter. destruct (grid s) as [g|]; [|exact H0].
  destruct (edgesAvailable _); [|exact H0].
  etransitivity; [apply filter_sublist|exact H0].
Qed.

(** X9.  Whatever the filters, the tray on display lists ids of the
    tray, in the order of the tray, and only pieces that exist and are
    not locked on their cell; at most 96 of them are rendered, the
    first ones. *)
Theorem trayCandidates_from_tray (s : State) (zoomCells : option Zone)
    (filterByZoom filterEdgesOnly : bool) :
  let c := trayCandidates s zoomCells filterByZoom filterEdgesOnly in
  ids c `sublist_of` trayOrder s
  /\ (forall i, In i (ids c) -> movable s i)
  /\ trayVisibleIds c `prefix_of` ids c
  /\ (length (trayVisibleIds c) <= 96)%nat.
Proof.
  intros c. pose proof (candidates_sublist s zoomCells filterByZoom
                          filterEdgesOnly) as Hsub. fold c in Hsub.
  split; [|split; [|split]].
  - etransitivity; [exact Hsub|apply filter_sublist].
  - intros i Hi. apply list_elem_of_In in Hi.
    eapply elem_of_sublist in Hi; [|exact Hsub].
    apply list_elem_of_In, filter_all in Hi. unfold onPiece in Hi.
    unfold movable. destruct (piecesById s !! i) as [p|]; [|discriminate].
    exists p. split; [reflexivity|]. now apply negb_true_iff in Hi.
  - unfold trayVisibleIds. apply prefix_take.
  - unfold trayVisibleIds. rewrite length_take. lia.
Qed.

(** X10.  The filter on edge pieces is applied only while an edge
    piece is available: then every piece listed is on the border of the
    grid and at least one is listed; otherwise the list is the one
    without the filter, and the effect switches the filter off.  So
    ticking the filter never empties a tray that had something to
    show. *)
Theorem edge_filter_never_empties (s : State) (zoomCells : option Zone)
    (filterByZoom : bool) :
  let c := trayCandidates s zoomCells filterByZoom true in
  let c0 := trayCandidates s zoomCells filterByZoom false in
  (if edgesAvailable c
   then ids c <> []
        /\ exists g, grid s = Some g
             /\ forall i, In i (ids c) ->
                  onPiece s (onEdge g) i = true /\ In i (ids c0)
   else ids c = ids c0 /\ edgeFilterAfterEffect true c = false)
  /\ (ids c = [] -> ids c0 = []).
Proof.
  intros c c0.
  assert (Hshape :
    if edgesAvailable c
    then ids c <> []
         /\ exists g, grid s = Some g
              /\ forall i, In i (ids c) ->
                   onPiece s (onEdge g) i = true /\ In i (ids c0)
    else ids c = ids c0 /\ edgeFilterAfterEffect true c = false).
  { pose proof (ids_with_edge_filter s zoomCells filterByZoom) as Hids.
    fold c c0 in Hids.
    destruct (edgesAvailable c) eqn:Eav.
    - assert (Hav := Eav). unfold c, trayCandidates in Hav. cbn [edgesAvailable] in Hav.
      destruct (grid s) as [g|] eqn:Eg; [|discriminate].
      assert (Hany : existsb (onPiece s (onEdge g)) (ids c0) = true).
      { unfold c0. rewrite ids_without_edge_filter, Eg.
        destruct zoomCells as [z|]; [|exact Hav].
        destruct filterByZoom; [exact Hav|].
        eapply existsb_filter. exact Hav. }
      split.
      + rewrite Hids. intros Hnil. apply filter_none in Hnil. congruence.
      + exists g. split; [reflexivity|]. intros i Hi. rewrite Hids in Hi.
        apply filter_In in Hi. tauto.
    - split.
      + rewrite Hids. now destruct (grid s).
      + unfold edgeFilterAfterEffect. now rewrite Eav. }
  split; [exact Hshape|].
  intros Hnil. destruct (edgesAvailable c).
  - destruct Hshape as [Hne _]. contradiction.
  - destruct Hshape as [<- _]. exact Hnil.
Qed.

(** With the filter on the zone in focus, every piece listed belongs
    to the zone. *)
Lemma zone_filter_inside s z fe i :
  In i (ids (trayCandidates s (Some z) true fe)) -> onPiece s (inZone z) i = true.
Proof.
  intros Hi.
  assert (H0 : forall j, In j (ids (trayCandidates s (Some z) true false)) ->
                 onPiece s (inZone z) j = true).
  { intros j Hj. rewrite ids_without_edge_filter in Hj.
    apply filter_all in Hj. unfold onPiece in *.
    destruct (piecesById s !! j); [|discriminate].
    now destruct (grid s). }
  destruct fe; [|now apply H0].
  rewrite ids_with_edge_filter in Hi. destruct (grid s) as [g|]; [|now apply H0].
  destruct (edgesAvailable _); [|now apply H0].
  apply filter_In in Hi. apply H0, Hi.
Qed.

End TrayFacts.


(** ** The session: the [placed] flags *)

Section FlagFacts.
Import Geometry Session Board.
Variable rng : Type.
Variable Math_random : rng -> R * rng.

Lemma flagged_same s s' :
  piecesById s' = piecesById s -> placements s' = placements s ->
  flagged s -> flagged s'.
Proof. intros Hp Hc Hf i p. rewrite Hp, Hc. apply Hf. Qed.

Lemma flagged_turned s (f : list Piece -> list Piece) :
  (forall i q, f (piecesById s) !! i = Some q ->
     exists p, piecesById s !! i = Some p /\ placed q = placed p) ->
  flagged s -> flagged (setPiecesById f s).
Proof.
  intros Hf Hs i q Hq. cbn in Hq |- *.
  destruct (Hf i q Hq) as (p & Hp & ->). now apply Hs.
Qed.

Lemma flagged_setPieceRotation pieceId next s :
  flagged s -> flagged (setPieceRotation pieceId next s).
Proof.
  apply flagged_turned. intros i q.
  destruct (piecesById s !! pieceId) as [p|] eqn:Ep; [|eauto].
  destruct (decide (pieceId = i)) as [->|Hne].
  - rewrite list_lookup_insert_eq by (eapply lookup_lt_Some; eassumption).
    intros [= <-]. eauto.
  - rewrite list_lookup_insert_ne by assumption. eauto.
Qed.

Lemma flagged_rotatePiece90 pieceId s :
  flagged s -> flagged (rotatePiece90 pieceId s).
Proof.
  intros Hs. unfold rotatePiece90.
  destruct (piecesById s !! pieceId); [|assumption].
  now apply flagged_setPieceRotation.
Qed.

Lemma flagged_uprightAll s : flagged s -> flagged (uprightAll s).
Proof.
  intros Hs. unfold uprightAll. destruct (rotationEnabled s); [assumption|].
  apply flagged_turned; [|assumption]. intros i q.
  change (map ?f ?l) with (f <$> l). rewrite list_lookup_fmap.
  destruct (piecesById s !! i) as [p|]; [|discriminate].
  intros [= <-]. eauto.
Qed.

(** The board after [unplacePiece]: the cell of the piece is empty, the
    others are as before. *)
Lemma unplaced_cells (cells : list (option nat)) pieceId i :
  (forall k j : nat, cells !! k = Some (Some j) -> j = k) ->
  (match list_find (λ x, x = Some pieceId) cells with
   | None => cells
   | Some (idx, _) => <[idx := None]> cells
   end) !! i
  = if decide (i = pieceId)
    then (match cells !! i with Some _ => Some None | None => None end)
    else cells !! i.
Proof.
  intros Hown.
  destruct (list_find _ cells) as [[idx x]|] eqn:E.
  - apply list_find_Some in E as (Hidx & -> & _).
    pose proof (Hown _ _ Hidx) as <-.
    destruct (decide (i = pieceId)) as [->|Hne].
    + rewrite list_lookup_insert_eq by (eapply lookup_lt_Some; eassumption).
      now rewrite Hidx.
    + now rewrite list_lookup_insert_ne by congruence.
  - apply list_find_None in E. destruct (decide (i = pieceId)) as [->|Hne];
      [|reflexivity].
    destruct (cells !! pieceId) as [[j|]|] eqn:Ec; try reflexivity.
    pose proof (Hown _ _ Ec) as ->.
    rewrite Forall_forall in E. exfalso. apply (E (Some pieceId)); [|reflexivity].
    eapply list_elem_of_lookup_2. exact Ec.
Qed.

Lemma flagged_unplacePiece pieceId s :
  sound s -> flagged s -> flagged (unplacePiece pieceId s).
Proof.
  intros (Hidx & (Hlen & Hown & _) & _) Hf i q. cbn.
  rewrite unplaced_cells by assumption. intros Hq.
  destruct (decide (i = pieceId)) as [->|Hne].
  - assert (placed q = false) as ->.
    { destruct (piecesById s !! pieceId) as [p|] eqn:Ep.
      - destruct (placed p) eqn:Epl.
        + rewrite list_lookup_insert_eq in Hq
            by (eapply lookup_lt_Some; eassumption).
          now injection Hq as <-.
        + rewrite Ep in Hq. now injection Hq as <-.
      - rewrite Ep in Hq. discriminate. }
    split; [discriminate|]. destruct (placements s !! pieceId); discriminate.
  - apply Hf. destruct (piecesById s !! pieceId) as [p|] eqn:Ep; [|assumption].
    destruct (placed p); [|assumption].
    now rewrite list_lookup_insert_ne in Hq by congruence.
Qed.

Lemma flagged_solvePuzzle s : sound s -> flagged s -> flagged (solvePuzzle s).
Proof.
  intros (_ & _ & Hgrid) Hf. unfold solvePuzzle.
  destruct (grid s) as [g|] eqn:Eg; [|assumption].
  intros i q. cbn. change (map ?f ?l) with (f <$> l).
  rewrite !list_lookup_fmap.
  destruct (piecesById s !! i) as [p|] eqn:Ep; [|discriminate].
  intros [= <-]. cbn. split; [intros _|reflexivity].
  rewrite (Hgrid g eq_refl). unfold pieceCount.
  rewrite lookup_seq_lt by (eapply lookup_lt_Some; eassumption). reflexivity.
Qed.

Lemma flagged_placePiece p s :
  sound s -> flagged s ->
  piecesById s !! id p = Some p ->
  flagged (placePiece (id p) (id p) s).
Proof.
  intros (_ & (Hlen & _ & _) & _) Hf Hp i q. cbn. rewrite Hp.
  assert (Hlt : id p < length (piecesById s))
    by (eapply lookup_lt_Some; eassumption).
  rewrite arraySet_inside by (unfold pieceCount in Hlen; lia).
  destruct (decide (id p = i)) as [<-|Hne].
  - rewrite !list_lookup_insert_eq by (unfold pieceCount in Hlen; lia).
    intros [= <-]. cbn. tauto.
  - rewrite !list_lookup_insert_ne by assumption. apply Hf.
Qed.

Lemma flagged_tryPlaceSelectedAtCell t s :
  sound s -> flagged s -> flagged (tryPlaceSelectedAtCell t s).
Proof.
  intros Hs Hf. pose proof Hs as (Hidx & _ & _).
  unfold tryPlaceSelectedAtCell.
  destruct (grid s) as [g|]; [|assumption].
  destruct (selectedPieceId s) as [sel|]; [|assumption].
  destruct (piecesById s !! sel) as [p|] eqn:Ep; [|assumption].
  assert (Hid : id p = sel) by (now apply Hidx).
  destruct (bool_decide (id p = t)) eqn:Et; cbn [andb];
    [|now apply (flagged_same s)].
  apply bool_decide_eq_true in Et.
  destruct (holds (placements s) t (id p)) eqn:Eh.
  - rewrite orb_true_r.
    destruct (rotationEnabled s && _); now apply (flagged_same s).
  - rewrite orb_false_r.
    destruct (isNull (placements s) t) eqn:En; [|now apply (flagged_same s)].
    assert (Hplaced : flagged (placePiece (id p) t s)).
    { subst t. apply flagged_placePiece; try assumption. now rewrite Hid. }
    destruct (rotationEnabled s && _);
      now apply (flagged_same (placePiece (id p) t s)).
Qed.

Lemma flagged_boardClick t s :
  sound s -> flagged s -> flagged (boardClick t s).
Proof.
  intros Hs Hf. unfold boardClick.
  destruct (grid s) as [g|] eqn:Eg; [|assumption].
  destruct (selectedPieceId s) as [sel|] eqn:Esel.
  - now apply flagged_tryPlaceSelectedAtCell.
  - destruct (placements s !! t) as [[pid|]|]; try assumption.
    destruct (piecesById s !! pid) as [p|]; [|assumption].
    destruct (isPieceCorrect _ _ _); [assumption|].
    now apply (flagged_same s).
Qed.

Lemma flagged_selectPiece pieceId s : flagged s -> flagged (selectPiece pieceId s).
Proof.
  intros Hf. unfold selectPiece.
  destruct (piecesById s !! pieceId) as [p|]; [|assumption].
  destruct (isPieceCorrect _ _ _); [assumption|].
  now apply (flagged_same s).
Qed.

Lemma flagged_releaseSelection s : flagged s -> flagged (releaseSelection s).
Proof.
  intros Hf. unfold releaseSelection.
  destruct (negb (rotationEnabled s)); [assumption|].
  destruct (selectedPieceId s) as [sel|]; [|assumption].
  destruct (grid s) as [g|]; [|assumption].
  destruct (piecesById s !! sel) as [p|]; [|assumption].
  destruct (_ && _); [|assumption]. now apply (flagged_same s).
Qed.

Lemma tidy_step a s : tidy s -> tidy (step rng Math_random a s).
Proof.
  intros [Hs Hf]. split; [now apply sound_step|].
  destruct a; cbn [step].
  - now apply flagged_selectPiece.
  - now apply flagged_rotatePiece90.
  - now apply flagged_boardClick.
  - now apply flagged_tryPlaceSelectedAtCell.
  - now apply flagged_unplacePiece.
  - now apply flagged_solvePuzzle.
  - now apply (flagged_same s).
  - now apply (flagged_same s).
  - now apply flagged_releaseSelection.
  - now apply flagged_uprightAll.
Qed.

Lemma flagged_loaded n aspect image opts rot generated g1 g1' g2 :
  generatePieces rng Math_random image (GridSolver.findBestGrid n aspect)
    opts g1 = (Some generated, g1') ->
  flagged (loaded rng Math_random (GridSolver.findBestGrid n aspect) rot
             generated g2).
Proof.
  intros Hgen.
  destruct (generatePieces_returns rng Math_random image
              (GridSolver.findBestGrid n aspect) opts g1) as (pieces & E & HF).
  rewrite Hgen in E. cbn in E. injection E as <-.
  destruct (generated_ids _ _ _ _ HF) as [Hids Hunplaced].
  assert (Hlen : length generated
                 = (Z.to_nat (rows (GridSolver.findBestGrid n aspect))
                    * Z.to_nat (cols (GridSolver.findBestGrid n aspect)))%nat)
    by (now rewrite <- (length_map id), Hids, length_seq).
  rewrite <- Hlen in Hids.
  intros i p. unfold loaded. cbn [piecesById placements].
  rewrite (sortById_ascending generated 0 Hids). intros Hp.
  assert (Hpl : placed p = false).
  { rewrite List.Forall_forall in Hunplaced. apply Hunplaced.
    apply list_elem_of_In. eapply list_elem_of_lookup_2. exact Hp. }
  rewrite Hpl. split; [discriminate|].
  intros H. apply lookup_replicate in H as [H _]. discriminate.
Qed.

Lemma reachable_tidy s : reachable rng Math_random s -> tidy s.
Proof.
  intros Hr. induction Hr
    as [|n aspect image opts rot generated g1 g1' g2 Hn Hgen|a s Hr IH].
  - split; [apply sound_empty|]. intros i p H. discriminate.
  - split; [eapply sound_loaded; eassumption|eapply flagged_loaded; eassumption].
  - now apply tidy_step.
Qed.

(** The counter of placed pieces counts the occupied cells. *)
Lemma count_flags (pieces : list Piece) : forall (cells : list (option nat)) k acc,
  length cells = length pieces ->
  (forall i p, pieces !! i = Some p ->
     (placed p = true <-> cells !! i = Some (Some (k + i)))) ->
  (forall i j, cells !! i = Some (Some j) -> j = k + i) ->
  fold_left (fun acc p => acc + (if placed p then 1 else 0)) pieces acc
  = acc + length (omap (λ x, x) cells).
Proof.
  induction pieces as [|p pieces IH]; intros cells k acc Hlen Hflag Hown.
  - destruct cells; [|discriminate]. cbn. lia.
  - destruct cells as [|c cells]; [discriminate|]. cbn [fold_left].
    rewrite (IH cells (S k)).
    + pose proof (Hflag 0 p eq_refl) as H0. cbn in H0.
      destruct c as [j|].
      * change (omap (λ x : option nat, x) (Some j :: cells))
          with (j :: omap (λ x : option nat, x) cells). cbn [length].
        pose proof (Hown 0 j eq_refl) as ->.
        destruct (placed p); [lia|]. destruct H0 as [_ H0].
        specialize (H0 eq_refl). discriminate.
      * change (omap (λ x : option nat, x) (None :: cells))
          with (omap (λ x : option nat, x) cells).
        destruct (placed p); [|lia]. destruct H0 as [H0 _].
        specialize (H0 eq_refl). discriminate.
    + cbn in Hlen. lia.
    + intros i q Hq. rewrite (Hflag (S i) q Hq). cbn [lookup list_lookup].
      replace (k + S i) with (S k + i) by lia. reflexivity.
    + intros i j Hj. rewrite (Hown (S i) j Hj). lia.
Qed.

Lemma tidy_placedCount s : tidy s -> placedCount s = length (onBoard s).
Proof.
  intros [(_ & (Hlen & Hown & _) & _) Hf]. unfold placedCount, onBoard.
  rewrite (count_flags (piecesById s) (placements s) 0 0); auto.
Qed.

(** X12.  In every state of a session the [placed] flag of a piece is
    set exactly when the piece is on its cell, and the counter
    "Placées" counts the occupied cells of the board. *)
Theorem placed_flags_invariant (s : State) :
  reachable rng Math_random s ->
  flagged s /\ placedCount s = length (onBoard s).
Proof.
  intros Hr. apply reachable_tidy in Hr.
  split; [apply Hr|now apply tidy_placedCount].
Qed.

End FlagFacts.

Lemma placed_flags_invariant_witness :
  flagged fiftyPlayed
  /\ Board.placedCount fiftyPlayed = length (Session.onBoard fiftyPlayed).
Proof.
  apply (placed_flags_invariant Geometry.tape Geometry.replay).
  apply fiftyPlayed_reachable.
Defined.


(** ** The session: locked pieces, the tray, solving, taking back *)

Section LockFacts.
Import Geometry Session Board.

Lemma six_tidy rot : tidy (sixPieces rot).
Proof.
  split; [split; [|split; [split; [|split]|]]|].
  - intros i p. do 6 (destruct i as [|i]; [intros [= <-]; reflexivity|]).
    discriminate.
  - reflexivity.
  - intros i j. do 6 (destruct i as [|i]; [discriminate|]). discriminate.
  - intros i Hi. cbn in Hi.
    do 6 (destruct i as [|i]; [right; split; reflexivity|]). lia.
  - intros g [= <-]. reflexivity.
  - intros i p. do 6 (destruct i as [|i];
      [intros [= <-]; split; discriminate|]). discriminate.
Qed.

Lemma withPlaced_same p : withPlaced p (placed p) = p.
Proof. now destruct p. Qed.

Lemma withRotation_same p : withRotation p (rotation p) = p.
Proof. now destruct p. Qed.

Lemma candidates_movable s zoomCells fz fe i :
  In i (ids (trayCandidates s zoomCells fz fe)) -> movable s i.
Proof.
  intros Hi. apply list_elem_of_In in Hi.
  eapply elem_of_sublist in Hi; [|apply candidates_sublist].
  apply list_elem_of_In, filter_all in Hi. unfold onPiece in Hi.
  unfold movable. destruct (piecesById s !! i) as [p|]; [|discriminate].
  exists p. split; [reflexivity|]. now apply negb_true_iff in Hi.
Qed.

(** X11.  While the tray is restricted to the zone in focus, every
    piece it lists has its cell in the zone, and once the effect on
    the selection has run, the selected piece, if any, has too; the
    effect changes nothing but the selection. *)
Theorem zone_filter_restricts (s : State) (z : Zone) (filterEdgesOnly : bool) :
  let s' := zoneFilterEffect true (Some z) s in
  (forall i, In i (ids (trayCandidates s (Some z) true filterEdgesOnly)) ->
     onPiece s (inZone z) i = true)
  /\ (forall sel, selectedPieceId s' = Some sel ->
        selectedPieceId s = Some sel /\ onPiece s' (inZone z) sel = true)
  /\ piecesById s' = piecesById s /\ trayOrder s' = trayOrder s
  /\ placements s' = placements s.
Proof.
  intros s'. split; [intros i; apply zone_filter_inside|].
  unfold s', zoneFilterEffect. cbn [negb].
  destruct (selectedPieceId s) as [sel|] eqn:Esel.
  - destruct (onPiece s (inZone z) sel) eqn:Ein.
    + split; [|split; [|split]; reflexivity].
      intros sel'. rewrite Esel. intros [= <-]. now split.
    + split; [|split; [|split]; reflexivity]. discriminate.
  - split; [|split; [|split]; reflexivity]. rewrite Esel. discriminate.
Qed.

(** A piece of the tray is not on the board. *)
Lemma tray_piece_off_board s i :
  tidy s -> i ∈ trayOrder s -> i < pieceCount s ->
  exists p, piecesById s !! i = Some p /\ placed p = false
    /\ placements s !! i = Some None.
Proof.
  intros [(Hidx & (Hlen & Hown & Halt) & _) Hf] Hin Hi.
  destruct (lookup_lt_is_Some_2 (piecesById s) i Hi) as [p Hp].
  exists p. split; [assumption|].
  destruct (Halt i Hi) as [[_ Hocc]|[Hcell _]].
  - apply occurrences_zero in Hocc. contradiction.
  - split; [|assumption]. destruct (placed p) eqn:Epl; [|reflexivity].
    apply (Hf i p Hp) in Epl. congruence.
Qed.

(** X13.  In every state of a session the pieces of the tray are not
    placed and not locked, so that without a filter the tray on
    display is the tray itself, less the ids that are no piece. *)
Theorem tray_pieces_movable {rng : Type} (Math_random : rng -> R * rng)
    (s : State) :
  reachable rng Math_random s ->
  (forall i, In i (trayOrder s) -> i < pieceCount s ->
     movable s i
     /\ exists p, piecesById s !! i = Some p /\ placed p = false)
  /\ ids (trayCandidates s None false false)
     = List.filter (fun i => i <? pieceCount s) (trayOrder s).
Proof.
  intros Hr. apply reachable_tidy in Hr.
  assert (Hoff : forall i, In i (trayOrder s) -> i < pieceCount s ->
            exists p, piecesById s !! i = Some p /\ placed p = false).
  { intros i Hin Hi. apply list_elem_of_In in Hin.
    destruct (tray_piece_off_board s i Hr Hin Hi) as (p & Hp & Hpl & _). eauto. }
  split.
  - intros i Hin Hi. destruct (Hoff i Hin Hi) as (p & Hp & Hpl).
    split; [|eauto]. exists p. split; [assumption|].
    unfold isPieceCorrect. now rewrite Hpl.
  - rewrite ids_without_edge_filter. apply filter_ext_in. intros i Hin.
    unfold onPiece. destruct (Nat.ltb_spec i (pieceCount s)) as [Hi|Hi].
    + destruct (Hoff i Hin Hi) as (p & -> & Hpl).
      unfold isPieceCorrect. now rewrite Hpl.
    + now rewrite lookup_ge_None_2.
Qed.

Lemma tray_pieces_movable_witness :
  ids (trayCandidates fiftyPlayed None false false)
  = List.filter (fun i => i <? pieceCount fiftyPlayed) (trayOrder fiftyPlayed).
Proof.
  apply (tray_pieces_movable replay). apply fiftyPlayed_reachable.
Defined.

(** X14.  A piece put on its own, empty cell while upright (or with
    rotation off) is locked: it is correct, a click on the piece or on
    its cell no longer selects it, and no setting of the filters lists
    it in the tray. *)
Theorem placed_piece_is_locked (s : State) (g : Grid) (sel : nat) (p : Piece) :
  grid s = Some g ->
  selectedPieceId s = Some sel ->
  piecesById s !! sel = Some p ->
  id p = sel ->
  isNull (placements s) sel = true ->
  rotationEnabled s = false \/ rotation p = R0 ->
  let s' := tryPlaceSelectedAtCell sel s in
  piecesById s' !! sel = Some (withPlaced p true)
  /\ isPieceCorrect (withPlaced p true) (placements s') (rotationEnabled s')
     = true
  /\ selectPiece sel s' = s'
  /\ boardClick sel s' = s'
  /\ forall zoomCells fz fe,
       ~ In sel (ids (trayCandidates s' zoomCells fz fe)).
Proof.
  intros Hg Hsel Hp Hid Hnull Hup s'.
  assert (Hok : negb (rotationEnabled s) || isR0 (rotation p) = true).
  { destruct Hup as [->| ->]; [reflexivity|apply orb_true_r]. }
  assert (Es' : s' = setSelectedPieceId None
                       (flash good (placePiece sel sel s))).
  { unfold s', tryPlaceSelectedAtCell. rewrite Hg, Hsel, Hp, Hid, Hnull, Hok.
    rewrite bool_decide_eq_true_2 by reflexivity. cbn [andb orb negb].
    assert (holds (placements s) sel sel = false) as ->.
    { apply not_true_is_false. rewrite holds_spec. intros H.
      apply isNull_spec in Hnull. destruct Hnull; congruence. }
    now rewrite andb_false_r. }
  assert (Hpiece : piecesById s' !! sel = Some (withPlaced p true)).
  { rewrite Es'. cbn. rewrite Hp.
    apply list_lookup_insert_eq. eapply lookup_lt_Some. exact Hp. }
  assert (Hcell : placements s' !! sel = Some (Some sel)).
  { rewrite Es'. cbn. apply arraySet_lookup. }
  assert (Hrot : rotationEnabled s' = rotationEnabled s) by now rewrite Es'.
  assert (Hcorrect : isPieceCorrect (withPlaced p true) (placements s')
                       (rotationEnabled s') = true).
  { unfold isPieceCorrect. cbn [placed withPlaced id rotation andb].
    rewrite Hid, Hrot, Hok, andb_true_r. now apply holds_spec. }
  split; [assumption|]. split; [assumption|]. split; [|split].
  - unfold selectPiece. now rewrite Hpiece, Hcorrect.
  - unfold boardClick.
    assert (grid s' = Some g) as -> by now rewrite Es'.
    assert (selectedPieceId s' = None) as -> by now rewrite Es'.
    now rewrite Hcell, Hpiece, Hcorrect.
  - intros zoomCells fz fe Hin. apply candidates_movable in Hin.
    destruct Hin as (q & Hq & Hmov). rewrite Hpiece in Hq. injection Hq as <-.
    congruence.
Qed.

Lemma placed_piece_is_locked_witness :
  selectPiece 4 (tryPlaceSelectedAtCell 4 (sixPieces R0))
  = tryPlaceSelectedAtCell 4 (sixPieces R0)
  /\ boardClick 4 (tryPlaceSelectedAtCell 4 (sixPieces R0))
     = tryPlaceSelectedAtCell 4 (sixPieces R0).
Proof.
  destruct (placed_piece_is_locked (sixPieces R0) (mkGrid 2 3 6) 4
              (plainPiece 3 R0 4) eq_refl eq_refl eq_refl eq_refl eq_refl
              (or_intror eq_refl)) as (_ & _ & Hsel & Hclick & _).
  split; assumption.
Defined.

(** X15.  "Résoudre" on a loaded puzzle leaves every piece correct
    (placed on its cell and upright), the tray empty whatever the
    filters, nothing selected, and the counter of placed pieces at the
    number of pieces. *)
Theorem solvePuzzle_completes (s : State) (g : Grid) :
  sound s -> grid s = Some g ->
  let s' := solvePuzzle s in
  (forall i p, piecesById s' !! i = Some p ->
     isPieceCorrect p (placements s') (rotationEnabled s') = true)
  /\ trayOrder s' = []
  /\ (forall zoomCells fz fe, ids (trayCandidates s' zoomCells fz fe) = [])
  /\ selectedPieceId s' = None
  /\ placedCount s' = pieceCount s
  /\ pieceCount s' = pieceCount s.
Proof.
  intros (Hidx & _ & Hgrid) Hg s'.
  assert (Es' : s' = flash good (setSelectedPieceId None
                  (setTrayOrder (λ _, [])
                    (setPlacements (λ _, Some <$> seq 0 (Z.to_nat (count g)))
                      (setPiecesById
                         (map (λ p, withPlaced (withRotation p R0) true)) s)))))
    by (unfold s', solvePuzzle; now rewrite Hg).
  assert (Htray : trayOrder s' = []) by now rewrite Es'.
  split; [|split; [assumption|split; [|split; [|split]]]].
  - intros i q. rewrite Es'. cbn. change (map ?f ?l) with (f <$> l).
    rewrite list_lookup_fmap.
    destruct (piecesById s !! i) as [p|] eqn:Ep; [|discriminate].
    intros [= <-]. unfold isPieceCorrect. cbn [placed withPlaced withRotation
      id rotation isR0 andb]. rewrite orb_true_r, andb_true_r.
    apply holds_spec. rewrite (Hidx i p Ep), list_lookup_fmap.
    rewrite lookup_seq_lt; [reflexivity|].
    rewrite (Hgrid g Hg). eapply lookup_lt_Some. exact Ep.
  - intros zoomCells fz fe.
    pose proof (candidates_sublist s' zoomCells fz fe) as Hsub.
    rewrite Htray in Hsub. cbn [List.filter] in Hsub.
    now apply sublist_nil_r in Hsub.
  - now rewrite Es'.
  - rewrite Es'. unfold placedCount, pieceCount. cbn [piecesById flash
      setSelectedPieceId setTrayOrder setPlacements setPiecesById].
    generalize (piecesById s) as l. intros l.
    assert (H : forall acc,
              fold_left (λ acc p, acc + (if placed p then 1 else 0))
                (map (λ p, withPlaced (withRotation p R0) true) l) acc
              = acc + length l).
    { induction l as [|p l IH]; intros acc; cbn [map fold_left length]; [lia|].
      rewrite IH. cbn [placed withPlaced]. lia. }
    apply H.
  - rewrite Es'. unfold pieceCount. cbn. apply length_map.
Qed.

Lemma solvePuzzle_completes_witness :
  trayOrder (solvePuzzle (sixPieces R90)) = []
  /\ placedCount (solvePuzzle (sixPieces R90)) = 6.
Proof.
  destruct (solvePuzzle_completes (sixPieces R90) (mkGrid 2 3 6))
    as (_ & Htray & _ & _ & Hcount & _).
  - apply six_tidy.
  - reflexivity.
  - split; [exact Htray|exact Hcount].
Defined.

(** X16.  Taking back a piece that was just put on its cell restores
    the pieces and the board; the piece returns to the tray at the
    front. *)
Theorem unplace_undoes_place (s : State) (i : nat) (p : Piece) :
  tidy s ->
  piecesById s !! i = Some p ->
  placed p = false ->
  let s' := unplacePiece i (placePiece i i s) in
  piecesById s' = piecesById s
  /\ placements s' = placements s
  /\ trayOrder s' = i :: removeFromArray (trayOrder s) i
  /\ grid s' = grid s /\ selectedPieceId s' = selectedPieceId s.
Proof.
  intros [(Hidx & (Hlen & Hown & Halt) & _) Hf] Hp Hpl s'.
  assert (Hi : i < pieceCount s) by (eapply lookup_lt_Some; exact Hp).
  assert (Hcell : placements s !! i = Some None).
  { destruct (Halt i Hi) as [[Hc _]|[Hc _]]; [|assumption].
    apply (Hf i p Hp) in Hc. congruence. }
  assert (Htray : occurrences i (trayOrder s) = 1).
  { destruct (Halt i Hi) as [[Hc _]|[_ Ho]]; [congruence|assumption]. }
  unfold s', unplacePiece, placePiece. cbn. rewrite Hp.
  rewrite list_lookup_insert_eq by (unfold pieceCount in Hi; lia).
  cbn [placed withPlaced]. rewrite arraySet_inside by lia.
  repeat split.
  - rewrite list_insert_insert_eq.
    replace (withPlaced (withPlaced p true) false) with p
      by (rewrite <- Hpl at 1; destruct p; reflexivity).
    now apply list_insert_id.
  - apply list_eq. intros k.
    rewrite unplaced_cells.
    + destruct (decide (k = i)) as [->|Hne].
      * rewrite list_lookup_insert_eq by lia. now rewrite Hcell.
      * now rewrite list_lookup_insert_ne by congruence.
    + intros k' j. destruct (decide (i = k')) as [<-|Hne].
      * rewrite list_lookup_insert_eq by lia. congruence.
      * rewrite list_lookup_insert_ne by assumption. apply Hown.
  - rewrite bool_decide_eq_false_2; [reflexivity|].
    apply occurrences_zero. rewrite occurrences_removeFromArray.
    rewrite decide_True by reflexivity. lia.
Qed.

Lemma unplace_undoes_place_witness :
  placements (unplacePiece 4 (placePiece 4 4 (sixPieces R0)))
  = placements (sixPieces R0).
Proof.
  destruct (unplace_undoes_place (sixPieces R0) 4 (plainPiece 3 R0 4)
              (six_tidy R0) eq_refl eq_refl) as (_ & H & _).
  exact H.
Defined.

(** [unplacePiece] on a piece of the tray, or on an id that is no
    piece and is in the tray, changes nothing. *)
Lemma unplace_in_tray s i :
  tidy s -> i ∈ trayOrder s -> unplacePiece i s = s.
Proof.
  intros Ht Hin. pose proof Ht as [(Hidx & (Hlen & Hown & Halt) & _) Hf].
  assert (Hcells : (match list_find (λ x, x = Some i) (placements s) with
                    | None => placements s
                    | Some (idx, _) => <[idx := None]> (placements s)
                    end) = placements s).
  { destruct (list_find _ _) as [[idx x]|] eqn:E; [|reflexivity].
    apply list_find_Some in E as (Hc & -> & _).
    pose proof (Hown _ _ Hc) as <-.
    assert (Hi : i < pieceCount s)
      by (rewrite <- Hlen; eapply lookup_lt_Some; exact Hc).
    destruct (Halt i Hi) as [[_ Ho]|[Hc' _]]; [|congruence].
    apply occurrences_zero in Ho. contradiction. }
  assert (Hpieces : (match piecesById s !! i with
                     | None => piecesById s
                     | Some p => if placed p
                                 then <[i := withPlaced p false]> (piecesById s)
                                 else piecesById s
                     end) = piecesById s).
  { destruct (piecesById s !! i) as [p|] eqn:Ep; [|reflexivity].
    assert (Hi : i < pieceCount s) by (eapply lookup_lt_Some; exact Ep).
    destruct (tray_piece_off_board s i Ht Hin Hi) as (q & Hq & Hpl & _).
    rewrite Ep in Hq. injection Hq as <-. now rewrite Hpl. }
  unfold unplacePiece, setTrayOrder, setPlacements, setPiecesById. cbn.
  rewrite Hcells, Hpieces, bool_decide_eq_true_2 by assumption.
  now destruct s.
Qed.

End LockFacts.


(** ** The session: taking back twice, turning, the tray as an array *)

Section HandlerFacts.
Import Geometry Session Board.
Variable rng : Type.
Variable Math_random : rng -> R * rng.

(** X17.  Taking back is idempotent: in every state of a session,
    [unplacePiece] of an id a second time changes nothing. *)
Theorem unplacePiece_idempotent (s : State) (i : nat) :
  reachable rng Math_random s ->
  unplacePiece i (unplacePiece i s) = unplacePiece i s.
Proof.
  intros Hr. apply reachable_tidy in Hr. destruct Hr as [Hs Hf].
  apply unplace_in_tray.
  - split; [now apply sound_unplacePiece|now apply flagged_unplacePiece].
  - cbn. destruct (bool_decide (i ∈ trayOrder s)) eqn:E.
    + now apply bool_decide_eq_true in E.
    + apply list_elem_of_here.
Qed.

Lemma rotate90_cycle r : rotate90 (rotate90 (rotate90 (rotate90 r))) = r.
Proof. now destruct r. Qed.

Lemma rotatePiece90_known s i p :
  piecesById s !! i = Some p ->
  rotatePiece90 i s
  = setPiecesById (λ l, <[i := withRotation p (rotate90 (rotation p))]> l) s.
Proof.
  intros Hp. unfold rotatePiece90, setPieceRotation, setPiecesById.
  now rewrite Hp.
Qed.

(** X18.  Turning a piece changes its rotation only: the tray, the
    board, the selection, the other pieces and the other fields of the
    piece stay as they are; and four quarter turns give back the
    state. *)
Theorem rotatePiece90_turns_only (s : State) (i : nat) :
  let s' := rotatePiece90 i s in
  trayOrder s' = trayOrder s /\ placements s' = placements s
  /\ selectedPieceId s' = selectedPieceId s /\ grid s' = grid s
  /\ (forall j, j <> i -> piecesById s' !! j = piecesById s !! j)
  /\ (forall p, piecesById s !! i = Some p ->
        piecesById s' !! i = Some (withRotation p (rotate90 (rotation p))))
  /\ rotatePiece90 i (rotatePiece90 i (rotatePiece90 i s')) = s.
Proof.
  intros s'. unfold s'.
  destruct (piecesById s !! i) as [p|] eqn:Ep.
  - assert (Hi : i < length (piecesById s)) by (eapply lookup_lt_Some; exact Ep).
    rewrite (rotatePiece90_known s i p Ep).
    split; [reflexivity|]. split; [reflexivity|]. split; [reflexivity|].
    split; [reflexivity|]. split; [|split].
    + intros j Hj. cbn. now rewrite list_lookup_insert_ne by congruence.
    + intros q [= <-]. cbn. now apply list_lookup_insert_eq.
    + set (turn := λ q, withRotation q (rotate90 (rotation q))).
      assert (Hstep : forall q t, piecesById t !! i = Some q ->
                rotatePiece90 i t
                = setPiecesById (λ l, <[i := turn q]> l) t)
        by (intros q t Hq; now apply rotatePiece90_known).
      assert (Hlook : forall q t, i < length (piecesById t) ->
                piecesById (setPiecesById (λ l, <[i := q]> l) t) !! i = Some q)
        by (intros q t Ht; cbn; now apply list_lookup_insert_eq).
      fold (turn p).
      set (s1 := setPiecesById (λ l, <[i := turn p]> l) s).
      assert (H1 : i < length (piecesById s1))
        by (cbn; now rewrite length_insert).
      rewrite (Hstep (turn p) s1) by (now apply Hlook).
      set (s2 := setPiecesById (λ l, <[i := turn (turn p)]> l) s1).
      assert (H2 : i < length (piecesById s2))
        by (cbn; now rewrite !length_insert).
      rewrite (Hstep (turn (turn p)) s2) by (now apply Hlook).
      set (s3 := setPiecesById (λ l, <[i := turn (turn (turn p))]> l) s2).
      rewrite (Hstep (turn (turn (turn p))) s3) by (now apply Hlook).
      unfold s3, s2, s1.
      unfold setPiecesById. cbn. rewrite !list_insert_insert_eq.
      replace (turn (turn (turn (turn p)))) with p.
      * rewrite list_insert_id by assumption. now destruct s.
      * unfold turn. destruct p as [? ? ? ? ? ? ? ? ? ? r ?]. cbn.
        now rewrite rotate90_cycle.
  - assert (Hn : rotatePiece90 i s = s)
      by (unfold rotatePiece90; now rewrite Ep).
    rewrite !Hn.
    split; [reflexivity|]. split; [reflexivity|]. split; [reflexivity|].
    split; [reflexivity|]. split; [reflexivity|]. split; [discriminate|].
    reflexivity.
Qed.

(** X19.  [removeFromArray] takes out the first occurrence of the id
    and nothing else; an array without the id is left as it is. *)
Theorem removeFromArray_first (l1 l2 : list nat) (x : nat) :
  x ∉ l1 ->
  removeFromArray (l1 ++ x :: l2) x = l1 ++ l2
  /\ removeFromArray l1 x = l1.
Proof.
  intros Hx. split.
  - now apply removeFromArray_split.
  - now apply removeFromArray_absent.
Qed.

Lemma removeFromArray_first_witness :
  removeFromArray ([3; 1] ++ 4 :: [0; 4; 2]) 4 = [3; 1] ++ [0; 4; 2].
Proof.
  apply (removeFromArray_first [3; 1] [0; 4; 2] 4).
  intros H. repeat (apply elem_of_cons in H as [H|H]; [discriminate|]).
  now apply elem_of_nil in H.
Defined.

(** *** shuffleInPlace *)

Lemma shuffle_index (u : R) (i : nat) :
  (0 <= u < 1)%R -> Z.to_nat (Zfloor (u * INR (S i))) <= i.
Proof.
  intros [H0 H1].
  assert (Hpos : (0 < INR (S i))%R) by (apply lt_0_INR; lia).
  assert (Hlt : (Zfloor (u * INR (S i)) < Z.of_nat (S i))%Z).
  { apply lt_IZR. rewrite <- INR_IZR_INZ.
    pose proof (Zfloor_bound (u * INR (S i))) as [Hb _]. nra. }
  lia.
Qed.

Lemma swap_length {A} (arr : list A) i j : length (swap arr i j) = length arr.
Proof.
  unfold swap. destruct (arr !! i), (arr !! j); try reflexivity.
  now rewrite !length_insert.
Qed.

Lemma swap_inside {A} (arr : list A) i j :
  i < length arr -> j < length arr ->
  exists a b, arr !! i = Some a /\ arr !! j = Some b
    /\ swap arr i j = <[i := b]> (<[j := a]> arr)
    /\ swap arr i j ≡ₚ arr.
Proof.
  intros Hi Hj.
  destruct (lookup_lt_is_Some_2 arr i Hi) as [a Ha].
  destruct (lookup_lt_is_Some_2 arr j Hj) as [b Hb].
  exists a, b. unfold swap. rewrite Ha, Hb.
  repeat split; try reflexivity. now apply Permutation_insert_swap.
Qed.

Lemma shuffleFrom_permutes {A} (H01 : drawsInUnit Math_random) (i : nat) :
  forall (arr : list A) g,
  i < length arr \/ i = 0 ->
  fst (shuffleFrom rng Math_random i arr g) ≡ₚ arr.
Proof.
  induction i as [|i IH]; intros arr g Hi; cbn [shuffleFrom].
  - reflexivity.
  - unfold bind. pose proof (H01 g) as Hu.
    destruct (Math_random g) as [u g1]. cbn [fst] in Hu.
    assert (Hlen : S i < length arr) by lia.
    replace (S i + 1) with (S (S i)) by lia.
    pose proof (shuffle_index u (S i) Hu) as Hj.
    destruct (swap_inside arr (S i) (Z.to_nat (Zfloor (u * INR (S (S i)))))
                Hlen ltac:(lia)) as (a & b & _ & _ & _ & Hperm).
    rewrite IH; [exact Hperm|]. rewrite swap_length. lia.
Qed.

(** X20.  With [Math.random] in [0, 1), [shuffleInPlace] returns a
    permutation of the array, of the same length: no element is lost,
    duplicated or replaced. *)
Theorem shuffleInPlace_permutes {A} (arr : list A) (g : rng) :
  drawsInUnit Math_random ->
  fst (shuffleInPlace rng Math_random arr g) ≡ₚ arr
  /\ length (fst (shuffleInPlace rng Math_random arr g)) = length arr.
Proof.
  intros H01.
  assert (Hperm : fst (shuffleInPlace rng Math_random arr g) ≡ₚ arr).
  { unfold shuffleInPlace. apply shuffleFrom_permutes; [assumption|].
    destruct arr; cbn [length]; lia. }
  split; [exact Hperm|now rewrite Hperm].
Qed.

(** X21.  With [Math.random] in [0, 1), [randomRotation90] picks one of
    the four quarter turns by the quarter of [0, 1) in which the draw
    falls, and consumes one draw. *)
Theorem randomRotation90_by_quarter (g : rng) :
  drawsInUnit Math_random ->
  let u := fst (Math_random g) in
  randomRotation90 rng Math_random g
  = ((if Rlt_dec u 0.25 then R0
      else if Rlt_dec u 0.5 then R90
      else if Rlt_dec u 0.75 then R180 else R270),
     snd (Math_random g)).
Proof.
  intros H01 u. unfold randomRotation90, bind, ret.
  pose proof (H01 g) as Hu. fold u in Hu. subst u.
  destruct (Math_random g) as [u g1]. cbn [fst snd] in *.
  f_equal.
  destruct (Rlt_dec u 0.25); [rewrite (Zfloor_eq 0) by lra; reflexivity|].
  destruct (Rlt_dec u 0.5); [rewrite (Zfloor_eq 1) by lra; reflexivity|].
  destruct (Rlt_dec u 0.75); [rewrite (Zfloor_eq 2) by lra; reflexivity|].
  rewrite (Zfloor_eq 3) by lra. reflexivity.
Qed.

End HandlerFacts.

Section HarmonicFacts.
Import Geometry Session.

Lemma harmonic_in_unit : drawsInUnit harmonic.
Proof.
  intros n. cbn [harmonic fst].
  assert (H : (2 <= INR (n + 2))%R).
  { rewrite plus_INR. pose proof (pos_INR n). cbn. lra. }
  assert (Hinv : (0 < / INR (n + 2))%R) by (apply Rinv_0_lt_compat; lra).
  assert (Hone : (INR (n + 2) * / INR (n + 2) = 1)%R) by (apply Rinv_r; lra).
  split; [lra|nra].
Qed.

Lemma unplacePiece_idempotent_witness :
  unplacePiece 12 (unplacePiece 12 fiftyPlayed) = unplacePiece 12 fiftyPlayed.
Proof.
  apply (unplacePiece_idempotent tape replay). apply fiftyPlayed_reachable.
Defined.

Lemma shuffleInPlace_permutes_witness :
  fst (shuffleInPlace nat harmonic [3; 1; 4; 0; 5; 2] 0) ≡ₚ [3; 1; 4; 0; 5; 2].
Proof.
  apply (shuffleInPlace_permutes nat harmonic [3; 1; 4; 0; 5; 2] 0).
  exact harmonic_in_unit.
Defined.

Lemma randomRotation90_by_quarter_witness :
  randomRotation90 nat harmonic 0
  = ((if Rlt_dec (/ INR 2) 0.25 then R0
      else if Rlt_dec (/ INR 2) 0.5 then R90
      else if Rlt_dec (/ INR 2) 0.75 then R180 else R270), 1).
Proof.
  apply (randomRotation90_by_quarter nat harmonic 0). exact harmonic_in_unit.
Defined.

End HarmonicFacts.


(** ** generatePieces.ts: the edges drawn and the outline *)

Section DrawnEdgeFacts.
Import Geometry.
Local Open Scope R_scope.
Variable rng : Type.
Variable Math_random : rng -> R * rng.
Hypothesis H01 : drawsInUnit Math_random.

Lemma rand_range lo hi g :
  lo <= hi ->
  lo <= fst (rand rng Math_random lo hi g)
  /\ (lo < hi -> fst (rand rng Math_random lo hi g) < hi).
Proof.
  intros Hle. unfold rand, bind, ret. pose proof (H01 g) as Hu.
  destruct (Math_random g) as [u g1]. cbn [fst] in *. split; [nra|].
  intros Hlt. nra.
Qed.

Lemma randomSpec_regular g : regular (fst (randomSpec rng Math_random g)).
Proof.
  split; [apply randomSpec_tabbed|].
  unfold randomSpec, bind, ret.
  destruct (Math_random g) as [u g1].
  pose proof (rand_range 0.92 1.06 g1 ltac:(lra)) as [Hw0 Hw1].
  destruct (rand rng Math_random 0.92 1.06 g1) as [w g2].
  pose proof (rand_range 0.90 1.12 g2 ltac:(lra)) as [Hn0 Hn1].
  destruct (rand rng Math_random 0.90 1.12 g2) as [n g3].
  pose proof (rand_range (-1) 1 g3 ltac:(lra)) as [Hs0 Hs1].
  destruct (rand rng Math_random (-1) 1 g3) as [s g4].
  cbn [fst widthF neckF skewF] in *.
  repeat split; try assumption; (apply Hw1 || apply Hn1 || apply Hs1); lra.
Qed.

Lemma buildEdges_regular grid g :
  Forall (Forall regular) (vEdges (fst (buildEdges rng Math_random grid g)))
  /\ Forall (Forall regular) (hEdges (fst (buildEdges rng Math_random grid g))).
Proof.
  unfold buildEdges, bind, ret.
  set (fv := arrayFrom rng (Z.to_nat (Z.max 0 (cols grid - 1)))
               (randomSpec rng Math_random)).
  set (fh := arrayFrom rng (Z.to_nat (cols grid)) (randomSpec rng Math_random)).
  destruct (arrayFrom_Forall rng (Forall regular) fv
              (fun g => proj1 (arrayFrom_Forall rng regular _
                                 randomSpec_regular _ g))
              (Z.to_nat (rows grid)) g) as [HvF _].
  destruct (arrayFrom rng (Z.to_nat (rows grid)) fv g) as [v g1].
  destruct (arrayFrom_Forall rng (Forall regular) fh
              (fun g => proj1 (arrayFrom_Forall rng regular _
                                 randomSpec_regular _ g))
              (Z.to_nat (Z.max 0 (rows grid - 1))) g1) as [HhF _].
  destruct (arrayFrom rng (Z.to_nat (Z.max 0 (rows grid - 1))) fh g1) as [h g2].
  cbn in *. auto.
Qed.

End DrawnEdgeFacts.

Section RegularEdgeFacts.
Import Geometry.
Local Open Scope R_scope.

Lemma regular_unclamped (e : EdgeSpec) (L : R) :
  regular e -> 0 <= L ->
  widthU L e = L * 0.42 * widthF e
  /\ neckU (widthU L e) e = widthU L e * 0.34 * neckF e
  /\ centerU L (skewF e) = L * (0.5 + skewF e * 0.06)
  /\ centerU L (- skewF e) = L * (0.5 - skewF e * 0.06).
Proof.
  intros (_ & Hw & Hn & Hs) HL.
  assert (Ew : widthU L e = L * 0.42 * widthF e)
    by (unfold widthU; apply clamp_inside; nra).
  split; [exact Ew|]. split; [|split].
  - unfold neckU. apply clamp_inside. rewrite Ew.
    assert (Hpos : 0 <= L * 0.42 * widthF e) by nra.
    generalize dependent (L * 0.42 * widthF e). intros w _ Hpos.
    pose proof (Rmult_le_pos w (0.34 * neckF e - 0.26) Hpos ltac:(lra)).
    pose proof (Rmult_le_pos w (0.42 - 0.34 * neckF e) Hpos ltac:(lra)).
    lra.
  - unfold centerU. rewrite clamp_inside by lra. reflexivity.
  - unfold centerU. rewrite clamp_inside by lra. lra.
Qed.

(** X22.  With [Math.random] in [0, 1), every edge that [buildEdges]
    draws bears a tab on one side and has its width factor in
    [0.92, 1.06), its neck factor in [0.90, 1.12) and its skew in
    [-1, 1); for such an edge none of the clamps on the width of the
    head, the width of the neck and the skew of the tab ever acts. *)
Theorem buildEdges_in_range {rng : Type} (Math_random : rng -> R * rng)
    (grid : Grid) (g : rng) :
  drawsInUnit Math_random ->
  let edges := fst (buildEdges rng Math_random grid g) in
  Forall (Forall regular) (vEdges edges)
  /\ Forall (Forall regular) (hEdges edges)
  /\ forall e L, regular e -> 0 <= L ->
       widthU L e = L * 0.42 * widthF e
       /\ neckU (widthU L e) e = widthU L e * 0.34 * neckF e
       /\ centerU L (skewF e) = L * (0.5 + skewF e * 0.06)
       /\ centerU L (- skewF e) = L * (0.5 - skewF e * 0.06).
Proof.
  intros H01 edges.
  destruct (buildEdges_regular rng Math_random H01 grid g) as [Hv Hh].
  split; [exact Hv|]. split; [exact Hh|]. apply regular_unclamped.
Qed.

Lemma buildEdges_in_range_witness :
  Forall (Forall regular)
    (vEdges (fst (buildEdges nat harmonic (mkGrid 2 3 6) 0%nat))).
Proof.
  apply (buildEdges_in_range harmonic (mkGrid 2 3 6) 0%nat).
  exact harmonic_in_unit.
Defined.

(** *** The outline stays on the canvas *)

Lemma amp_nonneg tab : 0 <= tab -> amp tab = tab * 0.92.
Proof. intros H. unfold amp. apply clamp_inside. lra. Qed.

Lemma neckU_band w spec : 0 <= w -> w * 0.26 <= neckU w spec <= w * 0.42.
Proof. intros Hw. unfold neckU. apply clamp_between. lra. Qed.

Lemma disp_band (normal s : Z) (tab : R) :
  (normal = 1 \/ normal = -1)%Z -> (-1 <= s <= 1)%Z -> 0 <= tab ->
  - (tab * 0.92) <= IZR normal * IZR s * amp tab <= tab * 0.92.
Proof.
  intros Hn Hs Htab. rewrite amp_nonneg by assumption.
  assert (Hs' : (s = -1 \/ s = 0 \/ s = 1)%Z) by lia.
  destruct Hn as [-> | ->]; destruct Hs' as [-> | [-> | ->]]; lra.
Qed.

Lemma along_edge start stop u :
  0 <= u <= Rabs (stop - start) ->
  Rmin start stop <= start + dirOf start stop * u <= Rmax start stop.
Proof.
  unfold dirOf, Rabs, Rmin, Rmax.
  destruct (Rle_dec start stop); destruct (Rcase_abs (stop - start)); lra.
Qed.

End RegularEdgeFacts.


Section OutlineFacts.
Import Geometry.
Local Open Scope R_scope.

(** The positions along an edge of length [L] that the tab is drawn
    through. *)
Lemma tab_positions L skew spec :
  0 <= L ->
  let cen := centerU L skew in
  let w := widthU L spec in
  let n := neckU w spec in
  let aU := clamp (cen - w / 2) (L * 0.14) (L * 0.86) in
  let dU := clamp (cen + w / 2) (L * 0.14) (L * 0.86) in
  L * 0.44 <= cen <= L * 0.56
  /\ L * 0.34 <= w <= L * 0.50
  /\ w * 0.26 <= n <= w * 0.42
  /\ L * 0.14 <= aU <= L * 0.86
  /\ L * 0.14 <= dU <= L * 0.86.
Proof.
  intros HL cen w n aU dU.
  pose proof (centerU_band L skew HL) as Hc.
  pose proof (widthU_band L spec HL) as Hw.
  assert (Hw0 : 0 <= w) by (unfold w; lra).
  pose proof (neckU_band w spec Hw0) as Hn.
  repeat split; try apply Hc; try apply Hw; try apply Hn;
    apply clamp_between; lra.
Qed.

Ltac in_box :=
  repeat (cbn [targets];
          match goal with
          | |- List.Forall _ (_ :: _) => constructor
          | |- List.Forall _ [] => constructor
          end).

Lemma hEdgeAbs_box tab startX endX y normalY spec :
  0 <= tab -> (normalY = 1 \/ normalY = -1)%Z -> signed spec ->
  List.Forall
    (fun c => List.Forall
       (inBox (Rmin startX endX) (Rmax startX endX)
              (y - tab * 0.92) (y + tab * 0.92))
       (targets c))
    (hEdgeAbs tab startX endX y normalY spec).
Proof.
  intros Htab Hn Hs. unfold hEdgeAbs.
  set (L := Rabs (endX - startX)).
  assert (HL : 0 <= L) by apply Rabs_pos.
  assert (Hend : Rmin startX endX <= endX <= Rmax startX endX).
  { unfold Rmin, Rmax. destruct (Rle_dec startX endX); lra. }
  destruct (isFlat spec L).
  - in_box. unfold inBox. cbn [fst snd]. lra.
  - destruct (tab_positions L (skewOf (dirOf startX endX) spec) spec HL)
      as (Hc & Hw & Hnk & Ha & Hd).
    pose proof (disp_band normalY (sign spec) tab Hn Hs Htab) as Hdisp.
    set (cen := centerU L _) in *. set (w := widthU L spec) in *.
    set (n := neckU w spec) in *.
    set (aU := clamp (cen - w / 2) _ _) in *.
    set (dU := clamp (cen + w / 2) _ _) in *.
    set (disp := IZR normalY * IZR (sign spec) * amp tab) in *.
    unfold EDGE_A, EDGE_B.
    in_box; unfold inBox; cbn [fst snd];
      (split; [apply along_edge; fold L; lra|lra]) || (split; lra).
Qed.

Lemma vEdgeAbs_box tab x startY endY normalX spec :
  0 <= tab -> (normalX = 1 \/ normalX = -1)%Z -> signed spec ->
  List.Forall
    (fun c => List.Forall
       (inBox (x - tab * 0.92) (x + tab * 0.92)
              (Rmin startY endY) (Rmax startY endY))
       (targets c))
    (vEdgeAbs tab x startY endY normalX spec).
Proof.
  intros Htab Hn Hs. unfold vEdgeAbs.
  set (L := Rabs (endY - startY)).
  assert (HL : 0 <= L) by apply Rabs_pos.
  assert (Hend : Rmin startY endY <= endY <= Rmax startY endY).
  { unfold Rmin, Rmax. destruct (Rle_dec startY endY); lra. }
  destruct (isFlat spec L).
  - in_box. unfold inBox. cbn [fst snd]. lra.
  - destruct (tab_positions L (skewOf (dirOf startY endY) spec) spec HL)
      as (Hc & Hw & Hnk & Ha & Hd).
    pose proof (disp_band normalX (sign spec) tab Hn Hs Htab) as Hdisp.
    set (cen := centerU L _) in *. set (w := widthU L spec) in *.
    set (n := neckU w spec) in *.
    set (aU := clamp (cen - w / 2) _ _) in *.
    set (dU := clamp (cen + w / 2) _ _) in *.
    set (disp := IZR normalX * IZR (sign spec) * amp tab) in *.
    unfold EDGE_A, EDGE_B.
    in_box; unfold inBox; cbn [fst snd];
      (split; [lra|apply along_edge; fold L; lra]) || (split; lra).
Qed.

Lemma box_wider x0 x1 y0 y1 x0' x1' y0' y1' (l : list PathCmd) :
  x0' <= x0 -> x1 <= x1' -> y0' <= y0 -> y1 <= y1' ->
  List.Forall (fun c => List.Forall (inBox x0 x1 y0 y1) (targets c)) l ->
  List.Forall (fun c => List.Forall (inBox x0' x1' y0' y1') (targets c)) l.
Proof.
  intros ? ? ? ?. apply List.Forall_impl. intros c.
  apply List.Forall_impl. intros [a b]. unfold inBox. cbn. lra.
Qed.

(** The segments traced from a point of the box through commands whose
    targets are in the box are spanned by points of the box. *)
Lemma trace_box (P : R * R -> Prop) (path : list PathCmd) : forall p,
  P p ->
  List.Forall (fun c => List.Forall P (targets c)) path ->
  List.Forall (fun s => List.Forall P (hull s)) (trace p path).
Proof.
  induction path as [|c path IH]; intros p Hp Hall; cbn [trace].
  - constructor.
  - apply List.Forall_cons_iff in Hall. destruct Hall as [Hc Hall].
    destruct c as [x y|x y|c1x c1y c2x c2y x y|]; cbn [targets] in Hc.
    + apply IH; [|assumption]. now apply List.Forall_cons_iff in Hc.
    + apply List.Forall_cons_iff in Hc. destruct Hc as [Hq _].
      constructor; [|now apply IH]. cbn [hull]. repeat constructor; assumption.
    + apply List.Forall_cons_iff in Hc. destruct Hc as [H1 Hc].
      apply List.Forall_cons_iff in Hc. destruct Hc as [H2 Hc].
      apply List.Forall_cons_iff in Hc. destruct Hc as [H3 _].
      constructor; [|now apply IH]. cbn [hull]. repeat constructor; assumption.
    + constructor.
Qed.

Lemma blend_between t a b lo hi :
  0 <= t <= 1 -> lo <= a <= hi -> lo <= b <= hi -> lo <= blend t a b <= hi.
Proof. intros Ht Ha Hb. unfold blend. split; nra. Qed.

Lemma bezier_between t a b c d lo hi :
  0 <= t <= 1 -> lo <= a <= hi -> lo <= b <= hi -> lo <= c <= hi ->
  lo <= d <= hi -> lo <= bezier t a b c d <= hi.
Proof.
  intros Ht Ha Hb Hc Hd. unfold bezier.
  set (w0 := (1 - t) ^ 3). set (w1 := 3 * (1 - t) ^ 2 * t).
  set (w2 := 3 * (1 - t) * t ^ 2). set (w3 := t ^ 3).
  assert (H0 : 0 <= w0) by (unfold w0; apply pow_le; lra).
  assert (H1 : 0 <= w1).
  { unfold w1. apply Rmult_le_pos; [|lra].
    apply Rmult_le_pos; [lra|apply pow_le; lra]. }
  assert (H2 : 0 <= w2).
  { unfold w2. apply Rmult_le_pos; [|apply pow_le; lra].
    apply Rmult_le_pos; lra. }
  assert (H3 : 0 <= w3) by (unfold w3; apply pow_le; lra).
  assert (Hsum : w0 + w1 + w2 + w3 = 1) by (unfold w0, w1, w2, w3; ring).
  split.
  - pose proof (Rmult_le_pos w0 (a - lo) H0 ltac:(lra)).
    pose proof (Rmult_le_pos w1 (b - lo) H1 ltac:(lra)).
    pose proof (Rmult_le_pos w2 (c - lo) H2 ltac:(lra)).
    pose proof (Rmult_le_pos w3 (d - lo) H3 ltac:(lra)).
    replace lo with ((w0 + w1 + w2 + w3) * lo) by (rewrite Hsum; ring). lra.
  - pose proof (Rmult_le_pos w0 (hi - a) H0 ltac:(lra)).
    pose proof (Rmult_le_pos w1 (hi - b) H1 ltac:(lra)).
    pose proof (Rmult_le_pos w2 (hi - c) H2 ltac:(lra)).
    pose proof (Rmult_le_pos w3 (hi - d) H3 ltac:(lra)).
    replace hi with ((w0 + w1 + w2 + w3) * hi) by (rewrite Hsum; ring). lra.
Qed.

Lemma pointAt_box x0 x1 y0 y1 (s : Segment) (t : R) :
  0 <= t <= 1 ->
  List.Forall (inBox x0 x1 y0 y1) (hull s) ->
  inBox x0 x1 y0 y1 (pointAt s t).
Proof.
  intros Ht Hs. destruct s as [p q|p c1 c2 q]; cbn [hull pointAt] in *.
  - apply List.Forall_cons_iff in Hs. destruct Hs as [[Hpx Hpy] Hs].
    apply List.Forall_cons_iff in Hs. destruct Hs as [[Hqx Hqy] _].
    split; cbn [fst snd]; now apply blend_between.
  - apply List.Forall_cons_iff in Hs. destruct Hs as [[Hpx Hpy] Hs].
    apply List.Forall_cons_iff in Hs. destruct Hs as [[H1x H1y] Hs].
    apply List.Forall_cons_iff in Hs. destruct Hs as [[H2x H2y] Hs].
    apply List.Forall_cons_iff in Hs. destruct Hs as [[Hqx Hqy] _].
    split; cbn [fst snd]; now apply bezier_between.
Qed.

Lemma outline_targets tileW tileH tab e :
  0 <= tileW -> 0 <= tileH -> 0 <= tab ->
  signed (top e) -> signed (right e) -> signed (bottom e) -> signed (left e) ->
  List.Forall
    (fun c => List.Forall
       (inBox (- (tab * 0.92)) (tileW + tab * 0.92)
              (- (tab * 0.92)) (tileH + tab * 0.92))
       (targets c))
    (buildJigsawPath tileW tileH tab e).
Proof.
  intros HW HH Htab Ht Hr Hb Hl. unfold buildJigsawPath.
  apply List.Forall_app; split; [|apply List.Forall_app; split;
    [|apply List.Forall_app; split; [|apply List.Forall_app; split;
      [|apply List.Forall_app; split]]]].
  - in_box. unfold inBox. cbn [fst snd]. lra.
  - unfold topPath.
    eapply box_wider; [| | | |apply hEdgeAbs_box; auto];
      unfold Rmin, Rmax; destruct (Rle_dec 0 tileW); lra.
  - unfold rightPath.
    eapply box_wider; [| | | |apply vEdgeAbs_box; auto];
      unfold Rmin, Rmax; destruct (Rle_dec 0 tileH); lra.
  - unfold bottomPath.
    eapply box_wider; [| | | |apply hEdgeAbs_box; auto];
      unfold Rmin, Rmax; destruct (Rle_dec tileW 0); lra.
  - unfold leftPath.
    eapply box_wider; [| | | |apply vEdgeAbs_box; auto];
      unfold Rmin, Rmax; destruct (Rle_dec tileH 0); lra.
  - in_box.
Qed.

Lemma outline_within_box (tileW tileH tab : R) (e : PieceEdges)
    (s : Segment) (t : R) :
  0 <= tileW -> 0 <= tileH -> 0 <= tab ->
  signed (top e) -> signed (right e) -> signed (bottom e) -> signed (left e) ->
  In s (trace (0, 0) (buildJigsawPath tileW tileH tab e)) ->
  0 <= t <= 1 ->
  inBox (- (tab * 0.92)) (tileW + tab * 0.92)
        (- (tab * 0.92)) (tileH + tab * 0.92) (pointAt s t).
Proof.
  intros HW HH Htab Ht Hr Hb Hl Hin Hpar.
  apply pointAt_box; [assumption|].
  assert (Horigin : inBox (- (tab * 0.92)) (tileW + tab * 0.92)
                      (- (tab * 0.92)) (tileH + tab * 0.92) (0, 0))
    by (unfold inBox; cbn [fst snd]; lra).
  pose proof (trace_box _ _ (0, 0) Horigin
                (outline_targets tileW tileH tab e HW HH Htab Ht Hr Hb Hl))
    as Hall.
  rewrite List.Forall_forall in Hall. now apply Hall.
Qed.

(** X23.  The outline of a piece never leaves its canvas: for a tile
    of [tileW] by [tileH], a depth [tab >= 0] and edges of sign -1, 0
    or 1 (whatever their factors), every point of every straight or
    curved segment of the path lies within [0.92 * tab] of the tile,
    hence inside the canvas, which extends [tab] beyond the tile on
    each side. *)
Theorem outline_within_canvas (tileW tileH tab : R) (e : PieceEdges)
    (s : Segment) (t : R) :
  0 <= tileW -> 0 <= tileH -> 0 <= tab ->
  signed (top e) -> signed (right e) -> signed (bottom e) -> signed (left e) ->
  In s (trace (0, 0) (buildJigsawPath tileW tileH tab e)) ->
  0 <= t <= 1 ->
  inBox (- (tab * 0.92)) (tileW + tab * 0.92)
        (- (tab * 0.92)) (tileH + tab * 0.92) (pointAt s t)
  /\ inBox (- tab) (tileW + tab) (- tab) (tileH + tab) (pointAt s t).
Proof.
  intros HW HH Htab Ht Hr Hb Hl Hin Hpar.
  pose proof (outline_within_box tileW tileH tab e s t HW HH Htab Ht Hr Hb Hl
                Hin Hpar) as Hbox.
  split; [exact Hbox|]. destruct Hbox as [Hx Hy]. split; lra.
Qed.

End OutlineFacts.


Section OutlineExample.
Import Geometry.
Local Open Scope R_scope.

Lemma outline_within_canvas_witness :
  inBox (- 18) (100 + 18) (- 18) (80 + 18)
        (pointAt (Line (0, 0) (100, 0)) 0.5).
Proof.
  apply (outline_within_canvas 100 80 18
           (mkPieceEdges flat (mkEdgeSpec 1%Z 1 1 0) flat flat)
           (Line (0, 0) (100, 0)) 0.5); try lra;
    try (unfold signed; cbn [sign top right bottom left flat]; lia).
  unfold buildJigsawPath, topPath, hEdgeAbs, isFlat.
  cbn [top flat sign Z.eqb orb app trace]. now left.
Defined.

End OutlineExample.


(** ** generatePieces.ts: the pieces generated *)

Section GeneratedFacts.
Import Geometry.
Local Open Scope R_scope.
Variable rng : Type.
Variable Math_random : rng -> R * rng.

Lemma tabbed_signed s : tabbed s -> signed s /\ signed (inverted s).
Proof. unfold tabbed, signed. cbn [sign inverted]. lia. Qed.

Lemma flat_signed : signed flat.
Proof. unfold signed. cbn. lia. Qed.

Lemma pieceEdges_signed grid edges r c e :
  Forall (Forall tabbed) (vEdges edges) ->
  Forall (Forall tabbed) (hEdges edges) ->
  pieceEdges grid edges r c = Some e ->
  signed (top e) /\ signed (right e) /\ signed (bottom e) /\ signed (left e).
Proof.
  intros Hv Hh. unfold pieceEdges.
  assert (Htop : forall o,
            (if (r =? 0)%Z then Some flat
             else inverted <$> at2 (hEdges edges) (r - 1) c) = Some o ->
            signed o).
  { intros o. destruct (r =? 0)%Z; [intros [= <-]; apply flat_signed|].
    destruct (at2 (hEdges edges) (r - 1) c) as [s|] eqn:E; cbn; [|discriminate].
    intros [= <-].
    apply tabbed_signed. exact (at2_Forall tabbed _ _ _ _ Hh E). }
  assert (Hbot : forall o,
            (if (r =? rows grid - 1)%Z then Some flat
             else at2 (hEdges edges) r c) = Some o -> signed o).
  { intros o. destruct (r =? rows grid - 1)%Z; [intros [= <-]; apply flat_signed|].
    intros E. apply tabbed_signed. exact (at2_Forall tabbed _ _ _ _ Hh E). }
  assert (Hleft : forall o,
            (if (c =? 0)%Z then Some flat
             else inverted <$> at2 (vEdges edges) r (c - 1)) = Some o ->
            signed o).
  { intros o. destruct (c =? 0)%Z; [intros [= <-]; apply flat_signed|].
    destruct (at2 (vEdges edges) r (c - 1)) as [s|] eqn:E; cbn; [|discriminate].
    intros [= <-].
    apply tabbed_signed. exact (at2_Forall tabbed _ _ _ _ Hv E). }
  assert (Hright : forall o,
            (if (c =? cols grid - 1)%Z then Some flat
             else at2 (vEdges edges) r c) = Some o -> signed o).
  { intros o. destruct (c =? cols grid - 1)%Z; [intros [= <-]; apply flat_signed|].
    intros E. apply tabbed_signed. exact (at2_Forall tabbed _ _ _ _ Hv E). }
  destruct (if (r =? 0)%Z then _ else _) as [t|]; [|discriminate].
  destruct (if (r =? rows grid - 1)%Z then _ else _) as [b|]; [|discriminate].
  destruct (if (c =? 0)%Z then _ else _) as [l|]; [|discriminate].
  destruct (if (c =? cols grid - 1)%Z then _ else _) as [rt|]; [|discriminate].
  cbn. intros [= <-]. cbn [top right bottom left]. auto.
Qed.

Lemma generatePiece_at image grid opts edges rc g :
  edgesFit grid edges -> In rc (tiles grid) ->
  exists p, fst (generatePiece rng Math_random image grid opts edges rc g)
            = Some p
            /\ pieceAt image grid opts edges rc p.
Proof.
  intros Hfit Hin. destruct rc as [r c].
  destruct (tiles_inside grid r c Hin) as [Hr Hc].
  destruct (pieceEdges_inside grid edges _ _ Hfit Hr Hc) as (e & Ee & _).
  unfold generatePiece. rewrite Ee. unfold bind, ret.
  destruct (randomRotation opts) eqn:Erot.
  - destruct (randomRotation90 rng Math_random g) as [rot g1].
    eexists. split; [reflexivity|]. split; [|intros H; congruence].
    unfold pieceOf. cbn. repeat split; try reflexivity. eauto.
  - eexists. split; [reflexivity|]. split; [|intros _; reflexivity].
    unfold pieceOf. cbn. repeat split; try reflexivity. eauto.
Qed.

Lemma generatePieces_at image grid opts g :
  exists pieces,
    fst (generatePieces rng Math_random image grid opts g) = Some pieces
    /\ Forall2 (pieceAt image grid opts
                  (fst (generatePieces_edges rng Math_random grid opts g)))
               (tiles grid) pieces.
Proof.
  unfold generatePieces, bind.
  pose proof (buildEdges_fit rng Math_random grid g) as Hfit.
  unfold generatePieces_edges in *.
  destruct (buildEdges rng Math_random grid g) as [edges g1]. cbn in *.
  apply forEach_Forall2. intros rc g' Hin.
  now apply generatePiece_at.
Qed.

Lemma outTileW_min image grid : 10 <= outTileW image grid.
Proof. unfold outTileW. apply Rmax_l. Qed.

Lemma outTileH_min image grid : 10 <= outTileH image grid.
Proof. unfold outTileH. apply Rmax_l. Qed.

Lemma pad_6 image grid : 6 <= pad image grid.
Proof. unfold pad. apply Rmax_l. Qed.

(** X24.  [generatePieces] never fails, and the outline of every piece
    it returns lies on the canvas of the piece: whatever the image, the
    grid and the draws, every point of every segment of the clip path,
    once moved by [pad], is within the [outW] by [outH] of the piece
    image. *)
Theorem generated_outline_on_canvas (image : Image) (grid : Grid)
    (opts : Options) (g : rng) :
  exists pieces,
    fst (generatePieces rng Math_random image grid opts g) = Some pieces
    /\ forall p s t,
         In p pieces -> In s (trace (0, 0) (clipPath (imgUrl p))) ->
         0 <= t <= 1 -> onCanvas p (pointAt s t).
Proof.
  destruct (generatePieces_returns rng Math_random image grid opts g)
    as (pieces & E & HF).
  exists pieces. split; [exact E|]. intros p s t Hp Hs Ht.
  destruct (pieces_of_tiles p HF Hp) as (rc & Hrc & Hpiece).
  destruct Hpiece as (_ & _ & _ & (e & Ee & Epath) & _ & _
                      & EoutW & EoutH & EtileW & EtileH & Epad & _).
  unfold generatePieces_edges in Ee.
  destruct (buildEdges_tabbed rng Math_random grid g) as [Hv Hh].
  destruct (pieceEdges_signed _ _ _ _ _ Hv Hh Ee) as (H1 & H2 & H3 & H4).
  rewrite Epath in Hs.
  pose proof (outTileW_min image grid). pose proof (outTileH_min image grid).
  pose proof (pad_6 image grid).
  destruct (outline_within_box (outTileW image grid) (outTileH image grid)
              (Geometry.pad image grid) e s t) as [Hx Hy]; try assumption; try lra.
  unfold onCanvas. rewrite EoutW, EoutH, Epad. unfold outW, outH.
  split; lra.
Qed.

(** X25.  [generatePieces] returns one piece per cell of the grid, row
    by row: the piece at index [k] has id [k], sits at row [k / cols]
    and column [k mod cols], is not placed, and is upright when
    [randomRotation] is off. *)
Theorem generatePieces_row_major (image : Image) (grid : Grid)
    (opts : Options) (g : rng) :
  exists pieces,
    fst (generatePieces rng Math_random image grid opts g) = Some pieces
    /\ length pieces = (Z.to_nat (rows grid) * Z.to_nat (cols grid))%nat
    /\ forall k p, pieces !! k = Some p ->
         id p = k
         /\ k = (row p * Z.to_nat (cols grid) + col p)%nat
         /\ (row p < Z.to_nat (rows grid))%nat
         /\ (col p < Z.to_nat (cols grid))%nat
         /\ placed p = false
         /\ (randomRotation opts = false -> rotation p = R0).
Proof.
  destruct (generatePieces_at image grid opts g) as (pieces & E & HF).
  exists pieces. split; [exact E|].
  assert (HF' : Forall2 (pieceOf image grid
                  (fst (generatePieces_edges rng Math_random grid opts g)))
                  (tiles grid) pieces).
  { eapply Forall2_impl; [exact HF|]. intros rc p [H _]. exact H. }
  destruct (generated_ids _ _ _ _ HF') as [Hids _].
  assert (Hlen : length pieces
                 = (Z.to_nat (rows grid) * Z.to_nat (cols grid))%nat)
    by (now rewrite <- (length_map id), Hids, length_seq).
  split; [exact Hlen|]. intros k p Hk.
  assert (Hid : id p = k).
  { assert (H : (id <$> pieces) !! k = Some (id p))
      by (rewrite list_lookup_fmap, Hk; reflexivity).
    change (id <$> pieces) with (map id pieces) in H. rewrite Hids in H.
    apply lookup_seq in H. lia. }
  destruct (Forall2_lookup_r _ _ _ _ _ HF Hk) as (rc & Hrc & Hpiece & Hrot).
  destruct Hpiece as (Eid & Erow & Ecol & _ & _ & _ & _ & _ & _ & _ & _ & Epl).
  assert (Hin : In rc (tiles grid))
    by (apply list_elem_of_In; eapply list_elem_of_lookup_2; exact Hrc).
  destruct rc as [r c]. destruct (tiles_inside grid r c Hin) as [Hr Hc].
  cbn [fst snd] in *. rewrite Erow, Ecol.
  repeat split; try assumption; try lia.
Qed.

End GeneratedFacts.


(** ** generatePieces.ts: the rim, the underlays; App.tsx: the quality
    estimate *)

Section RimFacts.
Import Geometry.
Local Open Scope R_scope.

Lemma flat_side_h tab startX endX y normalY :
  hEdgeAbs tab startX endX y normalY flat = [LineTo endX y].
Proof. reflexivity. Qed.

Lemma flat_side_v tab x startY endY normalX :
  vEdgeAbs tab x startY endY normalX flat = [LineTo x endY].
Proof. reflexivity. Qed.

(** X26.  The rim of the puzzle is straight: whatever the edge
    matrices, the side of a piece that lies on the border of the grid
    is the single line to the next corner of the tile. *)
Theorem rim_is_straight (grid : Grid) (edges : Edges) (r c : Z)
    (e : PieceEdges) (tileW tileH tab : R) :
  pieceEdges grid edges r c = Some e ->
  (r = 0%Z -> topPath tileW tileH tab e = [LineTo tileW 0])
  /\ (c = (cols grid - 1)%Z ->
      rightPath tileW tileH tab e = [LineTo tileW tileH])
  /\ (r = (rows grid - 1)%Z ->
      bottomPath tileW tileH tab e = [LineTo 0 tileH])
  /\ (c = 0%Z -> leftPath tileW tileH tab e = [LineTo 0 0]).
Proof.
  unfold pieceEdges. intros He.
  destruct (if (r =? 0)%Z then _ else _) as [t|] eqn:Et; [|discriminate].
  destruct (if (r =? rows grid - 1)%Z then _ else _) as [b|] eqn:Eb;
    [|discriminate].
  destruct (if (c =? 0)%Z then _ else _) as [l|] eqn:El; [|discriminate].
  destruct (if (c =? cols grid - 1)%Z then _ else _) as [rt|] eqn:Er;
    [|discriminate].
  cbn in He. injection He as <-.
  unfold topPath, rightPath, bottomPath, leftPath. cbn [top right bottom left].
  repeat split; intros ->.
  - rewrite Z.eqb_refl in Et. injection Et as <-. apply flat_side_h.
  - rewrite Z.eqb_refl in Er. injection Er as <-. apply flat_side_v.
  - rewrite Z.eqb_refl in Eb. injection Eb as <-. apply flat_side_h.
  - rewrite Z.eqb_refl in El. injection El as <-. apply flat_side_v.
Qed.

Lemma rim_is_straight_witness :
  topPath 100 80 18 (mkPieceEdges flat flat flat flat) = [LineTo 100 0].
Proof.
  destruct (rim_is_straight (mkGrid 1 1 1) (mkEdges [] []) 0 0
              (mkPieceEdges flat flat flat flat) 100 80 18 eq_refl)
    as [Htop _].
  now apply Htop.
Defined.

(** X28.  The rectangular underlays tile the image: in a grid with at
    least one row and one column the source rectangles of the tiles of
    a row start at the left edge of the image, each starts where the
    one before ends, and the last ends at the right edge; likewise down
    a column. *)
Theorem underlays_tile_image (image : Image) (grid : Grid) (r c : nat) :
  (1 <= rows grid)%Z -> (1 <= cols grid)%Z ->
  sx (rectDraw image grid r 0) = 0
  /\ sy (rectDraw image grid 0 c) = 0
  /\ sx (rectDraw image grid r (S c))
     = sx (rectDraw image grid r c) + sw (rectDraw image grid r c)
  /\ sy (rectDraw image grid (S r) c)
     = sy (rectDraw image grid r c) + sh (rectDraw image grid r c)
  /\ sx (rectDraw image grid r (Z.to_nat (cols grid) - 1))
     + sw (rectDraw image grid r (Z.to_nat (cols grid) - 1))
     = naturalW image
  /\ sy (rectDraw image grid (Z.to_nat (rows grid) - 1) c)
     + sh (rectDraw image grid (Z.to_nat (rows grid) - 1) c)
     = naturalH image.
Proof.
  intros Hr Hc. unfold rectDraw. cbn [sx sy sw sh].
  assert (Hcols : INR (Z.to_nat (cols grid) - 1) + 1 = IZR (cols grid)).
  { rewrite <- S_INR, INR_IZR_INZ. f_equal. lia. }
  assert (Hrows : INR (Z.to_nat (rows grid) - 1) + 1 = IZR (rows grid)).
  { rewrite <- S_INR, INR_IZR_INZ. f_equal. lia. }
  assert (Hc' : 1 <= IZR (cols grid)) by (apply IZR_le; lia).
  assert (Hr' : 1 <= IZR (rows grid)) by (apply IZR_le; lia).
  rewrite !S_INR. change (INR 0) with 0. unfold tileW, tileH.
  repeat split; try lra.
  - replace (INR (Z.to_nat (cols grid) - 1)) with (IZR (cols grid) - 1) by lra.
    field. lra.
  - replace (INR (Z.to_nat (rows grid) - 1)) with (IZR (rows grid) - 1) by lra.
    field. lra.
Qed.

Lemma underlays_tile_image_witness :
  sx (rectDraw photo (mkGrid 5 10 50) 2 4)
  = sx (rectDraw photo (mkGrid 5 10 50) 2 3)
    + sw (rectDraw photo (mkGrid 5 10 50) 2 3).
Proof.
  destruct (underlays_tile_image photo (mkGrid 5 10 50) 2 3)
    as (_ & _ & H & _); [cbn [rows]; lia|cbn [cols]; lia|exact H].
Defined.

End RimFacts.

Section QualityFacts.
Import Js Geometry Session.
Local Open Scope R_scope.

Lemma ge_Fin x y : ge (Fin x) (Fin y) = true <-> y <= x.
Proof.
  unfold ge. destruct (Rle_dec y x); split; auto; try discriminate.
Qed.

(** The scaled and floored tile side, as [estimateQualityForCount]
    computes it. *)
Lemma scaled_tile (side M : R) (n : Z) :
  1 <= side <= 4294967296 -> 1 <= M <= 4294967296 -> (1 <= n)%Z ->
  Js.Math_floor
    (mul (div (Fin side) (ofZ n)) (Math_min (Fin 1) (div (Fin 900) (Fin M))))
  = Fin (Math_floor
           (Double.round (Double.round (side / IZR n)
                          * Rmin 1 (Double.round (900 / M))))).
Proof.
  intros Hside HM Hn.
  pose proof eps_small as [He0 He1]. pose proof tiny_small as [Ht0 Ht1].
  assert (Hn' : 1 <= IZR n) by (apply IZR_le; assumption).
  assert (Hq : 0 < 900 / M <= 900).
  { assert (900 / M * M = 900) by (field; lra).
    assert (0 < 900 / M) by (apply Rdiv_lt_0_compat; lra). split; nra. }
  assert (Hx : 0 < side / IZR n <= 4294967296).
  { assert (side / IZR n * IZR n = side) by (field; lra).
    assert (0 < side / IZR n) by (apply Rdiv_lt_0_compat; lra). split; nra. }
  unfold ofZ. rewrite !div_Fin by lra.
  rewrite (double_moderate (900 / M)) by lra.
  rewrite (double_moderate (side / IZR n)) by lra.
  cbn [Math_min mul].
  set (t := Double.round (side / IZR n)). set (r := Double.round (900 / M)).
  assert (Ht : 0 <= t <= 8589934592).
  { split; [apply round_sign; lra|].
    pose proof (round_error (side / IZR n)) as H. fold t in H.
    rewrite (Rabs_right (side / IZR n)) in H by lra.
    apply Rabs_le_bounds in H. nra. }
  assert (Hr : 0 <= r) by (apply round_sign; lra).
  assert (Hs : 0 <= Rmin 1 r <= 1).
  { unfold Rmin. destruct (Rle_dec 1 r); lra. }
  rewrite (double_moderate (t * Rmin 1 r)) by nra.
  reflexivity.
Qed.

(** X27.  The quality estimate of [App] and [generatePieces] agree:
    for an image between 1 and 2^32 pixels wide and high and a count
    of at least 1, the estimate is [ok] exactly when the tiles that
    [generatePieces] cuts on the grid of the estimate are at least 28
    pixels wide and high; and then the tile size the estimate reports
    is the smaller side of those tiles, and the board of all tiles is
    at most 900 pixels wide and high. *)
Theorem quality_predicts_tiles (w h : R) (pieces : Z) (image : Image) :
  1 <= w <= 4294967296 -> 1 <= h <= 4294967296 -> (1 <= pieces)%Z ->
  naturalWidth image = w -> naturalHeight image = h ->
  let q := estimateQualityForCount (mkSize (Fin w) (Fin h)) pieces in
  let g := q_grid q in
  (ok q = true <-> 28 <= outTileW image g /\ 28 <= outTileH image g)
  /\ (ok q = true ->
      tilePx q = Fin (Rmin (outTileW image g) (outTileH image g))
      /\ IZR (cols g) * outTileW image g <= 900
      /\ IZR (rows g) * outTileH image g <= 900).
Proof.
  intros Hw Hh Hn Ew Eh q g.
  assert (Eg : g = GridSolver.findBestGrid pieces (div (Fin w) (Fin h)))
    by reflexivity.
  destruct (findBestGrid_exact pieces (div (Fin w) (Fin h))) as (_ & _ & Hpos).
  destruct (Hpos Hn) as [Hrows Hcols]. rewrite <- Eg in Hrows, Hcols.
  assert (EW : naturalW image = w).
  { unfold naturalW, orElse. rewrite Ew. destruct (Req_dec_T w 0); [lra|reflexivity]. }
  assert (EH : naturalH image = h).
  { unfold naturalH, orElse. rewrite Eh. destruct (Req_dec_T h 0); [lra|reflexivity]. }
  assert (HM : 1 <= Rmax w h <= 4294967296).
  { split; [apply Rle_trans with w; [lra|apply Rmax_l]|apply Rmax_lub; lra]. }
  set (fw := Math_floor (Double.round (tileW64 image g * scale64 image))).
  set (fh := Math_floor (Double.round (tileH64 image g * scale64 image))).
  assert (Epx : tilePx q = Fin (Rmin fw fh)).
  { unfold q, estimateQualityForCount.
    cbn [tilePx Session.w Session.h Math_max]. rewrite <- Eg.
    rewrite (scaled_tile w (Rmax w h) (cols g)) by (assumption || lia).
    rewrite (scaled_tile h (Rmax w h) (rows g)) by (assumption || lia).
    cbn [Math_min]. unfold fw, fh, tileW64, tileH64, scale64, maxBoardPx.
    rewrite EW, EH. reflexivity. }
  assert (Eok : ok q = true <-> 28 <= fw /\ 28 <= fh).
  { assert (E : ok q = ge (tilePx q) (Fin 28)) by reflexivity.
    rewrite E, Epx, ge_Fin. unfold Rmin. destruct (Rle_dec fw fh); lra. }
  assert (EoW : outTileW image g = Rmax 10 fw) by reflexivity.
  assert (EoH : outTileH image g = Rmax 10 fh) by reflexivity.
  split.
  - rewrite Eok, EoW, EoH. unfold Rmax.
    destruct (Rle_dec 10 fw), (Rle_dec 10 fh); lra.
  - intros Hok. apply Eok in Hok. destruct Hok as [Hfw Hfh].
    rewrite EoW, EoH, !Rmax_right by lra.
    split; [exact Epx|].
    unfold fw, fh, tileW64, tileH64, scale64, maxBoardPx in *.
    rewrite EW, EH in *. split.
    + apply board_capped; [split; [lra|apply Rmax_l]|lra|lia|lra].
    + apply board_capped; [split; [lra|apply Rmax_r]|lra|lia|lra].
Qed.

(** The estimate for the poster and 50 pieces: 5 rows of 10, tiles of
    90 pixels. *)
Lemma estimate_poster_50 :
  estimateQualityForCount (mkSize (Fin 1800) (Fin 900)) 50
  = mkQuality true (Fin 90) (mkGrid 5 10 50).
Proof.
  unfold estimateQualityForCount. cbn [Session.w Session.h Math_max].
  rewrite (div_Fin 1800 900) by lra.
  replace (1800 / 900) with 2 by lra. rewrite double_int by lia.
  rewrite findBestGrid_50_2. cbn [rows cols]. unfold ofZ.
  rewrite (Rmax_left 1800 900) by lra.
  rewrite (div_Fin 900 1800) by lra.
  replace (900 / 1800) with (IZR 1 / IZR (2 ^ 1))
    by (change (IZR (2 ^ 1)) with 2; lra).
  rewrite double_dyadic by lia. change (IZR 1 / IZR (2 ^ 1)) with (1 / 2).
  cbn [Math_min]. rewrite (Rmin_right 1 (1 / 2)) by lra.
  rewrite (div_Fin 1800 10), (div_Fin 900 5) by lra.
  replace (1800 / 10) with 180 by lra. replace (900 / 5) with 180 by lra.
  rewrite double_int by lia. cbn [mul].
  replace (180 * (1 / 2)) with 90 by lra. rewrite double_int by lia.
  cbn [Js.Math_floor Math_min]. rewrite ZfloorZ.
  rewrite (Rmin_left 90 90) by lra.
  unfold ge. destruct (Rle_dec 28 90); [reflexivity|lra].
Qed.

Lemma quality_predicts_tiles_witness :
  28 <= outTileW poster (mkGrid 5 10 50)
  /\ 28 <= outTileH poster (mkGrid 5 10 50)
  /\ IZR 10 * outTileW poster (mkGrid 5 10 50) <= 900
  /\ IZR 5 * outTileH poster (mkGrid 5 10 50) <= 900.
Proof.
  destruct (quality_predicts_tiles 1800 900 50 poster) as [Hiff Hcap];
    try lra; try lia; try reflexivity.
  rewrite estimate_poster_50 in Hiff, Hcap. cbn [ok q_grid] in Hiff, Hcap.
  destruct Hiff as [Hsize _]. destruct (Hsize eq_refl) as [HW HH].
  destruct (Hcap eq_refl) as (_ & HcW & HcH).
  cbn [rows cols] in HcW, HcH. auto.
Defined.

End QualityFacts.


(** ** wikimedia.ts *)

Section WikimediaFacts.
Import Wikimedia.
Local Open Scope Z_scope.

Lemma collect_keeps limit titles : forall out seen,
  List.NoDup out -> (forall t, t ∈ seen <-> t ∈ out) ->
  Z.of_nat (length out) < limit ->
  let '(out', seen') := collect limit titles out seen in
  List.NoDup out' /\ (forall t, t ∈ seen' <-> t ∈ out')
  /\ Z.of_nat (length out') <= limit
  /\ (forall t, t ∈ out' -> t ∈ out \/ t ∈ titles).
Proof.
  induction titles as [|t titles IH]; intros out seen Hnd Hseen Hlen;
    cbn [collect].
  - repeat split; try assumption; try apply Hseen; try lia. auto.
  - destruct (decide (t ∈ seen)) as [Hin|Hnin].
    + specialize (IH out seen Hnd Hseen Hlen).
      destruct (collect limit titles out seen) as [out' seen'].
      destruct IH as (H1 & H2 & H3 & H4). repeat split; try assumption;
        try apply H2. intros x Hx. destruct (H4 x Hx); [auto|].
      right. now apply elem_of_cons; right.
    + assert (Hnd' : List.NoDup (out ++ [t])).
      { apply NoDup_snoc; [assumption|]. rewrite <- list_elem_of_In.
        now rewrite <- Hseen. }
      assert (Hseen' : forall x, x ∈ {[t]} ∪ seen <-> x ∈ out ++ [t]).
      { intros x. rewrite elem_of_union, elem_of_singleton, elem_of_app,
          list_elem_of_singleton, Hseen. tauto. }
      assert (Hfrom : forall x, x ∈ out ++ [t] -> x ∈ out \/ x ∈ t :: titles).
      { intros x Hx. apply elem_of_app in Hx as [Hx|Hx]; [auto|].
        apply list_elem_of_singleton in Hx as ->. right. apply list_elem_of_here. }
      destruct (Z.leb_spec limit (Z.of_nat (length (out ++ [t])))) as [Hfull|Hroom].
      * repeat split; try assumption; try apply Hseen'.
        rewrite length_app in *. cbn [length] in *. lia.
      * specialize (IH (out ++ [t]) ({[t]} ∪ seen) Hnd' Hseen' Hroom).
        destruct (collect limit titles (out ++ [t]) ({[t]} ∪ seen))
          as [out' seen'].
        destruct IH as (H1 & H2 & H3 & H4). repeat split; try assumption;
          try apply H2. intros x Hx. destruct (H4 x Hx) as [Hx'|Hx'].
        -- now apply Hfrom.
        -- right. now apply elem_of_cons; right.
Qed.

Lemma searchEach_keeps {net : Type}
    (search : string -> Z -> net -> option (list string) * net)
    (all : list string) (limit perQuery : Z) (queries : list string) :
  10 <= perQuery ->
  (forall q, q ∈ queries -> q ∈ all) ->
  forall out seen n,
  List.NoDup out -> (forall t, t ∈ seen <-> t ∈ out) ->
  Z.of_nat (length out) <= Z.max 0 limit ->
  (forall t, t ∈ out -> answered search all limit t) ->
  match fst (searchEach net search limit perQuery queries out seen n) with
  | None => True
  | Some out' =>
      List.NoDup out' /\ Z.of_nat (length out') <= Z.max 0 limit
      /\ forall t, t ∈ out' -> answered search all limit t
  end.
Proof.
  intros Hper. induction queries as [|q queries IH];
    intros Hall out seen n Hnd Hseen Hlen Hans; cbn [searchEach].
  - cbn [fst]. auto.
  - destruct (Z.leb_spec limit (Z.of_nat (length out))) as [Hfull|Hroom].
    + cbn [fst]. auto.
    + destruct (search q (Z.min perQuery (limit - Z.of_nat (length out))) n)
        as [[titles|] n'] eqn:Ecall; [|exact I].
      pose proof (collect_keeps limit titles out seen Hnd Hseen Hroom) as Hc.
      destruct (collect limit titles out seen) as [out' seen'].
      destruct Hc as (H1 & H2 & H3 & H4).
      apply IH; try assumption.
      * intros q' Hq'. apply Hall. now apply elem_of_cons; right.
      * lia.
      * intros t Ht. destruct (H4 t Ht) as [Hold|Hnew]; [now apply Hans|].
        exists q, (Z.min perQuery (limit - Z.of_nat (length out))), n, titles.
        split; [apply Hall, list_elem_of_here|]. split; [lia|].
        split; [now rewrite Ecall|assumption].
Qed.

(** X29.  Whatever the network answers, when
    [fetchFileTitlesBySearchMulti] resolves it returns no title twice
    and no more than [limit] titles (none for a [limit] of 0 or less),
    each of them an answer to a search for one of the queries that was
    asked for between 1 and [limit] titles. *)
Theorem fetchFileTitlesBySearchMulti_distinct {net : Type}
    (search : string -> Z -> net -> option (list string) * net)
    (queries : list string) (limit : Z) (n : net) :
  match fst (fetchFileTitlesBySearchMulti net search queries limit n) with
  | None => True
  | Some out =>
      List.NoDup out /\ Z.of_nat (length out) <= Z.max 0 limit
      /\ forall t, t ∈ out -> answered search queries limit t
  end.
Proof.
  unfold fetchFileTitlesBySearchMulti.
  apply searchEach_keeps; auto.
  - lia.
  - constructor.
  - intros t. rewrite elem_of_empty. split; [tauto|]. intros H.
    now apply elem_of_nil in H.
  - cbn. lia.
  - intros t H. now apply elem_of_nil in H.
Qed.

(** *** fetchImageInfos *)

Lemma batchesFrom_covers fuel : forall i (titles : list string),
  (length titles <= i + 50 * fuel)%nat ->
  concat (batchesFrom fuel i titles) = drop i titles
  /\ List.Forall (fun b => (1 <= length b <= 50)%nat) (batchesFrom fuel i titles)
  /\ (50 * length (batchesFrom fuel i titles)
      < length titles - i + 50)%nat
  /\ (length titles - i <= 50 * length (batchesFrom fuel i titles))%nat.
Proof.
  induction fuel as [|fuel IH]; intros i titles Hfuel; cbn [batchesFrom].
  - cbn [concat length]. rewrite drop_ge by lia.
    repeat split; try constructor; lia.
  - destruct (Nat.ltb_spec i (length titles)) as [Hlt|Hge].
    + destruct (IH (i + 50)%nat titles ltac:(lia)) as (Hcat & Hall & Hup & Hlow).
      cbn [concat length]. rewrite Hcat.
      rewrite <- drop_drop, take_drop. split; [reflexivity|].
      split; [|split; lia].
      constructor; [|assumption].
      rewrite length_take, length_drop. lia.
    + cbn [concat length]. rewrite drop_ge by lia.
      repeat split; try constructor; lia.
Qed.

Lemma infosEach_from {net : Type}
    (query : list string -> R -> net -> option (list Page) * net)
    (thumbWidth : R) (bs : list (list string)) : forall out n,
  match fst (infosEach net query thumbWidth bs out n) with
  | None => True
  | Some out' =>
      exists more, out' = out ++ more
        /\ forall img, img ∈ more ->
             exists batch n0 pages p,
               batch ∈ bs /\ fst (query batch thumbWidth n0) = Some pages
               /\ p ∈ pages /\ imageOf p = Some img
  end.
Proof.
  induction bs as [|batch bs IH]; intros out n; cbn [infosEach].
  - cbn [fst]. exists []. split; [now rewrite app_nil_r|].
    intros img H. now apply elem_of_nil in H.
  - destruct (query batch thumbWidth n) as [[pages|] n'] eqn:Ecall; [|exact I].
    specialize (IH (out ++ omap imageOf pages) n').
    destruct (fst (infosEach net query thumbWidth bs _ n')) as [out'|];
      [|exact I].
    destruct IH as (more & -> & Hmore).
    exists (omap imageOf pages ++ more). split; [now rewrite app_assoc|].
    intros img Himg. apply elem_of_app in Himg as [Himg|Himg].
    + apply list_elem_of_omap in Himg as (p & Hp & Hi).
      exists batch, n, pages, p. split; [apply list_elem_of_here|].
      split; [now rewrite Ecall|]. split; assumption.
    + destruct (Hmore img Himg) as (b & n0 & pages' & p & Hb & Hq & Hp & Hi).
      exists b, n0, pages', p. split; [now apply elem_of_cons; right|].
      repeat split; assumption.
Qed.

(** X30.  [fetchImageInfos] asks for the titles in batches that,
    put end to end, are the titles given: every batch holds between 1
    and 50 titles, there are as many batches as fifties begun, and
    every image returned was decoded from a page of the answer to one
    of these batches, with all five of its fields present. *)
Theorem fetchImageInfos_batches {net : Type}
    (query : list string -> R -> net -> option (list Page) * net)
    (titles : list string) (thumbWidth : R) (n : net) :
  concat (batches titles) = titles
  /\ List.Forall (fun b => (1 <= length b <= 50)%nat) (batches titles)
  /\ length (batches titles) = ((length titles + 49) / 50)%nat
  /\ match fst (fetchImageInfos net query titles thumbWidth n) with
     | None => True
     | Some out =>
         forall img, img ∈ out ->
           exists batch n0 pages p,
             batch ∈ batches titles
             /\ fst (query batch thumbWidth n0) = Some pages
             /\ p ∈ pages
             /\ p_title p = Some (title img) /\ ii_url p = Some (url img)
             /\ ii_thumburl p = Some (thumbUrl img)
             /\ ii_width p = Some (w img) /\ ii_height p = Some (h img)
     end.
Proof.
  destruct (batchesFrom_covers (length titles) 0%nat titles ltac:(lia))
    as (Hcat & Hall & Hup & Hlow).
  fold (batches titles) in Hcat, Hall, Hup, Hlow.
  split; [exact Hcat|]. split; [exact Hall|]. split.
  - apply (Nat.div_unique _ 50 _
      (length titles + 49 - 50 * length (batches titles))%nat); lia.
  - unfold fetchImageInfos.
    pose proof (infosEach_from query thumbWidth (batches titles) [] n) as H.
    destruct (fst (infosEach net query thumbWidth (batches titles) [] n))
      as [out|]; [|exact I].
    destruct H as (more & -> & Hmore). cbn [app].
    intros img Himg.
    destruct (Hmore img Himg) as (b & n0 & pages & p & Hb & Hq & Hp & Hi).
    exists b, n0, pages, p. split; [assumption|]. split; [assumption|].
    split; [assumption|]. unfold imageOf in Hi.
    destruct (p_title p), (ii_url p), (ii_thumburl p), (ii_width p),
      (ii_height p); try discriminate.
    injection Hi as <-. cbn. repeat split; reflexivity.
Qed.

End WikimediaFacts.
